(** * A B+ tree of order 4 over a node store

    Shallow embedding of [b_pluss_tree.cc] and the verification of its
    specification.  The C++ program links its nodes with shared pointers and
    compares them by identity ([findParent], [insertInternalNode]); the
    embedding therefore keeps an explicit store of nodes addressed by
    natural numbers.  A pointer is an address, [nullptr] is [None],
    [std::make_shared] appends a node to the store and returns its index.

    Keys and values are C++ [int]s.  The program only compares and copies
    them, never computes with them, so they are embedded as [Z] without any
    wrap-around. *)

From Stdlib Require Import ZArith Lia.
From stdpp Require Import base tactics option list sorting.

Set Default Proof Using "Type".
#[local] Set Warnings "-clear-no-such-hyp,-register-all".
#[local] Arguments Nat.div : simpl never.

(** ** The data model *)

(** Addresses of the store. *)
Abbreviation addr := nat (only parsing).

(** [static constexpr int kOrder = 4;] *)
Definition kOrder : nat := 4.

(** The two node classes.  [isLeaf_] is the constructor tag.  The entries of
    [childPointers_] are never null in the program (only freshly made or
    already dereferenced pointers are pushed), so they are plain addresses;
    [next_] may be null. *)
Inductive BPlusNode : Type :=
| BPlusLeafNode (keys_ values_ : list Z) (next_ : option addr)
| BPlusInternalNode (keys_ : list Z) (childPointers_ : list addr).

(** The tree object: its only field is [root_]; the store is the memory the
    shared pointers live in. *)
Record BPlusTree : Type := MkTree {
  store : list BPlusNode;
  root_ : option addr
}.

(** [BPlusTree() : root_(nullptr) {}] *)
Definition empty_tree : BPlusTree := MkTree [] None.

(** What a call of a [void] member function leaves behind.  [Abandoned] is
    the defensive [if (!parent) return;] of the two parent insertions: every
    call on the way there is a tail call, so the tree it carries is the tree
    the whole [insert] leaves.  [Stuck] stands for undefined behaviour (a
    null or dangling dereference, a vector index out of range, a cast to the
    wrong node class) and for a recursion that exhausted its bound. *)
Inductive outcome : Type :=
| Completed (t : BPlusTree)
| Abandoned (t : BPlusTree)
| Stuck.

Definition tree_after (o : outcome) : option BPlusTree :=
  match o with
  | Completed t | Abandoned t => Some t
  | Stuck => None
  end.

(** ** Descent: [findLeaf] *)

(** The inner loop
    [while (i < keys_.size() && key >= keys_[i]) i++;] started at [i = 0]. *)
Fixpoint findLeaf_index (ks : list Z) (key : Z) : nat :=
  match ks with
  | [] => 0
  | k :: ks' => if (k <=? key)%Z then S (findLeaf_index ks' key) else 0
  end.

(** The outer loop [while (current && !current->isLeaf_)]; [fuel] bounds the
    number of internal nodes passed. *)
Fixpoint findLeaf_loop (fuel : nat) (h : list BPlusNode)
    (current : option addr) (key : Z) : option (option addr) :=
  match current with
  | None => Some None
  | Some c =>
    match h !! c with
    | None => None
    | Some (BPlusLeafNode _ _ _) => Some (Some c)
    | Some (BPlusInternalNode ks cs) =>
      match fuel with
      | O => None
      | S fuel' =>
        match cs !! findLeaf_index ks key with
        | None => None
        | Some child => findLeaf_loop fuel' h (Some child) key
        end
      end
    end
  end.

Definition findLeaf (t : BPlusTree) (key : Z) : option (option addr) :=
  findLeaf_loop (length (store t)) (store t) (root_ t) key.

(** ** Parent lookup: [findParent] *)

(** The [for (auto ptr : childPointers_)] loop of [findParent]; [rec] is the
    recursive call on an internal child. *)
Fixpoint findParent_scan (h : list BPlusNode) (rec : addr → option (option addr))
    (current child : addr) (ptrs : list addr) : option (option addr) :=
  match ptrs with
  | [] => Some None
  | ptr :: rest =>
    if decide (ptr = child) then Some (Some current)
    else
      match h !! ptr with
      | None => None
      | Some (BPlusLeafNode _ _ _) => findParent_scan h rec current child rest
      | Some (BPlusInternalNode _ _) =>
        match rec ptr with
        | None => None
        | Some (Some candidate) => Some (Some candidate)
        | Some None => findParent_scan h rec current child rest
        end
      end
  end.

Fixpoint findParent_rec (fuel : nat) (h : list BPlusNode)
    (current : option addr) (child : addr) : option (option addr) :=
  match current with
  | None => Some None
  | Some c =>
    match h !! c with
    | None => None
    | Some (BPlusLeafNode _ _ _) => Some None
    | Some (BPlusInternalNode _ cs) =>
      match fuel with
      | O => None
      | S fuel' =>
        findParent_scan h (λ p, findParent_rec fuel' h (Some p) child) c child cs
      end
    end
  end.

Definition findParent (t : BPlusTree) (child : addr) : option (option addr) :=
  findParent_rec (length (store t)) (store t) (root_ t) child.

(** ** Search *)

(** [for (i = 0; i < keys_.size(); i++) if (keys_[i] == key)]: the index of
    the first match. *)
Fixpoint scan_key (ks : list Z) (key : Z) : option nat :=
  match ks with
  | [] => None
  | k :: ks' => if (k =? key)%Z then Some 0 else S <$> scan_key ks' key
  end.

(** [search] returns its result together with the tree it leaves. *)
Definition search (key : Z) (t : BPlusTree) : option (option Z * BPlusTree) :=
  match root_ t with
  | None => Some (None, t)
  | Some _ =>
    match findLeaf t key with
    | None => None
    | Some None => Some (None, t)
    | Some (Some leaf) =>
      match store t !! leaf with
      | Some (BPlusLeafNode ks vs _) =>
        match scan_key ks key with
        | None => Some (None, t)
        | Some i =>
          match vs !! i with
          | None => None
          | Some v => Some (Some v, t)
          end
        end
      | _ => None
      end
    end
  end.

(** ** Splits and promotion *)

(** [v.insert(v.begin() + i, x)] for [i <= v.size()]. *)
Definition vector_insert {A} (i : nat) (x : A) (v : list A) : list A :=
  take i v ++ x :: drop i v.

(** [while (idx < childPointers_.size() && childPointers_[idx] != leftChild) idx++;] *)
Fixpoint child_position (cs : list addr) (leftChild : addr) : nat :=
  match cs with
  | [] => 0
  | c :: cs' => if decide (c = leftChild) then 0 else S (child_position cs' leftChild)
  end.

(** The common body of [insertInternalNode] and [insertInternalUpKey], which
    differ in the static type of their pointers only.  [split] is the call
    of [splitInternalNode] on the parent. *)
Definition insertIntoParent (split : addr → BPlusTree → outcome)
    (key : Z) (leftChild rightChild : addr) (t : BPlusTree) : outcome :=
  match findParent t leftChild with
  | None => Stuck
  | Some None => Abandoned t
  | Some (Some parent) =>
    match store t !! parent with
    | Some (BPlusInternalNode ks cs) =>
      let idx := child_position cs leftChild in
      if (idx <=? length ks) && (idx + 1 <=? length cs) then
        let ks' := vector_insert idx key ks in
        let cs' := vector_insert (idx + 1) rightChild cs in
        let t' := MkTree (<[parent := BPlusInternalNode ks' cs']> (store t)) (root_ t) in
        if kOrder <=? length ks' then split parent t' else Completed t'
      else Stuck
    | _ => Stuck
    end
  end.

(** The store after a split has written its two halves: the old node keeps
    the lower half, the new node, made at the next free address, gets the
    upper half.  For a leaf the split point is [mid = size / 2] and the new
    leaf is linked in behind the old one; for an internal node the key at
    [midIndex = size / 2] is left out of both halves. *)
Definition leaf_split_store (h : list BPlusNode) (leaf : addr)
    (ks vs : list Z) (nx : option addr) : list BPlusNode :=
  <[leaf := BPlusLeafNode (take (length ks / 2) ks) (take (length ks / 2) vs)
                          (Some (length h))]> h
  ++ [BPlusLeafNode (drop (length ks / 2) ks) (drop (length ks / 2) vs) nx].

Definition internal_split_store (h : list BPlusNode) (internalNode : addr)
    (ks : list Z) (cs : list addr) : list BPlusNode :=
  <[internalNode := BPlusInternalNode (take (length ks / 2) ks)
                                      (take (length ks / 2 + 1) cs)]> h
  ++ [BPlusInternalNode (drop (length ks / 2 + 1) ks) (drop (length ks / 2 + 1) cs)].

(** [splitInternalNode] and [insertInternalUpKey] call each other; [fuel]
    bounds the number of internal splits of one cascade. *)
Fixpoint splitInternalNode (fuel : nat) (internalNode : addr) (t : BPlusTree) : outcome :=
  match fuel with
  | O => Stuck
  | S fuel' =>
    match store t !! internalNode with
    | Some (BPlusInternalNode ks cs) =>
      let newInternal := length (store t) in
      let midIndex := length ks / 2 in
      match ks !! midIndex with
      | None => Stuck
      | Some upKey =>
        if midIndex + 1 <=? length cs then
          let h1 := internal_split_store (store t) internalNode ks cs in
          if decide (root_ t = Some internalNode) then
            Completed (MkTree (h1 ++ [BPlusInternalNode [upKey] [internalNode; newInternal]])
                              (Some (S newInternal)))
          else
            insertIntoParent (splitInternalNode fuel') upKey internalNode newInternal
                             (MkTree h1 (root_ t))
        else Stuck
      end
    | _ => Stuck
    end
  end.

Definition insertInternalUpKey (fuel : nat) := insertIntoParent (splitInternalNode fuel).
Definition insertInternalNode (fuel : nat) := insertIntoParent (splitInternalNode fuel).

Definition splitLeafNode (fuel : nat) (leaf : addr) (t : BPlusTree) : outcome :=
  match store t !! leaf with
  | Some (BPlusLeafNode ks vs nx) =>
    let newLeaf := length (store t) in
    let mid := length ks / 2 in
    if mid <=? length vs then
      match drop mid ks with
      | [] => Stuck
      | newKey :: _ =>
        let h1 := leaf_split_store (store t) leaf ks vs nx in
        if decide (root_ t = Some leaf) then
          Completed (MkTree (h1 ++ [BPlusInternalNode [newKey] [leaf; newLeaf]])
                            (Some (S newLeaf)))
        else insertInternalNode fuel newKey leaf newLeaf (MkTree h1 (root_ t))
      end
    else Stuck
  | _ => Stuck
  end.

(** ** Insert *)

(** The loop [for (i = size - 1; i > 0; i--)] of [insert]: swap the appended
    entry down while it is smaller than its left neighbour. *)
Fixpoint bubble (i : nat) (ks vs : list Z) : option (list Z * list Z) :=
  match i with
  | O => Some (ks, vs)
  | S j =>
    match ks !! i, ks !! j with
    | Some ki, Some kj =>
      if (ki <? kj)%Z then
        match vs !! i, vs !! j with
        | Some vi, Some vj => bubble j (<[i := kj]> (<[j := ki]> ks)) (<[i := vj]> (<[j := vi]> vs))
        | _, _ => None
        end
      else Some (ks, vs)
    | _, _ => None
    end
  end.

Definition insert_fuel (fuel : nat) (key value : Z) (t : BPlusTree) : outcome :=
  match root_ t with
  | None =>
    Completed (MkTree (store t ++ [BPlusLeafNode [key] [value] None])
                      (Some (length (store t))))
  | Some _ =>
    match findLeaf t key with
    | Some (Some leaf) =>
      match store t !! leaf with
      | Some (BPlusLeafNode ks vs nx) =>
        match scan_key ks key with
        | Some i =>
          if i <? length vs then
            Completed (MkTree (<[leaf := BPlusLeafNode ks (<[i := value]> vs) nx]> (store t))
                              (root_ t))
          else Stuck
        | None =>
          match bubble (length ks) (ks ++ [key]) (vs ++ [value]) with
          | Some (ks', vs') =>
            let t' := MkTree (<[leaf := BPlusLeafNode ks' vs' nx]> (store t)) (root_ t) in
            if kOrder <=? length ks' then splitLeafNode fuel leaf t' else Completed t'
          | None => Stuck
          end
        end
      | _ => Stuck
      end
    | _ => Stuck
    end
  end.

Definition insert (key value : Z) (t : BPlusTree) : outcome :=
  insert_fuel (length (store t)) key value t.

(** A sequence of [insert] calls. *)
Fixpoint insert_all (kvs : list (Z * Z)) (t : BPlusTree) : option BPlusTree :=
  match kvs with
  | [] => Some t
  | (k, v) :: rest =>
    match tree_after (insert k v t) with
    | Some t' => insert_all rest t'
    | None => None
    end
  end.


(** ** The tree a store holds

    The store is read back as a finite tree: every node carries the address
    it lives at.  All invariants are stated on this tree; [rep] ties it to
    the store. *)

#[local] Unset Elimination Schemes.
Inductive tree : Type :=
| Lf (a : addr) (ks vs : list Z) (nx : option addr)
| Nd (a : addr) (ks : list Z) (cs : list tree).

#[local] Set Elimination Schemes.

Section tree_induction.
Variable P : tree → Prop.
Hypothesis Hleaf : ∀ a ks vs nx, P (Lf a ks vs nx).
Hypothesis Hnode : ∀ a ks cs, Forall P cs → P (Nd a ks cs).

Fixpoint tree_nested_ind (t : tree) : P t :=
  match t with
  | Lf a ks vs nx => Hleaf a ks vs nx
  | Nd a ks cs =>
    Hnode a ks cs
      ((fix go (l : list tree) : Forall P l :=
          match l with
          | [] => Forall_nil_2 P
          | c :: l' => Forall_cons_2 P c l' (tree_nested_ind c) (go l')
          end) cs)
  end.
End tree_induction.

Definition taddr (t : tree) : addr :=
  match t with Lf a _ _ _ | Nd a _ _ => a end.

(** The node a tree node is stored as. *)
Definition node_of (t : tree) : BPlusNode :=
  match t with
  | Lf _ ks vs nx => BPlusLeafNode ks vs nx
  | Nd _ ks cs => BPlusInternalNode ks (taddr <$> cs)
  end.

(** All subtrees, in preorder. *)
Fixpoint subtrees (t : tree) : list tree :=
  t :: match t with
       | Lf _ _ _ _ => []
       | Nd _ _ cs => mjoin (subtrees <$> cs)
       end.

Definition addrs (t : tree) : list addr := taddr <$> subtrees t.

Fixpoint height (t : tree) : nat :=
  match t with
  | Lf _ _ _ _ => 0
  | Nd _ _ cs => S (foldr Nat.max 0 (height <$> cs))
  end.

(** The leaves from left to right. *)
Fixpoint leaf_seq (t : tree) : list tree :=
  match t with
  | Lf _ _ _ _ => [t]
  | Nd _ _ cs => mjoin (leaf_seq <$> cs)
  end.

Definition leaf_entries (t : tree) : list (Z * Z) :=
  match t with
  | Lf _ ks vs _ => zip ks vs
  | Nd _ _ _ => []
  end.

Definition leaf_keys (t : tree) : list Z :=
  match t with
  | Lf _ ks _ _ => ks
  | Nd _ _ _ => []
  end.

(** [rep h t]: the store [h] holds every node of [t] at its address. *)
Definition rep (h : list BPlusNode) (t : tree) : Prop :=
  ∀ t', t' ∈ subtrees t → h !! taddr t' = Some (node_of t').

(** ** Contexts

    A frame is an internal node with one child taken out; a context is the
    list of frames from a node up to the root, innermost first.  The splits
    of one [insert] walk such a context upwards. *)

Record frame : Type := Frame {
  fa : addr;
  fks : list Z;
  fl : list tree;
  fr : list tree
}.

Definition fill (f : frame) (t : tree) : tree :=
  Nd (fa f) (fks f) (fl f ++ t :: fr f).

Fixpoint plug (ctx : list frame) (t : tree) : tree :=
  match ctx with
  | [] => t
  | f :: ctx' => plug ctx' (fill f t)
  end.

Definition frame_addrs (f : frame) : list addr :=
  fa f :: mjoin (addrs <$> fl f) ++ mjoin (addrs <$> fr f).

Definition ctx_addrs (ctx : list frame) : list addr := mjoin (frame_addrs <$> ctx).

(** The store holds the frames of [ctx] around a node stored at [x]. *)
Fixpoint rep_ctx (h : list BPlusNode) (ctx : list frame) (x : addr) : Prop :=
  match ctx with
  | [] => True
  | f :: ctx' =>
    h !! fa f = Some (BPlusInternalNode (fks f) ((taddr <$> fl f) ++ x :: (taddr <$> fr f)))
    ∧ Forall (rep h) (fl f) ∧ Forall (rep h) (fr f) ∧ rep_ctx h ctx' (fa f)
  end.

(** Every frame has as many keys as it has children besides the hole. *)
Definition ctx_shape (ctx : list frame) : Prop :=
  Forall (λ f, length (fks f) = length (fl f) + length (fr f)) ctx.

(** ** The invariant *)

Definition lo_le (lo : option Z) (k : Z) : Prop :=
  match lo with Some l => (l ≤ k)%Z | None => True end.

Definition lo_lt (lo : option Z) (k : Z) : Prop :=
  match lo with Some l => (l < k)%Z | None => True end.

Definition lt_hi (k : Z) (hi : option Z) : Prop :=
  match hi with Some u => (k < u)%Z | None => True end.

(** [k] lies in the half-open range [lo, hi). *)
Definition in_range (lo hi : option Z) (k : Z) : Prop := lo_le lo k ∧ lt_hi k hi.

Section children.
Variable P : option Z → option Z → tree → Prop.

(** Child [i] of an internal node with range [lo, hi) has the range from
    key [i-1] (or [lo]) to key [i] (or [hi]); the keys ascend strictly
    inside (lo, hi). *)
Fixpoint wf_children (lo hi : option Z) (ks : list Z) (cs : list tree) {struct cs} : Prop :=
  match cs, ks with
  | [c], [] => P lo hi c
  | c :: cs', k :: ks' =>
    P lo (Some k) c ∧ lo_lt lo k ∧ lt_hi k hi ∧ wf_children (Some k) hi ks' cs'
  | _, _ => False
  end.
End children.

(** A well-formed subtree for the key range [lo, hi): no node has more than
    [kOrder - 1] keys, leaves are strictly ascending with one value per key,
    and every key sits in the range its position gives it. *)
Fixpoint wf (lo hi : option Z) (t : tree) : Prop :=
  match t with
  | Lf _ ks vs _ =>
    length vs = length ks ∧ length ks < kOrder
    ∧ StronglySorted Z.lt ks ∧ Forall (in_range lo hi) ks
  | Nd _ ks cs => length ks < kOrder ∧ wf_children wf lo hi ks cs
  end.

(** The (key, value) pairs and the keys of a tree, from left to right. *)
Definition entries (t : tree) : list (Z * Z) := mjoin (leaf_entries <$> leaf_seq t).

Definition keys (t : tree) : list Z := mjoin (leaf_keys <$> leaf_seq t).

(** The value of the first pair with key [key]. *)
Fixpoint assoc (key : Z) (l : list (Z * Z)) : option Z :=
  match l with
  | [] => None
  | (k, v) :: l' => if (k =? key)%Z then Some v else assoc key l'
  end.

Definition next_of (t : tree) : option addr :=
  match t with
  | Lf _ _ _ nx => nx
  | Nd _ _ _ => None
  end.

(** The [next_] links chain the leaves [ls] in this order and end in [last]. *)
Fixpoint linked (ls : list tree) (last : option addr) : Prop :=
  match ls with
  | [] => True
  | l :: rest =>
    next_of l = match rest with [] => last | l' :: _ => Some (taddr l') end
    ∧ linked rest last
  end.

(** [findLeaf] for [key] descends along [ctx]. *)
Definition on_path (key : Z) (ctx : list frame) : Prop :=
  Forall (λ f, length (fl f) = findLeaf_index (fks f) key) ctx.

(** The two halves of an internal node split at [length ks / 2], the right
    half stored at [n], and the key that moves up. *)
Definition split_left (a : addr) (ks : list Z) (cs : list tree) : tree :=
  Nd a (take (length ks / 2) ks) (take (length ks / 2 + 1) cs).

Definition split_right (n : addr) (ks : list Z) (cs : list tree) : tree :=
  Nd n (drop (length ks / 2 + 1) ks) (drop (length ks / 2 + 1) cs).

Definition split_key (ks : list Z) : Z := default 0%Z (ks !! (length ks / 2)).

(** The two halves of a leaf split at [length ks / 2]. *)
Definition leaf_left (a : addr) (ks vs : list Z) (n : addr) : tree :=
  Lf a (take (length ks / 2) ks) (take (length ks / 2) vs) (Some n).

Definition leaf_right (n : addr) (ks vs : list Z) (nx : option addr) : tree :=
  Lf n (drop (length ks / 2) ks) (drop (length ks / 2) vs) nx.

Definition leaf_key (ks : list Z) : Z := default 0%Z (head (drop (length ks / 2) ks)).

(** The tree after the halves [L] and [R] of a split node, with separator
    [up], have been handed to the context of the node; [n] is the next free
    address. *)
Fixpoint promote (ctx : list frame) (L : tree) (up : Z) (R : tree) (n : addr) : tree :=
  match ctx with
  | [] => Nd n [up] [L; R]
  | f :: ctx' =>
    let ks' := vector_insert (length (fl f)) up (fks f) in
    let cs' := fl f ++ L :: R :: fr f in
    if kOrder <=? length ks' then
      promote ctx' (split_left (fa f) ks' cs') (split_key ks') (split_right n ks' cs') (S n)
    else plug ctx' (Nd (fa f) ks' cs')
  end.

(** The tree a store holds, with all its invariants. *)
Definition tree_inv (s : BPlusTree) (T : tree) : Prop :=
  root_ s = Some (taddr T)
  ∧ rep (store s) T
  ∧ NoDup (addrs T)
  ∧ wf None None T
  ∧ linked (leaf_seq T) None.

(** The address of the root of [plug ctx t] when [t] lives at [x]. *)
Fixpoint ctx_root (ctx : list frame) (x : addr) : addr :=
  match ctx with
  | [] => x
  | f :: ctx' => ctx_root ctx' (fa f)
  end.

(** What [splitInternalNode] does to an internal node in the hole of [ctx]:
    the store it leaves holds the promoted tree. *)
Definition split_ok (fuel : nat) (ctx : list frame) : Prop :=
  ∀ h a ks cs,
    rep h (plug ctx (Nd a ks cs)) →
    NoDup (addrs (plug ctx (Nd a ks cs))) →
    ctx_shape ctx →
    length cs = S (length ks) →
    0 < length ks →
    ∃ h',
      splitInternalNode fuel a (MkTree h (Some (taddr (plug ctx (Nd a ks cs)))))
      = Completed (MkTree h' (Some (taddr
          (promote ctx (split_left a ks cs) (split_key ks)
                   (split_right (length h) ks cs) (S (length h))))))
      ∧ rep h'
          (promote ctx (split_left a ks cs) (split_key ks)
                   (split_right (length h) ks cs) (S (length h))).

(** The leaves to the left and to the right of the hole of a context. *)
Fixpoint ctx_before (ctx : list frame) : list tree :=
  match ctx with
  | [] => []
  | f :: ctx' => ctx_before ctx' ++ mjoin (leaf_seq <$> fl f)
  end.

Fixpoint ctx_after (ctx : list frame) : list tree :=
  match ctx with
  | [] => []
  | f :: ctx' => mjoin (leaf_seq <$> fr f) ++ ctx_after ctx'
  end.

Definition head_addr (ls : list tree) (last : option addr) : option addr :=
  match ls with
  | [] => last
  | l :: _ => Some (taddr l)
  end.

Definition entries_of (ls : list tree) : list (Z * Z) := mjoin (leaf_entries <$> ls).

Definition keys_of (ls : list tree) : list Z := mjoin (leaf_keys <$> ls).

(** ** Notions the properties are stated with *)

(** A tree is reachable when some sequence of [insert] calls on the empty
    tree leaves it. *)
Definition reachable (t : BPlusTree) : Prop :=
  ∃ kvs, insert_all kvs empty_tree = Some t.

(** The value of the most recent pair with key [k] in a sequence of calls. *)
Definition last_insert (k : Z) (kvs : list (Z * Z)) : option Z := assoc k (reverse kvs).

(** [reaches h a b]: node [b] is found from node [a] along child pointers. *)
Inductive reaches (h : list BPlusNode) : addr → addr → Prop :=
| reaches_refl a : reaches h a a
| reaches_child a ks cs c b :
    h !! a = Some (BPlusInternalNode ks cs) → c ∈ cs → reaches h c b → reaches h a b.

(** The nodes of the tree: those found from the root. *)
Definition in_tree (t : BPlusTree) (a : addr) : Prop :=
  ∃ r, root_ t = Some r ∧ reaches (store t) r a.

Definition node_keys (n : BPlusNode) : list Z :=
  match n with
  | BPlusLeafNode ks _ _ => ks
  | BPlusInternalNode ks _ => ks
  end.

(** Entry [i] of leaf [leaf] of the tree is the pair [(k, v)]. *)
Definition leaf_entry (t : BPlusTree) (leaf : addr) (i : nat) (k v : Z) : Prop :=
  in_tree t leaf
  ∧ ∃ ks vs nx, store t !! leaf = Some (BPlusLeafNode ks vs nx)
                ∧ ks !! i = Some k ∧ vs !! i = Some v.

(** Key [k] is stored in a leaf of the tree. *)
Definition stored (t : BPlusTree) (k : Z) : Prop :=
  ∃ leaf ks vs nx,
    in_tree t leaf ∧ store t !! leaf = Some (BPlusLeafNode ks vs nx) ∧ k ∈ ks.

(** [i] is the index of the child whose range holds [key]: key [i-1], if
    any, is at most [key] and key [i], if any, is greater. *)
Definition range_index (ks : list Z) (key : Z) (i : nat) : Prop :=
  i ≤ length ks
  ∧ (∀ k0, ks !! i = Some k0 → (key < k0)%Z)
  ∧ (∀ j k0, i = S j → ks !! j = Some k0 → (k0 ≤ key)%Z).

(** [covers h key a b]: the ranges of the nodes from [a] down to [b] all
    hold [key]. *)
Inductive covers (h : list BPlusNode) (key : Z) : addr → addr → Prop :=
| covers_refl a : covers h key a a
| covers_child a ks cs i c b :
    h !! a = Some (BPlusInternalNode ks cs) →
    range_index ks key i → cs !! i = Some c →
    covers h key c b → covers h key a b.

Definition is_leaf (h : list BPlusNode) (a : addr) : Prop :=
  ∃ ks vs nx, h !! a = Some (BPlusLeafNode ks vs nx).

(** The leftmost leaf below a node: always the first child. *)
Fixpoint leftmost_loop (fuel : nat) (h : list BPlusNode) (a : addr) : option addr :=
  match h !! a with
  | None => None
  | Some (BPlusLeafNode _ _ _) => Some a
  | Some (BPlusInternalNode _ cs) =>
    match fuel, cs with
    | S fuel', c :: _ => leftmost_loop fuel' h c
    | _, _ => None
    end
  end.

(** The keys met when walking the [next_] links from [cur] to the end. *)
Fixpoint chain_keys (fuel : nat) (h : list BPlusNode) (cur : option addr) : option (list Z) :=
  match cur with
  | None => Some []
  | Some a =>
    match fuel, h !! a with
    | S fuel', Some (BPlusLeafNode ks _ nx) =>
      match chain_keys fuel' h nx with
      | Some rest => Some (ks ++ rest)
      | None => None
      end
    | _, _ => None
    end
  end.

(** The walk over all leaves, from the leftmost one. *)
Definition walk (t : BPlusTree) : option (list Z) :=
  match root_ t with
  | None => Some []
  | Some r =>
    match leftmost_loop (length (store t)) (store t) r with
    | Some l => chain_keys (length (store t)) (store t) (Some l)
    | None => None
    end
  end.

(** The keys of any node of a subtree. *)
Definition tkeys (t : tree) : list Z :=
  match t with
  | Lf _ ks _ _ => ks
  | Nd _ ks _ => ks
  end.

(** The state invariant: the tree is empty, or its store holds a
    well-formed tree. *)
Definition inv (t : BPlusTree) : Prop :=
  t = empty_tree ∨ ∃ T, tree_inv t T.

(** The result of [search], when it has one. *)
Definition found (k : Z) (t : BPlusTree) : option Z :=
  match search k t with
  | Some (r, _) => r
  | None => None
  end.

(** Node [p] of the tree is internal and has [a] among its children. *)
Definition holds_child (t : BPlusTree) (p a : addr) : Prop :=
  in_tree t p ∧ ∃ ks cs, store t !! p = Some (BPlusInternalNode ks cs) ∧ a ∈ cs.

(** The root is an internal node with an internal child: three levels at
    least. *)
Definition three_levels (t : BPlusTree) : Prop :=
  ∃ r ks cs c cks ccs,
    root_ t = Some r
    ∧ store t !! r = Some (BPlusInternalNode ks cs)
    ∧ c ∈ cs
    ∧ store t !! c = Some (BPlusInternalNode cks ccs).

(** The root is an internal node and all its children are leaves: exactly
    two levels. *)
Definition two_levels (t : BPlusTree) : Prop :=
  ∃ r ks cs,
    root_ t = Some r
    ∧ store t !! r = Some (BPlusInternalNode ks cs)
    ∧ Forall (is_leaf (store t)) cs.

(** The nine calls of [main]. *)
Definition demo_inserts : list (Z * Z) :=
  [(10, 100); (20, 200); (5, 50); (6, 60); (15, 150);
   (25, 250); (2, 20); (16, 160); (18, 180)]%Z.

(** The tree they leave. *)
Definition demo_tree : BPlusTree :=
  MkTree
    [BPlusLeafNode [2; 5; 6]%Z [20; 50; 60]%Z (Some 1);
     BPlusLeafNode [10; 15]%Z [100; 150]%Z (Some 4);
     BPlusInternalNode [10; 16; 20]%Z [0; 1; 4; 3];
     BPlusLeafNode [20; 25]%Z [200; 250]%Z None;
     BPlusLeafNode [16; 18]%Z [160; 180]%Z (Some 3)]
    (Some 2).

(** The store in the middle of [insert 3 30] on that tree: the leaf 2, 3, 5,
    6 has been split in two and the root does not know the new leaf yet. *)
Definition demo_split_tree : BPlusTree :=
  MkTree
    [BPlusLeafNode [2; 3]%Z [20; 30]%Z (Some 5);
     BPlusLeafNode [10; 15]%Z [100; 150]%Z (Some 4);
     BPlusInternalNode [10; 16; 20]%Z [0; 1; 4; 3];
     BPlusLeafNode [20; 25]%Z [200; 250]%Z None;
     BPlusLeafNode [16; 18]%Z [160; 180]%Z (Some 3);
     BPlusLeafNode [5; 6]%Z [50; 60]%Z (Some 1)]
    (Some 2).

(** The store in the middle of [insert 6 60] on the leaf 5, 10, 20: the
    fourth entry is in, the split is about to happen. *)
Definition full_leaf_tree : BPlusTree :=
  MkTree [BPlusLeafNode [5; 6; 10; 20]%Z [50; 60; 100; 200]%Z None] (Some 0).

(** A root with four keys over five leaves, about to be split. *)
Definition full_root_tree : BPlusTree :=
  MkTree
    [BPlusLeafNode [1; 2]%Z [10; 20]%Z (Some 1);
     BPlusLeafNode [3; 4]%Z [30; 40]%Z (Some 2);
     BPlusLeafNode [5; 6]%Z [50; 60]%Z (Some 3);
     BPlusLeafNode [7; 8]%Z [70; 80]%Z (Some 4);
     BPlusLeafNode [9; 10]%Z [90; 100]%Z None;
     BPlusInternalNode [3; 5; 7; 9]%Z [0; 1; 2; 3; 4]]
    (Some 5).

(** ** The calls of one insert

    [insert] ends in a call of [splitLeafNode] when the leaf has become
    full.  A split of a node that is not the root ends in a call of
    [insertInternalNode] (from a leaf) or [insertInternalUpKey] (from an
    internal node), and that one ends in a call of [splitInternalNode] when
    the parent has become full. *)
Inductive call : Type :=
| SplitLeaf (fuel : nat) (leaf : addr) (t : BPlusTree)
| IntoParent (fuel : nat) (key : Z) (leftChild rightChild : addr) (t : BPlusTree)
| SplitInternal (fuel : nat) (internalNode : addr) (t : BPlusTree).

Definition run (c : call) : outcome :=
  match c with
  | SplitLeaf fuel leaf t => splitLeafNode fuel leaf t
  | IntoParent fuel key leftChild rightChild t =>
    insertIntoParent (splitInternalNode fuel) key leftChild rightChild t
  | SplitInternal fuel internalNode t => splitInternalNode fuel internalNode t
  end.

(** [calls c c']: the call [c] gets as far as making the call [c']. *)
Inductive calls : call → call → Prop :=
| calls_from_leaf fuel leaf t ks vs nx newKey rest :
    store t !! leaf = Some (BPlusLeafNode ks vs nx) →
    length ks / 2 ≤ length vs →
    drop (length ks / 2) ks = newKey :: rest →
    root_ t ≠ Some leaf →
    calls (SplitLeaf fuel leaf t)
          (IntoParent fuel newKey leaf (length (store t))
             (MkTree (leaf_split_store (store t) leaf ks vs nx) (root_ t)))
| calls_from_internal fuel internalNode t ks cs upKey :
    store t !! internalNode = Some (BPlusInternalNode ks cs) →
    ks !! (length ks / 2) = Some upKey →
    length ks / 2 + 1 ≤ length cs →
    root_ t ≠ Some internalNode →
    calls (SplitInternal (S fuel) internalNode t)
          (IntoParent fuel upKey internalNode (length (store t))
             (MkTree (internal_split_store (store t) internalNode ks cs) (root_ t)))
| calls_split_parent fuel key leftChild rightChild t parent ks cs :
    findParent t leftChild = Some (Some parent) →
    store t !! parent = Some (BPlusInternalNode ks cs) →
    child_position cs leftChild ≤ length ks →
    child_position cs leftChild + 1 ≤ length cs →
    kOrder ≤ length (vector_insert (child_position cs leftChild) key ks) →
    calls (IntoParent fuel key leftChild rightChild t)
          (SplitInternal fuel parent
             (MkTree (<[parent := BPlusInternalNode
                                    (vector_insert (child_position cs leftChild) key ks)
                                    (vector_insert (child_position cs leftChild + 1)
                                                   rightChild cs)]> (store t))
                     (root_ t))).

(** The call of [splitLeafNode] that [insert key value] makes on [t]. *)
Inductive insert_calls (key value : Z) (t : BPlusTree) : call → Prop :=
| insert_calls_split leaf ks vs nx ks' vs' :
    is_Some (root_ t) →
    findLeaf t key = Some (Some leaf) →
    store t !! leaf = Some (BPlusLeafNode ks vs nx) →
    scan_key ks key = None →
    bubble (length ks) (ks ++ [key]) (vs ++ [value]) = Some (ks', vs') →
    kOrder ≤ length ks' →
    insert_calls key value t
      (SplitLeaf (length (store t)) leaf
         (MkTree (<[leaf := BPlusLeafNode ks' vs' nx]> (store t)) (root_ t))).

(** The calls made, directly or not, in the course of [insert key value]
    on [t]. *)
Inductive during_insert (key value : Z) (t : BPlusTree) : call → Prop :=
| during_first c : insert_calls key value t c → during_insert key value t c
| during_next c c' : during_insert key value t c → calls c c' → during_insert key value t c'.

(** What holds of the store at each call: it holds a tree with the node
    that is split in its hole, or, when the two halves are to be put into
    the parent, with the left half in its hole and the right half beside
    it. *)
Definition call_ok (c : call) : Prop :=
  match c with
  | SplitLeaf _ leaf s =>
    ∃ ctx ks vs nx,
      root_ s = Some (taddr (plug ctx (Lf leaf ks vs nx)))
      ∧ rep (store s) (plug ctx (Lf leaf ks vs nx))
      ∧ NoDup (addrs (plug ctx (Lf leaf ks vs nx)))
  | SplitInternal _ x s =>
    ∃ ctx ks cs,
      root_ s = Some (taddr (plug ctx (Nd x ks cs)))
      ∧ rep (store s) (plug ctx (Nd x ks cs))
      ∧ NoDup (addrs (plug ctx (Nd x ks cs)))
  | IntoParent _ _ l r s =>
    ∃ f ctx L R,
      l = taddr L ∧ r = taddr R
      ∧ root_ s = Some (taddr (plug (f :: ctx) L))
      ∧ rep (store s) (plug (f :: ctx) L)
      ∧ rep (store s) R
      ∧ NoDup (addrs (plug (f :: ctx) L) ++ addrs R)
  end.

(** ** Balance and occupancy

    Splits are the only way the tree grows, and a split leaves both halves
    at the level of the node that was split: all leaves stay at one depth,
    and no node below the root is ever left with fewer keys than a split
    gives it. *)

Section all_children.
Variable P : tree → Prop.

Fixpoint all_children (cs : list tree) : Prop :=
  match cs with
  | [] => True
  | c :: cs' => P c ∧ all_children cs'
  end.
End all_children.

(** [full m d t]: all leaves of [t] are [d] levels below its root, every
    internal node has a key, every leaf below the root has two keys at
    least, and [t] itself has [m] keys at least if it is a leaf. *)
Fixpoint full (m d : nat) (t : tree) {struct t} : Prop :=
  match t with
  | Lf _ ks _ _ => d = 0 ∧ m ≤ length ks
  | Nd _ ks cs =>
    1 ≤ length ks
    ∧ match d with
      | O => False
      | S d' => all_children (full 2 d') cs
      end
  end.

(** [tight lo hi t]: [t] is well-formed for the range [lo, hi), and every
    lower bound that is a key is met: the first key of a leaf is the bound
    the leaf got from the separator to its left.  A split copies the first
    key of the right half up, and nothing is ever removed, so a separator
    stays the smallest key of what is to its right. *)
Fixpoint tight (lo hi : option Z) (t : tree) {struct t} : Prop :=
  match t with
  | Lf _ ks vs _ =>
    length vs = length ks
    ∧ StronglySorted Z.lt ks ∧ Forall (in_range lo hi) ks
    ∧ ∀ l, lo = Some l → head ks = Some l
  | Nd _ ks cs => wf_children tight lo hi ks cs
  end.

(** The invariant of the claims, with balance, occupancy, tight separators,
    and a store that holds the nodes of the tree and nothing else. *)
Definition tree_inv_full (s : BPlusTree) (T : tree) (d : nat) : Prop :=
  tree_inv s T ∧ full 1 d T ∧ tight None None T
  ∧ length (store s) = length (addrs T).

(** [descends h n a b]: node [b] is found from node [a] in [n] steps along
    child pointers. *)
Inductive descends (h : list BPlusNode) : nat → addr → addr → Prop :=
| descends_here a : descends h 0 a a
| descends_child n a ks cs c b :
    h !! a = Some (BPlusInternalNode ks cs) → c ∈ cs → descends h n c b →
    descends h (S n) a b.

(** The tree has a leaf [d] steps below its root. *)
Definition levels (t : BPlusTree) (d : nat) : Prop :=
  ∃ r leaf, root_ t = Some r ∧ is_leaf (store t) leaf ∧ descends (store t) d r leaf.

(** What a cascade started by [splitInternalNode] on the node in the hole
    of [ctx] does to the store: the store grows by the nodes the promoted
    tree has more, and no old node besides the split one and the frames of
    [ctx] is written. *)
Definition split_effect (fuel : nat) (ctx : list frame) : Prop :=
  ∀ h a ks cs t',
    rep h (plug ctx (Nd a ks cs)) →
    NoDup (addrs (plug ctx (Nd a ks cs))) →
    splitInternalNode fuel a (MkTree h (Some (taddr (plug ctx (Nd a ks cs))))) = Completed t' →
    length h ≤ length (store t')
    ∧ length (store t') + length (addrs (plug ctx (Nd a ks cs)))
      = length h + length (addrs (promote ctx (split_left a ks cs) (split_key ks)
                                       (split_right (length h) ks cs) (S (length h))))
    ∧ ∀ x, x < length h → x ≠ a → x ∉ fa <$> ctx → store t' !! x = h !! x.

(** What holds of the store at each call, with the shape of the path: every
    frame above the node has as many keys as it has children besides the
    hole, and a node that is to be split has one child more than keys. *)
Definition call_shaped (c : call) : Prop :=
  match c with
  | SplitLeaf _ leaf s =>
    ∃ ctx ks vs nx,
      root_ s = Some (taddr (plug ctx (Lf leaf ks vs nx)))
      ∧ rep (store s) (plug ctx (Lf leaf ks vs nx))
      ∧ NoDup (addrs (plug ctx (Lf leaf ks vs nx)))
      ∧ ctx_shape ctx
  | SplitInternal _ x s =>
    ∃ ctx ks cs,
      root_ s = Some (taddr (plug ctx (Nd x ks cs)))
      ∧ rep (store s) (plug ctx (Nd x ks cs))
      ∧ NoDup (addrs (plug ctx (Nd x ks cs)))
      ∧ ctx_shape ctx
      ∧ length cs = S (length ks)
  | IntoParent _ _ l r s =>
    ∃ f ctx L R,
      l = taddr L ∧ r = taddr R
      ∧ root_ s = Some (taddr (plug (f :: ctx) L))
      ∧ rep (store s) (plug (f :: ctx) L)
      ∧ rep (store s) R
      ∧ NoDup (addrs (plug (f :: ctx) L) ++ addrs R)
      ∧ ctx_shape (f :: ctx)
  end.

(** Fifteen inserts in ascending order, and the three-level tree they
    leave. *)
Definition deep_inserts : list (Z * Z) :=
  [(1, 10); (2, 20); (3, 30); (4, 40); (5, 50); (6, 60); (7, 70); (8, 80);
   (9, 90); (10, 100); (11, 110); (12, 120); (13, 130); (14, 140); (15, 150)]%Z.

Definition deep_tree : BPlusTree :=
  MkTree
    [BPlusLeafNode [1; 2]%Z [10; 20]%Z (Some 1);
     BPlusLeafNode [3; 4]%Z [30; 40]%Z (Some 3);
     BPlusInternalNode [3; 5]%Z [0; 1; 3];
     BPlusLeafNode [5; 6]%Z [50; 60]%Z (Some 4);
     BPlusLeafNode [7; 8]%Z [70; 80]%Z (Some 5);
     BPlusLeafNode [9; 10]%Z [90; 100]%Z (Some 8);
     BPlusInternalNode [9; 11; 13]%Z [4; 5; 8; 9];
     BPlusInternalNode [7]%Z [2; 6];
     BPlusLeafNode [11; 12]%Z [110; 120]%Z (Some 9);
     BPlusLeafNode [13; 14; 15]%Z [130; 140; 150]%Z None]
    (Some 7).

(** The store in the middle of [insert 16 160] on that tree: the last leaf
    has been split, its parent, node 6, has got the fourth key and the fifth
    child, and is about to be split; it is not the root. *)
Definition deep_split_tree : BPlusTree :=
  MkTree
    [BPlusLeafNode [1; 2]%Z [10; 20]%Z (Some 1);
     BPlusLeafNode [3; 4]%Z [30; 40]%Z (Some 3);
     BPlusInternalNode [3; 5]%Z [0; 1; 3];
     BPlusLeafNode [5; 6]%Z [50; 60]%Z (Some 4);
     BPlusLeafNode [7; 8]%Z [70; 80]%Z (Some 5);
     BPlusLeafNode [9; 10]%Z [90; 100]%Z (Some 8);
     BPlusInternalNode [9; 11; 13; 15]%Z [4; 5; 8; 9; 10];
     BPlusInternalNode [7]%Z [2; 6];
     BPlusLeafNode [11; 12]%Z [110; 120]%Z (Some 9);
     BPlusLeafNode [13; 14]%Z [130; 140]%Z (Some 10);
     BPlusLeafNode [15; 16]%Z [150; 160]%Z None]
    (Some 7).

(* ================================================================== *)
(** * Verification *)

(** ** Basic facts about trees, contexts and the store *)

Lemma plug_app ctx1 ctx2 t : plug (ctx1 ++ ctx2) t = plug ctx2 (plug ctx1 t).
Proof. revert t. induction ctx1 as [|f ctx1 IH]; intros t; simpl; [done|apply IH]. Qed.

Lemma taddr_plug ctx t t' : taddr t = taddr t' → taddr (plug ctx t) = taddr (plug ctx t').
Proof.
  revert t t'. induction ctx as [|f ctx IH]; intros t t' Ht; simpl; [done|].
  by apply IH.
Qed.

Lemma subtrees_self t : t ∈ subtrees t.
Proof. destruct t; simpl; apply list_elem_of_here. Qed.

Lemma taddr_in_addrs t : taddr t ∈ addrs t.
Proof. unfold addrs. apply list_elem_of_fmap_2, subtrees_self. Qed.

Lemma addrs_Nd a ks cs : addrs (Nd a ks cs) = a :: mjoin (addrs <$> cs).
Proof.
  unfold addrs. simpl. f_equal.
  induction cs as [|c cs IH]; csimpl; [done|].
  rewrite fmap_app. by f_equal.
Qed.

Lemma addrs_Lf a ks vs nx : addrs (Lf a ks vs nx) = [a].
Proof. done. Qed.

Lemma addrs_fill f t :
  addrs (fill f t) ≡ₚ addrs t ++ frame_addrs f.
Proof.
  unfold fill, frame_addrs. rewrite addrs_Nd, fmap_app, join_app. csimpl.
  solve_Permutation.
Qed.

Lemma ctx_addrs_cons f ctx : ctx_addrs (f :: ctx) = frame_addrs f ++ ctx_addrs ctx.
Proof. done. Qed.

Lemma addrs_plug ctx t : addrs (plug ctx t) ≡ₚ addrs t ++ ctx_addrs ctx.
Proof.
  revert t. induction ctx as [|f ctx IH]; intros t; simpl.
  - unfold ctx_addrs. simpl. by rewrite (right_id_L [] (++)).
  - rewrite IH, addrs_fill, ctx_addrs_cons. by rewrite <- (assoc_L (++)).
Qed.

Lemma rep_Nd h a ks cs :
  rep h (Nd a ks cs) ↔ h !! a = Some (BPlusInternalNode ks (taddr <$> cs)) ∧ Forall (rep h) cs.
Proof.
  unfold rep. simpl. split.
  - intros H. split; [apply (H (Nd a ks cs)), list_elem_of_here|].
    apply Forall_forall. intros c Hc t' Ht'. apply H, list_elem_of_further.
    apply list_elem_of_join. exists (subtrees c). split; [done|].
    by apply list_elem_of_fmap_2.
  - intros [Ha Hcs] t' Ht'. apply elem_of_cons in Ht' as [->|Ht']; [done|].
    apply list_elem_of_join in Ht' as (l & Ht' & Hl).
    apply list_elem_of_fmap in Hl as (c & -> & Hc).
    rewrite Forall_forall in Hcs. by apply (Hcs c).
Qed.

Lemma rep_Lf h a ks vs nx :
  rep h (Lf a ks vs nx) ↔ h !! a = Some (BPlusLeafNode ks vs nx).
Proof.
  unfold rep. simpl. split.
  - intros H. apply (H (Lf a ks vs nx)), list_elem_of_here.
  - intros H t' Ht'. by apply list_elem_of_singleton in Ht' as ->.
Qed.

Lemma rep_root h t : rep h t → h !! taddr t = Some (node_of t).
Proof. intros H. apply H, subtrees_self. Qed.

Lemma rep_addrs h t a : rep h t → a ∈ addrs t → a < length h.
Proof.
  intros H Ha. apply list_elem_of_fmap in Ha as (t' & -> & Ht').
  eapply lookup_lt_Some, H, Ht'.
Qed.

Lemma rep_fill h f t :
  rep h (fill f t) ↔ rep h t ∧ rep_ctx h [f] (taddr t).
Proof.
  unfold fill. rewrite rep_Nd. simpl. rewrite fmap_app, Forall_app, Forall_cons. simpl.
  naive_solver.
Qed.

Lemma rep_plug h ctx t :
  rep h (plug ctx t) ↔ rep h t ∧ rep_ctx h ctx (taddr t).
Proof.
  revert t. induction ctx as [|f ctx IH]; intros t; simpl; [naive_solver|].
  rewrite IH, rep_fill. simpl. naive_solver.
Qed.

Lemma rep_insert_other h t a n : rep h t → a ∉ addrs t → rep (<[a := n]> h) t.
Proof.
  intros H Ha t' Ht'. rewrite list_lookup_insert_ne; [by apply H|].
  intros ->. apply Ha. by apply list_elem_of_fmap_2.
Qed.

Lemma rep_app h t l : rep h t → rep (h ++ l) t.
Proof. intros H t' Ht'. apply lookup_app_l_Some, H, Ht'. Qed.

Lemma Forall_rep_insert_other h ts a n :
  Forall (rep h) ts → a ∉ mjoin (addrs <$> ts) → Forall (rep (<[a := n]> h)) ts.
Proof.
  intros H Ha. apply Forall_forall. intros t Ht. rewrite Forall_forall in H.
  apply rep_insert_other; [by apply H|].
  intros Hin. apply Ha, list_elem_of_join. exists (addrs t). split; [done|].
  by apply list_elem_of_fmap_2.
Qed.

Lemma rep_ctx_insert_other h ctx x a n :
  rep_ctx h ctx x → a ∉ ctx_addrs ctx → rep_ctx (<[a := n]> h) ctx x.
Proof.
  revert x. induction ctx as [|f ctx IH]; intros x; simpl; [done|].
  rewrite ctx_addrs_cons. unfold frame_addrs.
  rewrite not_elem_of_app, not_elem_of_cons, not_elem_of_app.
  intros (Hf & Hl & Hr & Hc) ((Hne & Hal & Har) & Hctx).
  split_and!.
  - by rewrite list_lookup_insert_ne.
  - by apply Forall_rep_insert_other.
  - by apply Forall_rep_insert_other.
  - by apply IH.
Qed.

Lemma rep_ctx_app h ctx x l : rep_ctx h ctx x → rep_ctx (h ++ l) ctx x.
Proof.
  revert x. induction ctx as [|f ctx IH]; intros x; simpl; [done|].
  intros (Hf & Hl & Hr & Hc). split_and!.
  - by apply lookup_app_l_Some.
  - eapply Forall_impl; [done|]. intros; by apply rep_app.
  - eapply Forall_impl; [done|]. intros; by apply rep_app.
  - by apply IH.
Qed.

Lemma taddr_plug_root ctx t : taddr (plug ctx t) = ctx_root ctx (taddr t).
Proof. revert t. induction ctx as [|f ctx IH]; intros t; simpl; [done|by rewrite IH]. Qed.

Lemma ctx_root_in f ctx x : ctx_root (f :: ctx) x ∈ ctx_addrs (f :: ctx).
Proof.
  revert f x. induction ctx as [|g ctx IH]; intros f x.
  - simpl. rewrite ctx_addrs_cons. apply elem_of_app. left. apply list_elem_of_here.
  - change (ctx_root (f :: g :: ctx) x) with (ctx_root (g :: ctx) (fa f)).
    rewrite ctx_addrs_cons. apply elem_of_app. right. apply IH.
Qed.

Lemma plug_Nd ctx a ks cs : ∃ a' ks' cs', plug ctx (Nd a ks cs) = Nd a' ks' cs'.
Proof.
  revert a ks cs. induction ctx as [|f ctx IH]; intros a ks cs; simpl; [by eauto|].
  apply IH.
Qed.

Lemma height_child c cs : c ∈ cs → height c ≤ foldr Nat.max 0 (height <$> cs).
Proof.
  induction cs as [|d cs IH]; intros Hc; [by apply elem_of_nil in Hc|].
  apply elem_of_cons in Hc as [->|Hc]; csimpl; [lia|]. specialize (IH Hc). lia.
Qed.

Lemma height_fill f t : S (height t) ≤ height (fill f t).
Proof.
  unfold fill. simpl. apply le_n_S, height_child.
  apply elem_of_app. right. apply list_elem_of_here.
Qed.

Lemma addrs_child c cs a : c ∈ cs → a ∈ addrs c → a ∈ mjoin (addrs <$> cs).
Proof.
  intros Hc Ha. apply list_elem_of_join. exists (addrs c). split; [done|].
  by apply list_elem_of_fmap_2.
Qed.

(** ** Parent lookup *)

Lemma findParent_scan_skip h rec cur x pre rest :
  Forall (λ c, taddr c ≠ x ∧ h !! taddr c = Some (node_of c) ∧ rec (taddr c) = Some None) pre →
  findParent_scan h rec cur x ((taddr <$> pre) ++ rest) = findParent_scan h rec cur x rest.
Proof.
  induction 1 as [|c pre (Hne & Hc & Hrec) _ IH]; [done|].
  csimpl. rewrite decide_False by done. rewrite Hc, Hrec.
  by destruct (node_of c).
Qed.

(** A lookup for an address that is not in the tree comes back empty. *)
Lemma findParent_absent h x t :
  ∀ fuel, rep h t → height t ≤ fuel → x ∉ addrs t →
  findParent_rec fuel h (Some (taddr t)) x = Some None.
Proof.
  induction t as [a ks vs nx|a ks cs IH] using tree_nested_ind; intros fuel Hrep Hh Hx.
  - apply rep_Lf in Hrep. destruct fuel; simpl; by rewrite Hrep.
  - apply rep_Nd in Hrep as [Ha Hcs]. simpl in Hh.
    destruct fuel as [|fuel]; [lia|]. simpl. rewrite Ha.
    rewrite <- (app_nil_r (taddr <$> cs)). rewrite findParent_scan_skip; [done|].
    rewrite addrs_Nd in Hx. apply not_elem_of_cons in Hx as [Hxa Hx].
    rewrite Forall_forall in IH, Hcs. apply Forall_forall. intros c Hc.
    assert (x ∉ addrs c) as Hxc by (intros ?; apply Hx; by eapply addrs_child).
    split_and!.
    + intros <-. apply Hxc, taddr_in_addrs.
    + by apply rep_root, Hcs.
    + apply IH; [done|by apply Hcs| |done].
      pose proof (height_child c cs Hc). lia.
Qed.

(** The parent of the node in the hole of a context is its innermost frame. *)
Lemma findParent_plug h ctx :
  ∀ f t fuel,
  rep h (plug (f :: ctx) t) → NoDup (addrs (plug (f :: ctx) t)) →
  height (plug (f :: ctx) t) ≤ fuel →
  findParent_rec fuel h (Some (taddr (plug (f :: ctx) t))) (taddr t) = Some (Some (fa f)).
Proof.
  induction ctx as [|g ctx IH] using rev_ind; intros f t fuel Hrep Hnd Hh.
  - simpl in *. pose proof (height_fill f t) as Hhf. unfold fill in Hhf. simpl in Hhf.
    destruct fuel as [|fuel]; [lia|].
    rewrite addrs_fill in Hnd. apply NoDup_app in Hnd as (_ & Hdisj & _).
    apply rep_fill in Hrep as [Ht (Hf & Hl & _)]. simpl. rewrite Hf.
    rewrite findParent_scan_skip.
    + simpl. by rewrite decide_True.
    + rewrite Forall_forall in Hl. apply Forall_forall. intros c Hc.
      assert (taddr t ∉ addrs c) as Hxc.
      { intros Hin. apply (Hdisj (taddr t)); [apply taddr_in_addrs|].
        unfold frame_addrs. apply list_elem_of_further, elem_of_app. left.
        by eapply addrs_child. }
      split_and!.
      * intros Heq. apply Hxc. rewrite <- Heq. apply taddr_in_addrs.
      * by apply rep_root, Hl.
      * apply findParent_absent; [by apply Hl| |done].
        assert (c ∈ fl f ++ t :: fr f) as Hc' by (apply elem_of_app; by left).
        apply height_child in Hc'. simpl in Hh. lia.
  - change (f :: ctx ++ [g]) with ((f :: ctx) ++ [g]) in *.
    rewrite plug_app in *. simpl in *.
    set (t' := plug ctx (fill f t)) in *.
    pose proof (height_fill g t') as Hhf. unfold fill in Hhf. simpl in Hhf.
    destruct fuel as [|fuel]; [lia|].
    rewrite addrs_fill in Hnd. pose proof Hnd as Hnd'.
    apply NoDup_app in Hnd as (Hnd1 & Hdisj & _).
    apply rep_fill in Hrep as [Ht (Hf & Hl & _)]. simpl. rewrite Hf.
    assert (taddr t ∈ addrs t') as Hin.
    { unfold t'. rewrite addrs_plug, addrs_fill. apply elem_of_app. left.
      apply elem_of_app. left. apply taddr_in_addrs. }
    rewrite findParent_scan_skip.
    + simpl. rewrite decide_False.
      * rewrite (rep_root _ _ Ht).
        assert (findParent_rec fuel h (Some (taddr t')) (taddr t) = Some (Some (fa f))) as ->.
        { apply (IH f t); [done|done|]. fold t'. lia. }
        destruct (plug_Nd ctx (fa f) (fks f) (fl f ++ t :: fr f)) as (a' & ks' & cs' & Heq).
        unfold t'. unfold fill. by rewrite Heq.
      * intros Heq. unfold t' in Hnd1. 
        change (plug ctx (fill f t)) with (plug (f :: ctx) t) in Hnd1, Heq.
        rewrite addrs_plug in Hnd1. apply NoDup_app in Hnd1 as (_ & Hd & _).
        apply (Hd (taddr t)); [apply taddr_in_addrs|].
        rewrite <- Heq. unfold t'.
        change (plug ctx (fill f t)) with (plug (f :: ctx) t).
        rewrite taddr_plug_root. apply ctx_root_in.
    + rewrite Forall_forall in Hl. apply Forall_forall. intros c Hc.
      assert (taddr t ∉ addrs c) as Hxc.
      { intros Hin'. apply (Hdisj (taddr t)); [done|].
        unfold frame_addrs. apply list_elem_of_further, elem_of_app. left.
        by eapply addrs_child. }
      split_and!.
      * intros Heq. apply Hxc. rewrite <- Heq. apply taddr_in_addrs.
      * by apply rep_root, Hl.
      * apply findParent_absent; [by apply Hl| |done].
        assert (c ∈ fl g ++ t' :: fr g) as Hc' by (apply elem_of_app; by left).
        apply height_child in Hc'. simpl in Hh. lia.
Qed.

(** ** The height of a tree is bounded by the size of the store *)

Lemma height_le_addrs t : height t ≤ length (addrs t).
Proof.
  induction t as [a ks vs nx|a ks cs IH] using tree_nested_ind; [simpl; lia|].
  rewrite addrs_Nd. simpl.
  enough (foldr Nat.max 0 (height <$> cs) ≤ length (mjoin (addrs <$> cs))) by lia.
  induction IH as [|c cs Hc _ IH]; csimpl; [lia|].
  rewrite length_app. lia.
Qed.

Lemma addrs_length_store h t : rep h t → NoDup (addrs t) → length (addrs t) ≤ length h.
Proof.
  intros Hrep Hnd. rewrite <- (length_seq (length h) 0).
  apply submseteq_length, NoDup_submseteq; [done|].
  intros a Ha. apply elem_of_seq. split; [lia|]. simpl. by eapply rep_addrs.
Qed.

Lemma height_le_store h t : rep h t → NoDup (addrs t) → height t ≤ length h.
Proof.
  intros Hrep Hnd. pose proof (height_le_addrs t). pose proof (addrs_length_store h t Hrep Hnd).
  lia.
Qed.

Lemma length_ctx_le_addrs ctx : length ctx ≤ length (ctx_addrs ctx).
Proof.
  induction ctx as [|f ctx IH]; [done|].
  rewrite ctx_addrs_cons, length_app. unfold frame_addrs. simpl. lia.
Qed.

Lemma length_ctx_lt_store h ctx t :
  rep h (plug ctx t) → NoDup (addrs (plug ctx t)) → length ctx < length h.
Proof.
  intros Hrep Hnd. pose proof (addrs_length_store h _ Hrep Hnd) as Hl.
  rewrite addrs_plug, length_app in Hl. pose proof (length_ctx_le_addrs ctx).
  assert (0 < length (addrs t)); [|lia].
  pose proof (taddr_in_addrs t) as Hin. destruct (addrs t); [by apply elem_of_nil in Hin|simpl; lia].
Qed.

(** ** Vector operations *)

Lemma child_position_middle (l1 l2 : list addr) x :
  x ∉ l1 → child_position (l1 ++ x :: l2) x = length l1.
Proof.
  induction l1 as [|y l1 IH]; intros Hx; simpl.
  - by rewrite decide_True.
  - apply not_elem_of_cons in Hx as [Hne Hx]. rewrite decide_False by done.
    by rewrite IH.
Qed.

Lemma vector_insert_after {A} (l1 l2 : list A) x y :
  vector_insert (length l1 + 1) y (l1 ++ x :: l2) = l1 ++ x :: y :: l2.
Proof.
  unfold vector_insert.
  rewrite take_app_add, drop_app_add. simpl.
  rewrite take_0, drop_0. by rewrite <- (assoc_L (++)).
Qed.

Lemma length_vector_insert {A} i (x : A) l : length (vector_insert i x l) = S (length l).
Proof.
  unfold vector_insert. rewrite length_app. simpl. rewrite length_take, length_drop. lia.
Qed.

(** ** The steps of a cascade *)

Lemma NoDup_frame_parts f ctx L R :
  NoDup (addrs (plug (f :: ctx) L) ++ addrs R) →
  (fa f ∉ addrs L) ∧ (fa f ∉ addrs R)
  ∧ (fa f ∉ mjoin (addrs <$> fl f)) ∧ (fa f ∉ mjoin (addrs <$> fr f))
  ∧ (fa f ∉ ctx_addrs ctx) ∧ (taddr L ∉ taddr <$> fl f).
Proof.
  rewrite addrs_plug, ctx_addrs_cons. unfold frame_addrs. intros Hnd.
  assert (NoDup (fa f :: addrs L ++ mjoin (addrs <$> fl f) ++ mjoin (addrs <$> fr f)
                 ++ ctx_addrs ctx ++ addrs R)) as Hnd'.
  { eapply NoDup_Permutation_proper; [|exact Hnd]. solve_Permutation. }
  apply NoDup_cons in Hnd' as [Hfa Hnd'].
  rewrite !not_elem_of_app in Hfa. destruct Hfa as (? & ? & ? & ? & ?).
  split_and!; try done.
  apply NoDup_app in Hnd' as (_ & Hdisj & _).
  intros Hin. apply list_elem_of_fmap in Hin as (c & Heq & Hc).
  apply (Hdisj (taddr L)); [apply taddr_in_addrs|].
  apply elem_of_app. left. rewrite Heq. eapply addrs_child; [done|apply taddr_in_addrs].
Qed.

Lemma plug_cons_Nd f ctx t t' :
  taddr (plug (f :: ctx) t) = taddr (plug (f :: ctx) t').
Proof. simpl. by apply taddr_plug. Qed.

Lemma root_not_hole f ctx t :
  NoDup (addrs (plug (f :: ctx) t)) → taddr (plug (f :: ctx) t) ≠ taddr t.
Proof.
  rewrite addrs_plug. intros Hnd Heq. apply NoDup_app in Hnd as (_ & Hdisj & _).
  apply (Hdisj (taddr t)); [apply taddr_in_addrs|].
  rewrite <- Heq, taddr_plug_root. apply ctx_root_in.
Qed.

Lemma hole_not_in_ctx ctx t : NoDup (addrs (plug ctx t)) → taddr t ∉ ctx_addrs ctx.
Proof.
  rewrite addrs_plug. intros (_ & Hdisj & _)%NoDup_app.
  apply Hdisj, taddr_in_addrs.
Qed.

Lemma fresh_addr h t : rep h t → length h ∉ addrs t.
Proof. intros Hrep Hin. apply (rep_addrs h) in Hin; [lia|done]. Qed.

(** The parent lookup of [insertInternalNode] and [insertInternalUpKey]
    finds the innermost frame; after the key and the right half are put
    into it, the store holds the tree with the enlarged node. *)
Lemma parent_insert_step h f ctx L R up :
  rep h (plug (f :: ctx) L) → rep h R →
  NoDup (addrs (plug (f :: ctx) L) ++ addrs R) →
  findParent (MkTree h (Some (taddr (plug (f :: ctx) L)))) (taddr L) = Some (Some (fa f))
  ∧ h !! fa f = Some (BPlusInternalNode (fks f) ((taddr <$> fl f) ++ taddr L :: (taddr <$> fr f)))
  ∧ child_position ((taddr <$> fl f) ++ taddr L :: (taddr <$> fr f)) (taddr L) = length (fl f)
  ∧ vector_insert (length (fl f) + 1) (taddr R)
      ((taddr <$> fl f) ++ taddr L :: (taddr <$> fr f))
    = taddr <$> (fl f ++ L :: R :: fr f)
  ∧ rep (<[fa f := BPlusInternalNode (vector_insert (length (fl f)) up (fks f))
                                     (taddr <$> (fl f ++ L :: R :: fr f))]> h)
        (plug ctx (Nd (fa f) (vector_insert (length (fl f)) up (fks f))
                      (fl f ++ L :: R :: fr f)))
  ∧ NoDup (addrs (plug ctx (Nd (fa f) (vector_insert (length (fl f)) up (fks f))
                               (fl f ++ L :: R :: fr f))))
  ∧ taddr (plug ctx (Nd (fa f) (vector_insert (length (fl f)) up (fks f))
                        (fl f ++ L :: R :: fr f)))
    = taddr (plug (f :: ctx) L).
Proof.
  intros Hrep HR Hnd.
  pose proof (NoDup_frame_parts _ _ _ _ Hnd) as (HfL & HfR & Hfl & Hfr & Hfc & HLl).
  pose proof Hnd as Hnd0. apply NoDup_app in Hnd0 as (HndT & _ & _).
  pose proof Hrep as Hrep0.
  apply rep_plug in Hrep0 as [HL Hctx]. cbn [rep_ctx] in Hctx.
  destruct Hctx as (Hf & Hl & Hr & Hctx).
  split_and!.
  - unfold findParent. cbn [store root_].
    apply findParent_plug; [done|done|by apply height_le_store].
  - done.
  - rewrite child_position_middle by done. by rewrite length_fmap.
  - rewrite <- (length_fmap taddr (fl f)), vector_insert_after. by rewrite fmap_app.
  - apply rep_plug. split; [|by apply rep_ctx_insert_other].
    apply rep_Nd. split.
    + rewrite list_lookup_insert_eq by (by eapply lookup_lt_Some). done.
    + rewrite Forall_app, !Forall_cons. split_and!.
      * by apply Forall_rep_insert_other.
      * by apply rep_insert_other.
      * by apply rep_insert_other.
      * by apply Forall_rep_insert_other.
  - eapply NoDup_Permutation_proper; [|exact Hnd].
    rewrite !addrs_plug, addrs_Nd, ctx_addrs_cons. unfold frame_addrs.
    rewrite fmap_app, join_app. csimpl. solve_Permutation.
  - simpl. by apply taddr_plug.
Qed.

Lemma Forall_rep_take_drop h a n x cs i :
  Forall (rep h) cs → a ∉ mjoin (addrs <$> cs) →
  Forall (rep (<[a := n]> h ++ [x])) (take i cs)
  ∧ Forall (rep (<[a := n]> h ++ [x])) (drop i cs).
Proof.
  intros Hcs Ha.
  assert (Forall (rep (<[a := n]> h ++ [x])) cs) as H.
  { eapply Forall_impl; [by apply Forall_rep_insert_other|]. intros; by apply rep_app. }
  split; [by apply Forall_take|by apply Forall_drop].
Qed.

(** After [splitInternalNode] has written the two halves, the store holds
    the tree with the left half in the place of the node, and the right
    half beside it. *)
Lemma internal_split_step h ctx a ks cs :
  rep h (plug ctx (Nd a ks cs)) →
  NoDup (addrs (plug ctx (Nd a ks cs))) →
  rep (internal_split_store h a ks (taddr <$> cs)) (plug ctx (split_left a ks cs))
  ∧ rep (internal_split_store h a ks (taddr <$> cs)) (split_right (length h) ks cs)
  ∧ NoDup (addrs (plug ctx (split_left a ks cs)) ++ addrs (split_right (length h) ks cs))
  ∧ length (internal_split_store h a ks (taddr <$> cs)) = S (length h).
Proof.
  intros Hrep Hnd. pose proof (fresh_addr _ _ Hrep) as Hfresh.
  pose proof (hole_not_in_ctx _ _ Hnd) as Hactx.
  pose proof Hrep as Hrep0; apply rep_plug in Hrep0 as [HX Hctx].
  apply rep_Nd in HX as [Ha Hcs].
  pose proof Hnd as Hnd0; rewrite addrs_plug in Hnd0.
  apply NoDup_app in Hnd0 as (HndX & _ & _).
  rewrite addrs_Nd in HndX; apply NoDup_cons in HndX as [Hacs _].
  unfold internal_split_store.
  destruct (Forall_rep_take_drop h a
         (BPlusInternalNode (take (length ks / 2) ks) (take (length ks / 2 + 1) (taddr <$> cs)))
         (BPlusInternalNode (drop (length ks / 2 + 1) ks) (drop (length ks / 2 + 1) (taddr <$> cs)))
         cs (length ks / 2 + 1) Hcs Hacs) as [Htake Hdrop].
  assert (a < length h) as Hlt by (by eapply lookup_lt_Some).
  split_and!.
  - apply rep_plug. split.
    + apply rep_Nd. split; [|done].
      rewrite lookup_app_l by (by rewrite length_insert).
      rewrite list_lookup_insert_eq by done. by rewrite fmap_take.
    + by apply rep_ctx_app, rep_ctx_insert_other.
  - apply rep_Nd. split; [|done].
    rewrite lookup_app_r by (by rewrite length_insert).
    rewrite length_insert, Nat.sub_diag. simpl. by rewrite fmap_drop.
  - apply NoDup_cons_2 with (x := length h) in Hnd; [|done].
    eapply NoDup_Permutation_proper; [|exact Hnd].
    rewrite !addrs_plug. unfold split_left, split_right. rewrite !addrs_Nd.
    rewrite <- (take_drop (length ks / 2 + 1) cs) at 3.
    rewrite fmap_app, join_app. solve_Permutation.
  - rewrite length_app, length_insert. simpl. lia.
Qed.

(** The same for [splitLeafNode]. *)
Lemma leaf_split_step h ctx a ks vs nx :
  rep h (plug ctx (Lf a ks vs nx)) →
  NoDup (addrs (plug ctx (Lf a ks vs nx))) →
  rep (leaf_split_store h a ks vs nx) (plug ctx (leaf_left a ks vs (length h)))
  ∧ rep (leaf_split_store h a ks vs nx) (leaf_right (length h) ks vs nx)
  ∧ NoDup (addrs (plug ctx (leaf_left a ks vs (length h)))
           ++ addrs (leaf_right (length h) ks vs nx))
  ∧ length (leaf_split_store h a ks vs nx) = S (length h).
Proof.
  intros Hrep Hnd. pose proof (fresh_addr _ _ Hrep) as Hfresh.
  pose proof (hole_not_in_ctx _ _ Hnd) as Hactx.
  pose proof Hrep as Hrep0; apply rep_plug in Hrep0 as [HX Hctx].
  apply rep_Lf in HX. unfold leaf_split_store.
  assert (a < length h) as Hlt by (by eapply lookup_lt_Some).
  split_and!.
  - apply rep_plug. split.
    + apply rep_Lf. rewrite lookup_app_l by (by rewrite length_insert).
      by rewrite list_lookup_insert_eq.
    + by apply rep_ctx_app, rep_ctx_insert_other.
  - apply rep_Lf. rewrite lookup_app_r by (by rewrite length_insert).
    by rewrite length_insert, Nat.sub_diag.
  - apply NoDup_cons_2 with (x := length h) in Hnd; [|done].
    eapply NoDup_Permutation_proper; [|exact Hnd].
    rewrite !addrs_plug. unfold leaf_left, leaf_right. rewrite !addrs_Lf.
    solve_Permutation.
  - rewrite length_app, length_insert. simpl. lia.
Qed.

(** ** The cascade of splits refines [promote] *)

Lemma insertIntoParent_promote fuel f ctx h L R up :
  split_ok fuel ctx →
  rep h (plug (f :: ctx) L) → rep h R →
  NoDup (addrs (plug (f :: ctx) L) ++ addrs R) →
  ctx_shape (f :: ctx) →
  ∃ h',
    insertIntoParent (splitInternalNode fuel) up (taddr L) (taddr R)
      (MkTree h (Some (taddr (plug (f :: ctx) L))))
    = Completed (MkTree h' (Some (taddr (promote (f :: ctx) L up R (length h)))))
    ∧ rep h' (promote (f :: ctx) L up R (length h)).
Proof.
  intros Hsplit Hrep HR Hnd Hshape.
  destruct (parent_insert_step h f ctx L R up Hrep HR Hnd)
    as (Hfind & Hf & Hpos & Hcs & Hrep1 & Hnd1 & Hroot).
  unfold insertIntoParent. rewrite Hfind. cbn [store root_]. rewrite Hf, Hpos, Hcs.
  apply Forall_cons in Hshape as [Hshf Hshape].
  replace (length (fl f) <=? length (fks f)) with true
    by (symmetry; apply Nat.leb_le; lia).
  replace (length (fl f) + 1 <=? length ((taddr <$> fl f) ++ taddr L :: (taddr <$> fr f)))
    with true by (symmetry; apply Nat.leb_le; rewrite length_app, length_fmap; simpl; lia).
  cbn [andb promote].
  set (ks' := vector_insert (length (fl f)) up (fks f)) in *.
  set (cs' := fl f ++ L :: R :: fr f) in *.
  set (h1 := <[fa f := _]> h) in *.
  rewrite <- Hroot.
  destruct (kOrder <=? length ks') eqn:Hov.
  - destruct (Hsplit h1 (fa f) ks' cs') as (h' & Heq & Hrep'); try done.
    + unfold cs', ks'. rewrite length_vector_insert, length_app. simpl. lia.
    + unfold ks'. rewrite length_vector_insert. lia.
    + exists h'. unfold h1 in *. rewrite length_insert in *. by split.
  - exists h1. by split.
Qed.

Lemma split_promote ctx : ∀ fuel, length ctx < fuel → split_ok fuel ctx.
Proof.
  induction ctx as [|f ctx IH]; intros fuel Hfuel h a ks cs Hrep Hnd Hshape Hlen Hks.
  all: destruct fuel as [|fuel]; [simpl in Hfuel; lia|].
  all: destruct (internal_split_step h _ a ks cs Hrep Hnd) as (HL & HR & Hnd1 & Hlen1).
  all: pose proof Hrep as Hrep0; apply rep_plug in Hrep0 as [HX _].
  all: apply rep_Nd in HX as [Ha _].
  all: assert (length ks / 2 < length ks) as Hmid by (apply Nat.div_lt; lia).
  all: destruct (lookup_lt_is_Some_2 ks (length ks / 2) Hmid) as [upKey Hup].
  all: cbn [splitInternalNode store root_]; rewrite Ha, Hup.
  all: replace (length ks / 2 + 1 <=? length (taddr <$> cs)) with true
         by (symmetry; apply Nat.leb_le; rewrite length_fmap; lia).
  all: unfold split_key; rewrite Hup; cbn [default].
  all: set (h1 := internal_split_store h a ks (taddr <$> cs)) in *.
  - simpl. rewrite decide_True by done.
    eexists. split; [done|].
    apply rep_Nd. split.
    + rewrite lookup_app_r by lia. rewrite Hlen1.
      by replace (S (length h) - S (length h)) with 0 by lia.
    + rewrite !Forall_cons. split_and!; [by apply rep_app|by apply rep_app|done].
  - rewrite decide_False.
    2:{ intros [= Heq]. by eapply root_not_hole. }
    rewrite (plug_cons_Nd f ctx (Nd a ks cs) (split_left a ks cs)).
    rewrite <- Hlen1.
    apply (insertIntoParent_promote fuel f ctx h1 (split_left a ks cs)
             (split_right (length h) ks cs) upKey); [|done|done|done|done].
    apply IH. simpl in Hfuel. lia.
Qed.

Lemma splitLeaf_promote ctx fuel h a ks vs nx :
  rep h (plug ctx (Lf a ks vs nx)) →
  NoDup (addrs (plug ctx (Lf a ks vs nx))) →
  ctx_shape ctx →
  length ctx ≤ fuel →
  length ks / 2 ≤ length vs →
  0 < length ks →
  ∃ h',
    splitLeafNode fuel a (MkTree h (Some (taddr (plug ctx (Lf a ks vs nx)))))
    = Completed (MkTree h' (Some (taddr
        (promote ctx (leaf_left a ks vs (length h)) (leaf_key ks)
                 (leaf_right (length h) ks vs nx) (S (length h))))))
    ∧ rep h'
        (promote ctx (leaf_left a ks vs (length h)) (leaf_key ks)
                 (leaf_right (length h) ks vs nx) (S (length h))).
Proof.
  intros Hrep Hnd Hshape Hfuel Hvs Hks.
  destruct (leaf_split_step h ctx a ks vs nx Hrep Hnd) as (HL & HR & Hnd1 & Hlen1).
  pose proof Hrep as Hrep0; apply rep_plug in Hrep0 as [HX _].
  apply rep_Lf in HX.
  assert (length ks / 2 < length ks) as Hmid by (apply Nat.div_lt; lia).
  unfold splitLeafNode. cbn [store root_]. rewrite HX.
  replace (length ks / 2 <=? length vs) with true by (symmetry; by apply Nat.leb_le).
  unfold leaf_key.
  destruct (drop (length ks / 2) ks) as [|newKey rest] eqn:Hdrop.
  { apply (f_equal length) in Hdrop. rewrite length_drop in Hdrop.
    change (length (@nil Z)) with 0 in Hdrop. lia. }
  cbn [head default].
  set (h1 := leaf_split_store h a ks vs nx) in *.
  destruct ctx as [|f ctx].
  - simpl. rewrite decide_True by done.
    eexists. split; [done|].
    apply rep_Nd. split.
    + rewrite lookup_app_r by lia. rewrite Hlen1.
      by replace (S (length h) - S (length h)) with 0 by lia.
    + rewrite !Forall_cons. split_and!; [by apply rep_app|by apply rep_app|done].
  - rewrite decide_False.
    2:{ intros [= Heq]. by eapply root_not_hole. }
    rewrite (plug_cons_Nd f ctx (Lf a ks vs nx) (leaf_left a ks vs (length h))).
    rewrite <- Hlen1. unfold insertInternalNode.
    apply (insertIntoParent_promote fuel f ctx h1 (leaf_left a ks vs (length h))
             (leaf_right (length h) ks vs nx) newKey); [|done|done|done|done].
    apply split_promote. simpl in Hfuel. lia.
Qed.

(** ** Key ranges *)

Lemma lt_hi_trans k k' hi : (k < k')%Z → lt_hi k' hi → lt_hi k hi.
Proof. destruct hi; simpl; [lia|done]. Qed.

Lemma lo_lt_trans lo k k' : lo_lt lo k → (k < k')%Z → lo_lt lo k'.
Proof. destruct lo; simpl; [lia|done]. Qed.

Lemma lo_lt_le lo k k' : lo_lt lo k → (k ≤ k')%Z → lo_le lo k'.
Proof. destruct lo; simpl; [lia|done]. Qed.

Lemma lo_le_lt lo k k' : lo_le lo k → (k < k')%Z → lo_lt lo k'.
Proof. destruct lo; simpl; [lia|done]. Qed.

Lemma vector_insert_S {A} i (x y : A) l :
  vector_insert (S i) x (y :: l) = y :: vector_insert i x l.
Proof. done. Qed.

Section wf_children.
Variable P : option Z → option Z → tree → Prop.

Lemma wf_children_cons lo hi k ks c cs :
  wf_children P lo hi (k :: ks) (c :: cs)
  ↔ P lo (Some k) c ∧ lo_lt lo k ∧ lt_hi k hi ∧ wf_children P (Some k) hi ks cs.
Proof. simpl. destruct cs; simpl; naive_solver. Qed.

Lemma wf_children_nil lo hi c cs :
  wf_children P lo hi [] (c :: cs) ↔ cs = [] ∧ P lo hi c.
Proof. simpl. destruct cs; naive_solver. Qed.

Lemma wf_children_length lo hi ks cs :
  wf_children P lo hi ks cs → length cs = S (length ks).
Proof.
  revert lo ks. induction cs as [|c cs IH]; intros lo ks H; [done|].
  destruct ks as [|k ks].
  - by apply wf_children_nil in H as [-> _].
  - apply wf_children_cons in H as (_ & _ & _ & H). simpl. f_equal. by eapply IH.
Qed.

(** What a context frame tells about the child in its hole. *)
Lemma wf_children_hole l : ∀ lo hi ks X r,
  wf_children P lo hi ks (l ++ X :: r) →
  ∃ lo' hi',
    P lo' hi' X
    ∧ (∀ X', P lo' hi' X' → wf_children P lo hi ks (l ++ X' :: r))
    ∧ (∀ L R up,
         P lo' (Some up) L → P (Some up) hi' R → lo_lt lo' up → lt_hi up hi' →
         wf_children P lo hi (vector_insert (length l) up ks) (l ++ L :: R :: r))
    ∧ (∀ key, length l = findLeaf_index ks key →
         in_range lo hi key → in_range lo' hi' key).
Proof.
  induction l as [|c l IH]; intros lo hi ks X r H.
  - change ([] ++ X :: r) with (X :: r) in H. destruct ks as [|k ks].
    + apply wf_children_nil in H as [-> HX]. exists lo, hi. split_and!; [done|done| |done].
      intros L R up HL HR Hlo Hhi.
      change (wf_children P lo hi [up] [L; R]). apply wf_children_cons. done.
    + apply wf_children_cons in H as (HX & Hlo & Hhi & Hr).
      exists lo, (Some k). split_and!; [done| | |].
      * intros X' HX'. by apply wf_children_cons.
      * intros L R up HL HR Hlo' Hhi'.
        change (wf_children P lo hi (up :: k :: ks) (L :: R :: r)).
        apply wf_children_cons. split_and!; [done|done|by eapply lt_hi_trans|].
        by apply wf_children_cons.
      * intros key Hk [Hkl Hkh]. simpl in Hk.
        destruct (Z.leb_spec k key); [done|]. by split.
  - change ((c :: l) ++ X :: r) with (c :: (l ++ X :: r)) in H.
    destruct ks as [|k ks].
    { apply wf_children_nil in H as [Heq _]. by destruct l. }
    apply wf_children_cons in H as (Hc & Hlo & Hhi & Hr).
    destruct (IH _ _ _ _ _ Hr) as (lo' & hi' & HX & Hrepl & Hins & Hpath).
    exists lo', hi'. split_and!; [done| | |].
    + intros X' HX'. simpl. apply wf_children_cons. by auto.
    + intros L R up HL HR Hlo' Hhi'. simpl length. rewrite vector_insert_S.
      change ((c :: l) ++ L :: R :: r) with (c :: (l ++ L :: R :: r)).
      apply wf_children_cons. by auto.
    + intros key Hk [Hkl Hkh]. simpl in Hk.
      destruct (Z.leb_spec k key); [|done].
      apply Hpath; [congruence|]. by split.
Qed.

(** Splitting an internal node at any of its keys. *)
Lemma wf_children_split mid : ∀ lo hi ks cs up,
  wf_children P lo hi ks cs → ks !! mid = Some up →
  wf_children P lo (Some up) (take mid ks) (take (mid + 1) cs)
  ∧ wf_children P (Some up) hi (drop (mid + 1) ks) (drop (mid + 1) cs)
  ∧ lo_lt lo up ∧ lt_hi up hi.
Proof.
  induction mid as [|mid IH]; intros lo hi ks cs up H Hup.
  - destruct ks as [|k ks]; [done|]. simpl in Hup. simplify_eq.
    destruct cs as [|c cs]; [done|].
    apply wf_children_cons in H as (Hc & Hlo & Hhi & Hr).
    change (wf_children P lo (Some up) [] (c :: take 0 cs)
            ∧ wf_children P (Some up) hi ks cs ∧ lo_lt lo up ∧ lt_hi up hi).
    rewrite take_0. by split_and!.
  - destruct ks as [|k ks]; [done|]. simpl in Hup.
    destruct cs as [|c cs]; [done|].
    apply wf_children_cons in H as (Hc & Hlo & Hhi & Hr).
    destruct (IH _ _ _ _ _ Hr Hup) as (HL & HR & Hlo' & Hhi').
    split_and!; [|done|by eapply lo_lt_trans|done].
    change (take (S mid) (k :: ks)) with (k :: take mid ks).
    change (take (S mid + 1) (c :: cs)) with (c :: take (mid + 1) cs).
    apply wf_children_cons. done.
Qed.
End wf_children.

(** The facts a context passes on about the subtree in its hole. *)
Lemma wf_plug ctx : ∀ X lo hi,
  wf lo hi (plug ctx X) →
  ∃ lo' hi',
    wf lo' hi' X
    ∧ (∀ X', wf lo' hi' X' → wf lo hi (plug ctx X'))
    ∧ (∀ L R up n,
         wf lo' (Some up) L → wf (Some up) hi' R → lo_lt lo' up → lt_hi up hi' →
         wf lo hi (promote ctx L up R n))
    ∧ (∀ key, on_path key ctx → in_range lo hi key → in_range lo' hi' key).
Proof.
  induction ctx as [|f ctx IH]; intros X lo hi H.
  - exists lo, hi. split_and!; [done|done| |done].
    intros L R up n HL HR Hlo Hhi. simpl. split; [unfold kOrder; lia|]. done.
  - simpl in H. destruct (IH _ _ _ H) as (lo1 & hi1 & Hf & Hrepl & Hprom & Hpath).
    destruct Hf as [Hsize Hcs].
    destruct (wf_children_hole wf _ _ _ _ _ _ Hcs)
      as (lo' & hi' & HX & Hrepl' & Hins' & Hpath').
    exists lo', hi'. split_and!; [done| | |].
    + intros X' HX'. simpl. apply Hrepl. split; [done|]. by apply Hrepl'.
    + intros L R up n HL HR Hlo Hhi. cbn [promote].
      pose proof (Hins' L R up HL HR Hlo Hhi) as Hcs'.
      pose proof (length_vector_insert (length (fl f)) up (fks f)) as Hlen.
      destruct (kOrder <=? _) eqn:Hov.
      * apply Nat.leb_le in Hov.
        assert (length (vector_insert (length (fl f)) up (fks f)) / 2
                < length (vector_insert (length (fl f)) up (fks f))) as Hmid
          by (apply Nat.div_lt; lia).
        destruct (lookup_lt_is_Some_2 _ _ Hmid) as [upk Hupk].
        destruct (wf_children_split wf _ _ _ _ _ _ Hcs' Hupk) as (HL' & HR' & Hlo' & Hhi').
        unfold split_key. rewrite Hupk. cbn [default].
        apply Hprom; [| |done|done].
        -- split; [|done]. rewrite length_take. unfold kOrder in *.
           assert (length (vector_insert (length (fl f)) up (fks f)) / 2 ≤ 2); [|lia].
           apply Nat.Div0.div_le_upper_bound. lia.
        -- split; [|done]. rewrite length_drop. unfold kOrder in *. lia.
      * apply Nat.leb_gt in Hov. apply Hrepl. split; [done|]. done.
    + intros key Hk Hr. apply Forall_cons in Hk as [Hkf Hk].
      apply Hpath'; [done|]. by apply Hpath.
Qed.

(** ** Leaves, entries and keys *)

Lemma join_fmap_join {A B} (g : A → list B) (ls : list (list A)) :
  mjoin (g <$> mjoin ls) = mjoin ((λ l, mjoin (g <$> l)) <$> ls).
Proof.
  induction ls as [|l ls IH]; csimpl; [done|].
  by rewrite fmap_app, join_app, IH.
Qed.

Lemma fmap_join_list {A B} (g : A → B) (ls : list (list A)) :
  g <$> mjoin ls = mjoin (fmap g <$> ls).
Proof.
  induction ls as [|l ls IH]; csimpl; [done|].
  by rewrite fmap_app, IH.
Qed.

Lemma leaf_seq_Nd a ks cs : leaf_seq (Nd a ks cs) = mjoin (leaf_seq <$> cs).
Proof. done. Qed.

Lemma entries_Nd a ks cs : entries (Nd a ks cs) = mjoin (entries <$> cs).
Proof.
  unfold entries. rewrite leaf_seq_Nd, join_fmap_join. f_equal.
  by rewrite <- list_fmap_compose.
Qed.

Lemma keys_Nd a ks cs : keys (Nd a ks cs) = mjoin (keys <$> cs).
Proof.
  unfold keys. rewrite leaf_seq_Nd, join_fmap_join. f_equal.
  by rewrite <- list_fmap_compose.
Qed.

Lemma entries_Lf a ks vs nx : entries (Lf a ks vs nx) = zip ks vs.
Proof. unfold entries. simpl. by rewrite (right_id_L [] (++)). Qed.

Lemma keys_Lf a ks vs nx : keys (Lf a ks vs nx) = ks.
Proof. unfold keys. simpl. by rewrite (right_id_L [] (++)). Qed.

Lemma leaf_seq_fill f t :
  leaf_seq (fill f t) = mjoin (leaf_seq <$> fl f) ++ leaf_seq t ++ mjoin (leaf_seq <$> fr f).
Proof. unfold fill. by rewrite leaf_seq_Nd, fmap_app, join_app. Qed.

Lemma leaf_seq_plug ctx : ∀ t,
  leaf_seq (plug ctx t) = ctx_before ctx ++ leaf_seq t ++ ctx_after ctx.
Proof.
  induction ctx as [|f ctx IH]; intros t; simpl.
  - by rewrite (right_id_L [] (++)).
  - rewrite IH, leaf_seq_fill. by rewrite <- !(assoc_L (++)).
Qed.

Lemma leaf_seq_split a n ks cs :
  leaf_seq (split_left a ks cs) ++ leaf_seq (split_right n ks cs) = mjoin (leaf_seq <$> cs).
Proof.
  unfold split_left, split_right. rewrite !leaf_seq_Nd.
  by rewrite <- join_app, <- fmap_app, take_drop.
Qed.

Lemma leaf_seq_promote ctx : ∀ L up R n,
  leaf_seq (promote ctx L up R n)
  = ctx_before ctx ++ leaf_seq L ++ leaf_seq R ++ ctx_after ctx.
Proof.
  induction ctx as [|f ctx IH]; intros L up R n; cbn [promote].
  - rewrite leaf_seq_Nd. csimpl. by rewrite (right_id_L [] (++)).
  - destruct (kOrder <=? _).
    + rewrite IH. rewrite (assoc_L (++) (leaf_seq (split_left _ _ _))), leaf_seq_split.
      rewrite fmap_app, join_app. csimpl. by rewrite <- !(assoc_L (++)).
    + rewrite leaf_seq_plug, leaf_seq_Nd, fmap_app, join_app. csimpl.
      by rewrite <- !(assoc_L (++)).
Qed.

(** ** Association lists *)

Lemma assoc_app key l1 l2 :
  assoc key (l1 ++ l2) = match assoc key l1 with Some v => Some v | None => assoc key l2 end.
Proof.
  induction l1 as [|[k v] l1 IH]; simpl; [done|]. by destruct (k =? key)%Z.
Qed.

Lemma assoc_None key l : assoc key l = None ↔ key ∉ l.*1.
Proof.
  induction l as [|[k v] l IH]; simpl.
  - split; [intros _; apply not_elem_of_nil|done].
  - rewrite not_elem_of_cons. destruct (Z.eqb_spec k key); naive_solver.
Qed.

Lemma assoc_Some_elem key v l : assoc key l = Some v → (key, v) ∈ l.
Proof.
  induction l as [|[k w] l IH]; simpl; [done|].
  destruct (Z.eqb_spec k key) as [->|Hne].
  - intros [= ->]. apply list_elem_of_here.
  - intros H. apply list_elem_of_further. by apply IH.
Qed.

Lemma assoc_scan_key ks vs key :
  length vs = length ks →
  assoc key (zip ks vs) = match scan_key ks key with Some i => vs !! i | None => None end.
Proof.
  revert vs. induction ks as [|k ks IH]; intros vs Hlen; [done|].
  destruct vs as [|v vs]; [done|]. simpl.
  destruct (k =? key)%Z; [done|]. rewrite IH by (simpl in Hlen; lia).
  by destruct (scan_key ks key).
Qed.

Lemma scan_key_None ks key : scan_key ks key = None ↔ key ∉ ks.
Proof.
  induction ks as [|k ks IH]; simpl.
  - split; [intros _; apply not_elem_of_nil|done].
  - rewrite not_elem_of_cons. destruct (Z.eqb_spec k key).
    + naive_solver.
    + rewrite fmap_None. naive_solver.
Qed.

Lemma scan_key_Some ks key i :
  scan_key ks key = Some i → ks !! i = Some key ∧ key ∉ take i ks.
Proof.
  revert i. induction ks as [|k ks IH]; intros i; simpl; [done|].
  destruct (Z.eqb_spec k key) as [->|Hne].
  - intros [= <-]. split; [done|apply not_elem_of_nil].
  - intros H. apply fmap_Some in H as (j & Hj & ->).
    destruct (IH _ Hj) as [? ?]. split; [done|]. simpl.
    apply not_elem_of_cons. split; [congruence|done].
Qed.

(** ** Keys of a well-formed tree *)

Lemma in_range_left lo hi k x : in_range lo (Some k) x → lt_hi k hi → in_range lo hi x.
Proof. intros [? Hx] ?. split; [done|]. by eapply lt_hi_trans. Qed.

Lemma in_range_right lo hi k x : in_range (Some k) hi x → lo_lt lo k → in_range lo hi x.
Proof. intros [Hx ?] ?. split; [|done]. by eapply lo_lt_le. Qed.

Lemma wf_children_keys cs :
  Forall (λ c, ∀ lo hi, wf lo hi c →
            StronglySorted Z.lt (keys c) ∧ Forall (in_range lo hi) (keys c)) cs →
  ∀ lo hi ks, wf_children wf lo hi ks cs →
  StronglySorted Z.lt (mjoin (keys <$> cs)) ∧ Forall (in_range lo hi) (mjoin (keys <$> cs)).
Proof.
  induction 1 as [|c cs Hc _ IH]; intros lo hi ks H; [done|].
  destruct ks as [|k ks].
  - apply wf_children_nil in H as [-> H]. csimpl. rewrite (right_id_L [] (++)). by apply Hc.
  - apply wf_children_cons in H as (Hwc & Hlo & Hhi & Hr).
    destruct (Hc _ _ Hwc) as [Hs1 Hr1]. destruct (IH _ _ _ Hr) as [Hs2 Hr2]. csimpl.
    rewrite Forall_forall in Hr1, Hr2. split.
    + apply StronglySorted_app_2; [|done|done].
      intros x1 x2 H1 H2. apply Hr1 in H1 as [_ H1]. apply Hr2 in H2 as [H2 _].
      simpl in *. lia.
    + apply Forall_app. split; apply Forall_forall; intros x Hx.
      * eapply in_range_left; [by apply Hr1|done].
      * eapply in_range_right; [by apply Hr2|done].
Qed.

Lemma wf_keys t : ∀ lo hi,
  wf lo hi t → StronglySorted Z.lt (keys t) ∧ Forall (in_range lo hi) (keys t).
Proof.
  induction t as [a ks vs nx|a ks cs IH] using tree_nested_ind; intros lo hi H.
  - rewrite keys_Lf. by destruct H as (_ & _ & ? & ?).
  - rewrite keys_Nd. destruct H as [_ H]. by eapply wf_children_keys.
Qed.

Lemma entries_keys t k : k ∈ (entries t).*1 → k ∈ keys t.
Proof.
  unfold entries, keys. induction (leaf_seq t) as [|l ls IH]; csimpl; [done|].
  rewrite fmap_app, !elem_of_app. intros [Hk|Hk]; [left|right; by apply IH].
  destruct l as [a ks vs nx|]; simpl in *; [|done].
  apply list_elem_of_fmap in Hk as ([k' v] & -> & Hk). by eapply elem_of_zip_l.
Qed.

Lemma wf_assoc_out lo hi t key : wf lo hi t → ¬ in_range lo hi key → assoc key (entries t) = None.
Proof.
  intros Hwf Hout. apply assoc_None. intros Hin. apply entries_keys in Hin.
  apply wf_keys in Hwf as [_ Hr]. rewrite Forall_forall in Hr. by apply Hout, Hr.
Qed.

(** ** Descent *)

Lemma wf_children_index key cs : ∀ lo hi ks,
  length ks < kOrder →
  wf_children wf lo hi ks cs → in_range lo hi key →
  ∃ c lo' hi',
    cs !! findLeaf_index ks key = Some c
    ∧ wf lo' hi' c ∧ in_range lo' hi' key
    ∧ assoc key (mjoin (entries <$> cs)) = assoc key (entries c).
Proof.
  induction cs as [|c cs IH]; intros lo hi ks Hsz H Hr; [done|].
  destruct ks as [|k ks].
  - apply wf_children_nil in H as [-> H]. exists c, lo, hi. csimpl.
    by rewrite (right_id_L [] (++)).
  - apply wf_children_cons in H as (Hwc & Hlo & Hhi & Hrest). csimpl.
    rewrite assoc_app. destruct Hr as [Hrl Hrh].
    destruct (Z.leb_spec k key).
    + destruct (IH (Some k) hi ks) as (c' & lo' & hi' & Hc' & Hwf' & Hr' & Has);
        [simpl in Hsz; lia|done|by split|].
      exists c', lo', hi'. split_and!; [done|done|done|].
      rewrite (wf_assoc_out lo (Some k) c key); [done|done|].
      intros [_ ?]. simpl in *. lia.
    + exists c, lo, (Some k). split_and!; [done|done|by split|].
      destruct (assoc key (entries c)); [done|].
      rewrite <- (entries_Nd 0 ks cs).
      apply (wf_assoc_out (Some k) hi); [split; [simpl in Hsz; lia|done]|].
      intros [? _]. simpl in *. lia.
Qed.

Lemma findLeaf_loop_wf h key t : ∀ lo hi fuel,
  wf lo hi t → rep h t → height t ≤ fuel → in_range lo hi key →
  ∃ ctx a ks vs nx,
    t = plug ctx (Lf a ks vs nx)
    ∧ on_path key ctx
    ∧ findLeaf_loop fuel h (Some (taddr t)) key = Some (Some a)
    ∧ assoc key (entries t) = assoc key (zip ks vs).
Proof.
  induction t as [a ks vs nx|a ks cs IH] using tree_nested_ind;
    intros lo hi fuel Hwf Hrep Hh Hr.
  - exists [], a, ks, vs, nx. apply rep_Lf in Hrep. split_and!; [done|by constructor| |].
    + destruct fuel; simpl; by rewrite Hrep.
    + by rewrite entries_Lf.
  - destruct Hwf as [Hsz Hcs]. apply rep_Nd in Hrep as [Ha Hrcs].
    destruct (wf_children_index key cs lo hi ks Hsz Hcs Hr)
      as (c & lo' & hi' & Hc & Hwc & Hrc & Has).
    assert (c ∈ cs) as Hin by (by eapply list_elem_of_lookup_2).
    destruct fuel as [|fuel]; [simpl in Hh; lia|].
    rewrite Forall_forall in IH, Hrcs.
    destruct (IH c Hin lo' hi' fuel) as (ctx & a' & ks' & vs' & nx' & Ht & Hp & Hfl & Has');
      [done|by apply Hrcs| |done|].
    { apply height_child in Hin. simpl in Hh. lia. }
    exists (ctx ++ [Frame a ks (take (findLeaf_index ks key) cs)
                      (drop (S (findLeaf_index ks key)) cs)]), a', ks', vs', nx'.
    split_and!.
    + rewrite plug_app. simpl. unfold fill. simpl. rewrite <- Ht.
      by rewrite take_drop_middle.
    + apply Forall_app. split; [done|]. apply Forall_singleton. simpl.
      rewrite length_take. apply lookup_lt_Some in Hc. lia.
    + simpl. rewrite Ha. rewrite list_lookup_fmap, Hc. simpl. done.
    + rewrite entries_Nd. congruence.
Qed.

(** ** The chain of [next_] links *)

Lemma linked_cons l rest last :
  linked (l :: rest) last ↔ next_of l = head_addr rest last ∧ linked rest last.
Proof. done. Qed.

Lemma head_addr_app l1 l2 last :
  head_addr (l1 ++ l2) last = head_addr l1 (head_addr l2 last).
Proof. by destruct l1. Qed.

Lemma linked_app l1 l2 last :
  linked (l1 ++ l2) last ↔ linked l1 (head_addr l2 last) ∧ linked l2 last.
Proof.
  induction l1 as [|l l1 IH]; [simpl; naive_solver|].
  change ((l :: l1) ++ l2) with (l :: (l1 ++ l2)).
  rewrite !linked_cons, IH, head_addr_app. naive_solver.
Qed.

Lemma linked_replace pre post l l' last :
  taddr l' = taddr l → next_of l' = next_of l →
  linked (pre ++ l :: post) last → linked (pre ++ l' :: post) last.
Proof.
  intros Ha Hn. rewrite !linked_app, !linked_cons. simpl. rewrite Ha, Hn. done.
Qed.

Lemma linked_split pre post a ks vs nx ks1 vs1 ks2 vs2 n last :
  linked (pre ++ Lf a ks vs nx :: post) last →
  linked (pre ++ Lf a ks1 vs1 (Some n) :: Lf n ks2 vs2 nx :: post) last.
Proof. rewrite !linked_app, !linked_cons. simpl. naive_solver. Qed.

(** ** The addresses of a promoted tree *)

Lemma addrs_split a n ks cs :
  addrs (split_left a ks cs) ++ addrs (split_right n ks cs)
  ≡ₚ a :: n :: mjoin (addrs <$> cs).
Proof.
  unfold split_left, split_right. rewrite !addrs_Nd.
  rewrite <- (take_drop (length ks / 2 + 1) cs) at 3.
  rewrite fmap_app, join_app. solve_Permutation.
Qed.

Lemma promote_addrs ctx : ∀ L up R n,
  NoDup (addrs L ++ addrs R ++ ctx_addrs ctx) →
  (∀ a, a ∈ addrs L ++ addrs R ++ ctx_addrs ctx → a < n) →
  NoDup (addrs (promote ctx L up R n)).
Proof.
  induction ctx as [|f ctx IH]; intros L up R n Hnd Hlt; cbn [promote].
  - rewrite addrs_Nd. csimpl. unfold ctx_addrs in *. simpl in *.
    apply NoDup_cons. split; [|done]. intros Hin. apply Hlt in Hin. lia.
  - set (ks' := vector_insert _ _ _). set (cs' := fl f ++ _).
    assert (mjoin (addrs <$> cs') ++ fa f :: ctx_addrs ctx
            ≡ₚ addrs L ++ addrs R ++ ctx_addrs (f :: ctx)) as Hperm.
    { unfold cs'. rewrite ctx_addrs_cons. unfold frame_addrs.
      rewrite fmap_app, join_app. csimpl. solve_Permutation. }
    destruct (kOrder <=? _).
    + assert (addrs (split_left (fa f) ks' cs') ++ addrs (split_right n ks' cs') ++ ctx_addrs ctx
              ≡ₚ n :: addrs L ++ addrs R ++ ctx_addrs (f :: ctx)) as Hperm'.
      { rewrite (assoc_L (++)), addrs_split, <- Hperm. solve_Permutation. }
      apply IH.
      * rewrite Hperm'. apply NoDup_cons. split; [|done].
        intros Hin. apply Hlt in Hin. lia.
      * intros a. rewrite Hperm'. intros [->|Hin]%elem_of_cons; [lia|].
        apply Hlt in Hin. lia.
    + rewrite addrs_plug, addrs_Nd.
      eapply NoDup_Permutation_proper; [|exact Hnd]. rewrite <- Hperm. solve_Permutation.
Qed.

(** ** The insertion-sort step of [insert] *)

Lemma swap_adjacent {A} (p : list A) n x y s :
  n = length p →
  <[S n := x]> (<[n := y]> (p ++ x :: y :: s)) = p ++ y :: x :: s.
Proof.
  intros ->. rewrite (insert_app_r_alt p) by lia. rewrite Nat.sub_diag. simpl.
  rewrite (insert_app_r_alt p) by lia.
  by replace (S (length p) - length p) with 1 by lia.
Qed.

(** The appended key sinks past the keys greater than it and stops at the
    first key that is not. *)
Lemma bubble_spec key value A2 : ∀ A1 VA1 VA2 B VB,
  length VA1 = length A1 → length VA2 = length A2 →
  Forall (λ k, (key < k)%Z) A2 →
  match last A1 with Some x => (x ≤ key)%Z | None => True end →
  bubble (length (A1 ++ A2)) ((A1 ++ A2) ++ key :: B) ((VA1 ++ VA2) ++ value :: VB)
  = Some (A1 ++ key :: A2 ++ B, VA1 ++ value :: VA2 ++ VB).
Proof.
  induction A2 as [|y A2 IH] using rev_ind; intros A1 VA1 VA2 B VB H1 H2 Hgt Hlast.
  - destruct VA2; [|done]. rewrite !(right_id_L [] (++)).
    destruct (last A1) as [x|] eqn:Hl.
    + apply last_Some in Hl as [A1' ->].
      rewrite length_app in H1. simpl in H1.
      destruct VA1 as [|w VA1 _] using rev_ind; [simpl in H1; lia|].
      rewrite length_app in *. simpl in *.
      replace (length A1' + 1) with (S (length A1')) by lia. cbn [bubble].
      rewrite <- !(assoc_L (++)). simpl.
      rewrite (list_lookup_middle A1' _ x (length A1')) by done.
      rewrite (lookup_app_r A1') by lia.
      replace (S (length A1') - length A1') with 1 by lia. simpl.
      destruct (Z.ltb_spec key x); [lia|done].
    + apply last_None in Hl as ->. by destruct VA1.
  - destruct VA2 as [|w VA2 _] using rev_ind.
    { rewrite length_app in H2. simpl in H2. lia. }
    rewrite !length_app in H2. simpl in H2.
    apply Forall_app in Hgt as [Hgt Hy]. rewrite Forall_singleton in Hy.
    rewrite !(assoc_L (++) A1), !(assoc_L (++) VA1).
    rewrite <- !(assoc_L (++) (A1 ++ A2)), <- !(assoc_L (++) (VA1 ++ VA2)). simpl.
    rewrite (length_app (A1 ++ A2)). simpl.
    assert (length (VA1 ++ VA2) = length (A1 ++ A2)) as Hlen
      by (rewrite !length_app; lia).
    set (n := length (A1 ++ A2)) in *.
    replace (n + 1) with (S n) by lia. cbn [bubble].
    rewrite (list_lookup_middle (A1 ++ A2) _ y n) by done.
    rewrite (lookup_app_r (A1 ++ A2)) by (fold n; lia).
    replace (S n - length (A1 ++ A2)) with 1 by (fold n; lia). simpl.
    destruct (Z.ltb_spec key y); [|lia].
    rewrite (list_lookup_middle (VA1 ++ VA2) _ w n) by done.
    rewrite (lookup_app_r (VA1 ++ VA2)) by lia.
    replace (S n - length (VA1 ++ VA2)) with 1 by lia. simpl.
    rewrite !swap_adjacent by done.
    unfold n. rewrite IH; [|done|lia|done|done].
    by rewrite <- !(assoc_L (++)).
Qed.

Lemma findLeaf_index_le ks key : findLeaf_index ks key ≤ length ks.
Proof. induction ks as [|k ks IH]; simpl; [done|]. destruct (k <=? key)%Z; lia. Qed.

Lemma findLeaf_index_take ks key :
  Forall (λ k, (k ≤ key)%Z) (take (findLeaf_index ks key) ks).
Proof.
  induction ks as [|k ks IH]; simpl; [done|].
  destruct (Z.leb_spec k key); simpl; [by constructor|done].
Qed.

Lemma findLeaf_index_drop ks key :
  StronglySorted Z.lt ks → Forall (λ k, (key < k)%Z) (drop (findLeaf_index ks key) ks).
Proof.
  induction 1 as [|k ks Hs IH Hk]; simpl; [done|].
  destruct (Z.leb_spec k key); simpl; [done|].
  constructor; [done|]. eapply Forall_impl; [exact Hk|]. simpl. lia.
Qed.

Lemma bubble_sorted ks vs key value :
  StronglySorted Z.lt ks → length vs = length ks →
  bubble (length ks) (ks ++ [key]) (vs ++ [value])
  = Some (vector_insert (findLeaf_index ks key) key ks,
          vector_insert (findLeaf_index ks key) value vs).
Proof.
  intros Hs Hlen. set (i := findLeaf_index ks key).
  pose proof (findLeaf_index_le ks key) as Hi. fold i in Hi.
  rewrite <- (take_drop i ks) at 1 2. rewrite <- (take_drop i vs) at 1.
  rewrite bubble_spec.
  - unfold vector_insert. by rewrite !(right_id_L [] (++)).
  - rewrite !length_take. lia.
  - rewrite !length_drop. lia.
  - by apply findLeaf_index_drop.
  - pose proof (findLeaf_index_take ks key) as Ht. fold i in Ht.
    destruct (last (take i ks)) as [x|] eqn:Hl; [|done].
    apply last_Some in Hl as [l' Hl]. rewrite Hl in Ht.
    apply Forall_app in Ht as [_ Ht]. by rewrite Forall_singleton in Ht.
Qed.

(** ** A leaf after the insertion of a key *)

Lemma vector_insert_sorted ks key :
  StronglySorted Z.lt ks → key ∉ ks →
  StronglySorted Z.lt (vector_insert (findLeaf_index ks key) key ks).
Proof.
  intros Hs Hkey. unfold vector_insert.
  pose proof (findLeaf_index_take ks key) as Ht.
  pose proof (findLeaf_index_drop ks key Hs) as Hd.
  set (i := findLeaf_index ks key) in *.
  rewrite <- (take_drop i ks) in Hs. apply StronglySorted_app in Hs as (_ & Hs1 & Hs2).
  apply StronglySorted_app_2; [|done|by constructor].
  intros x1 x2 H1 H2. rewrite Forall_forall in Ht, Hd.
  assert (x1 < key)%Z.
  { pose proof (Ht _ H1). assert (x1 ≠ key); [|lia].
    intros ->. apply Hkey. by eapply subseteq_take. }
  apply elem_of_cons in H2 as [->|H2]; [done|]. apply Hd in H2. lia.
Qed.

Lemma vector_insert_Forall {A} (P : A → Prop) i x l :
  Forall P l → P x → Forall P (vector_insert i x l).
Proof.
  intros Hl Hx. unfold vector_insert. apply Forall_app. split; [by apply Forall_take|].
  constructor; [done|by apply Forall_drop].
Qed.

Lemma zip_take_drop (ks vs : list Z) i :
  zip (take i ks) (take i vs) ++ zip (drop i ks) (drop i vs) = zip ks vs.
Proof. by rewrite <- zip_with_take, <- zip_with_drop, take_drop. Qed.

Lemma assoc_zip_notin key ks vs : key ∉ ks → assoc key (zip ks vs) = None.
Proof.
  intros Hk. apply assoc_None. intros Hin.
  apply list_elem_of_fmap in Hin as ([k v] & -> & Hin). by apply elem_of_zip_l in Hin.
Qed.

Lemma assoc_vector_insert ks vs key value i :
  length vs = length ks → key ∉ take i ks →
  ∀ k, assoc k (zip (vector_insert i key ks) (vector_insert i value vs))
       = if decide (k = key) then Some value else assoc k (zip ks vs).
Proof.
  intros Hlen Hkey k. unfold vector_insert.
  rewrite zip_with_app by (rewrite !length_take; lia).
  pose proof (zip_take_drop ks vs i) as HH. rewrite <- HH. rewrite !assoc_app. simpl.
  case_decide as Hk.
  - subst k. rewrite assoc_zip_notin by done. by rewrite Z.eqb_refl.
  - destruct (assoc k (zip (take i ks) (take i vs))); [done|].
    destruct (Z.eqb_spec key k); [congruence|done].
Qed.

Lemma assoc_update ks : ∀ vs key value i,
  scan_key ks key = Some i →
  ∀ k, assoc k (zip ks (<[i := value]> vs))
       = if decide (k = key) then (λ _, value) <$> vs !! i else assoc k (zip ks vs).
Proof.
  induction ks as [|k0 ks IH]; intros vs key value i Hscan k; [done|].
  simpl in Hscan. destruct vs as [|v vs].
  { simpl. case_decide; [|done]. by destruct i. }
  destruct (Z.eqb_spec k0 key) as [->|Hne].
  - injection Hscan as <-. simpl. case_decide as Hk.
    + subst k. by rewrite Z.eqb_refl.
    + destruct (Z.eqb_spec key k); [congruence|done].
  - apply fmap_Some in Hscan as (j & Hj & ->). simpl.
    rewrite (IH vs key value j Hj k).
    destruct (Z.eqb_spec k0 k) as [->|Hne']; [|done].
    by rewrite decide_False by congruence.
Qed.

(** The two halves of a full leaf. *)
Lemma wf_leaf_split lo hi a n ks vs nx :
  length ks = kOrder → length vs = length ks →
  StronglySorted Z.lt ks → Forall (in_range lo hi) ks →
  wf lo (Some (leaf_key ks)) (leaf_left a ks vs n)
  ∧ wf (Some (leaf_key ks)) hi (leaf_right n ks vs nx)
  ∧ lo_lt lo (leaf_key ks) ∧ lt_hi (leaf_key ks) hi.
Proof.
  intros Hk Hv Hs Hr.
  destruct ks as [|k1 [|k2 [|k3 [|k4 [|]]]]]; try done.
  destruct vs as [|v1 [|v2 [|v3 [|v4 [|]]]]]; try done.
  apply StronglySorted_inv in Hs as [Hs H1].
  apply StronglySorted_inv in Hs as [Hs H2].
  apply StronglySorted_inv in Hs as [Hs H3].
  decompose_Forall_hyps. unfold in_range in *. destruct_and?.
  unfold leaf_key, leaf_left, leaf_right, kOrder. simpl.
  change (4 / 2) with 2. simpl.
  assert (lo_lt lo k3) by (eapply lo_le_lt; [exact H0|lia]).
  split_and!; try done; try lia.
  all: repeat first [done | lia | constructor].
Qed.

Lemma entries_leaf_split a n ks vs nx :
  entries (leaf_left a ks vs n) ++ entries (leaf_right n ks vs nx) = zip ks vs.
Proof. unfold leaf_left, leaf_right. rewrite !entries_Lf. apply zip_take_drop. Qed.

Lemma wf_ctx_shape ctx : ∀ X lo hi, wf lo hi (plug ctx X) → ctx_shape ctx.
Proof.
  induction ctx as [|f ctx IH]; intros X lo hi H; [by constructor|].
  simpl in H. constructor; [|by eapply IH].
  destruct (wf_plug ctx _ _ _ H) as (lo1 & hi1 & [_ Hf] & _).
  apply wf_children_length in Hf. rewrite length_app in Hf. simpl in Hf. lia.
Qed.

(** ** Entries around the hole of a context *)

Lemma entries_of_app l1 l2 : entries_of (l1 ++ l2) = entries_of l1 ++ entries_of l2.
Proof. unfold entries_of. by rewrite fmap_app, join_app. Qed.

Lemma keys_of_app l1 l2 : keys_of (l1 ++ l2) = keys_of l1 ++ keys_of l2.
Proof. unfold keys_of. by rewrite fmap_app, join_app. Qed.

Lemma entries_plug ctx X :
  entries (plug ctx X)
  = entries_of (ctx_before ctx) ++ entries X ++ entries_of (ctx_after ctx).
Proof.
  change (entries (plug ctx X)) with (entries_of (leaf_seq (plug ctx X))).
  by rewrite leaf_seq_plug, !entries_of_app.
Qed.

Lemma keys_plug ctx X :
  keys (plug ctx X) = keys_of (ctx_before ctx) ++ keys X ++ keys_of (ctx_after ctx).
Proof.
  change (keys (plug ctx X)) with (keys_of (leaf_seq (plug ctx X))).
  by rewrite leaf_seq_plug, !keys_of_app.
Qed.

Lemma entries_promote ctx L up R n :
  entries (promote ctx L up R n)
  = entries_of (ctx_before ctx) ++ (entries L ++ entries R) ++ entries_of (ctx_after ctx).
Proof.
  change (entries (promote ctx L up R n)) with (entries_of (leaf_seq (promote ctx L up R n))).
  rewrite leaf_seq_promote, !entries_of_app. by rewrite <- !(assoc_L (++)).
Qed.

Lemma entries_of_keys_of ls k : k ∈ (entries_of ls).*1 → k ∈ keys_of ls.
Proof.
  unfold entries_of, keys_of. induction ls as [|l ls IH]; csimpl; [done|].
  rewrite fmap_app, !elem_of_app. intros [Hk|Hk]; [left|right; by apply IH].
  destruct l as [a ks vs nx|]; simpl in *; [|done].
  apply list_elem_of_fmap in Hk as ([k' v] & -> & Hk). by eapply elem_of_zip_l.
Qed.

Lemma assoc_frame Eb E E' Ea key value :
  assoc key Eb = None →
  (∀ k, assoc k E' = if decide (k = key) then Some value else assoc k E) →
  ∀ k, assoc k (Eb ++ E' ++ Ea)
       = if decide (k = key) then Some value else assoc k (Eb ++ E ++ Ea).
Proof.
  intros Hb HE k. rewrite !assoc_app, HE. case_decide; [|done]. subst. by rewrite Hb.
Qed.

Lemma assoc_before_None lo hi ctx a ks vs nx key :
  wf lo hi (plug ctx (Lf a ks vs nx)) →
  assoc key (entries (plug ctx (Lf a ks vs nx))) = assoc key (zip ks vs) →
  assoc key (entries_of (ctx_before ctx)) = None.
Proof.
  intros Hwf Has. destruct (decide (key ∈ ks)) as [Hin|Hout].
  - apply wf_keys in Hwf as [Hs _]. rewrite keys_plug, keys_Lf in Hs.
    apply assoc_None. intros Hb. apply entries_of_keys_of in Hb.
    assert (key < key)%Z; [|lia].
    eapply StronglySorted_app_1_elem_of; [exact Hs|done|].
    apply elem_of_app. by left.
  - rewrite (assoc_zip_notin key ks vs Hout) in Has.
    rewrite entries_plug, assoc_app in Has.
    by destruct (assoc key (entries_of (ctx_before ctx))).
Qed.

(** ** What [findLeaf] finds in a well-formed tree *)

Lemma descend_inv s T key :
  tree_inv s T →
  ∃ ctx a ks vs nx lo hi,
    T = plug ctx (Lf a ks vs nx)
    ∧ findLeaf s key = Some (Some a)
    ∧ store s !! a = Some (BPlusLeafNode ks vs nx)
    ∧ wf lo hi (Lf a ks vs nx)
    ∧ in_range lo hi key
    ∧ (∀ X', wf lo hi X' → wf None None (plug ctx X'))
    ∧ (∀ L R up n,
         wf lo (Some up) L → wf (Some up) hi R → lo_lt lo up → lt_hi up hi →
         wf None None (promote ctx L up R n))
    ∧ assoc key (entries T) = assoc key (zip ks vs)
    ∧ assoc key (entries_of (ctx_before ctx)) = None.
Proof.
  intros (Hroot & Hrep & Hnd & Hwf & Hlk).
  destruct (findLeaf_loop_wf (store s) key T None None (length (store s)))
    as (ctx & a & ks & vs & nx & -> & Hp & Hfl & Has); [done|done| |done|].
  { by apply height_le_store. }
  destruct (wf_plug ctx _ _ _ Hwf) as (lo & hi & Hwl & Hrepl & Hprom & Hpath).
  exists ctx, a, ks, vs, nx, lo, hi. split_and!; try done.
  - unfold findLeaf. by rewrite Hroot.
  - apply rep_plug in Hrep as [Hl _]. by apply rep_Lf in Hl.
  - by apply Hpath.
  - by eapply assoc_before_None.
Qed.

Theorem search_inv s T key :
  tree_inv s T → search key s = Some (assoc key (entries T), s).
Proof.
  intros Hinv.
  destruct (descend_inv s T key Hinv)
    as (ctx & a & ks & vs & nx & lo & hi & -> & Hfl & Ha & Hwl & _ & _ & _ & Has & _).
  destruct Hinv as (Hroot & _). unfold search. rewrite Hroot, Hfl, Ha, Has.
  destruct Hwl as (Hlen & _). rewrite assoc_scan_key by done.
  destruct (scan_key ks key) as [i|] eqn:Hscan; [|done].
  apply scan_key_Some in Hscan as [Hi _]. apply lookup_lt_Some in Hi.
  rewrite <- Hlen in Hi. by destruct (lookup_lt_is_Some_2 vs i Hi) as [v ->].
Qed.

(** ** [insert] keeps the invariant *)

Lemma replace_leaf h ctx a ks vs nx ks' vs' :
  rep h (plug ctx (Lf a ks vs nx)) →
  NoDup (addrs (plug ctx (Lf a ks vs nx))) →
  rep (<[a := BPlusLeafNode ks' vs' nx]> h) (plug ctx (Lf a ks' vs' nx))
  ∧ NoDup (addrs (plug ctx (Lf a ks' vs' nx)))
  ∧ taddr (plug ctx (Lf a ks' vs' nx)) = taddr (plug ctx (Lf a ks vs nx)).
Proof.
  intros Hrep Hnd. pose proof (hole_not_in_ctx _ _ Hnd) as Ha.
  apply rep_plug in Hrep as [Hl Hctx]. apply rep_Lf in Hl. split_and!.
  - apply rep_plug. split.
    + apply rep_Lf. apply list_lookup_insert_eq. by eapply lookup_lt_Some.
    + by apply rep_ctx_insert_other.
  - by rewrite addrs_plug, addrs_Lf, <- (addrs_Lf a ks vs nx), <- addrs_plug.
  - by apply taddr_plug.
Qed.

Lemma linked_replace_leaf ctx a ks vs nx ks' vs' :
  linked (leaf_seq (plug ctx (Lf a ks vs nx))) None →
  linked (leaf_seq (plug ctx (Lf a ks' vs' nx))) None.
Proof. rewrite !leaf_seq_plug. simpl. by apply linked_replace. Qed.

Theorem insert_inv s T key value :
  tree_inv s T →
  ∃ s' T',
    insert key value s = Completed s'
    ∧ tree_inv s' T'
    ∧ ∀ k, assoc k (entries T') = if decide (k = key) then Some value else assoc k (entries T).
Proof.
  intros Hinv.
  destruct (descend_inv s T key Hinv)
    as (ctx & a & ks & vs & nx & lo & hi & -> & Hfl & Ha & Hwl & Hr & Hrepl & Hprom & Has & Hb).
  destruct Hinv as (Hroot & Hrep & Hnd & Hwf & Hlk).
  destruct s as [h r]. cbn [store root_] in *. subst r.
  unfold insert, insert_fuel. cbn [root_ store]. rewrite Hfl, Ha.
  destruct Hwl as (Hlen & Hsz & Hsort & Hrng).
  destruct (scan_key ks key) as [i|] eqn:Hscan.
  - (* the key is there: its value is overwritten *)
    pose proof (scan_key_Some _ _ _ Hscan) as [Hi _].
    apply lookup_lt_Some in Hi. rewrite <- Hlen in Hi.
    replace (i <? length vs) with true by (symmetry; by apply Nat.ltb_lt).
    destruct (replace_leaf h ctx a ks vs nx ks (<[i := value]> vs) Hrep Hnd)
      as (Hrep' & Hnd' & Hroot').
    eexists _, (plug ctx (Lf a ks (<[i := value]> vs) nx)). split_and!; [done| |].
    + split_and!; cbn [store root_]; [by rewrite Hroot'|done|done| |].
      * apply Hrepl. split_and!; [by rewrite length_insert|done|done|done].
      * by eapply linked_replace_leaf.
    + rewrite !entries_plug, !entries_Lf. apply assoc_frame; [done|].
      intros k. rewrite (assoc_update ks vs key value i Hscan).
      destruct (lookup_lt_is_Some_2 vs i Hi) as [v ->]. done.
  - (* a new key *)
    apply scan_key_None in Hscan.
    rewrite bubble_sorted by done.
    set (ks' := vector_insert (findLeaf_index ks key) key ks).
    set (vs' := vector_insert (findLeaf_index ks key) value vs).
    assert (length ks' = S (length ks)) as Hlk' by apply length_vector_insert.
    assert (length vs' = length ks') as Hlv'
      by (unfold vs'; rewrite length_vector_insert; lia).
    assert (StronglySorted Z.lt ks') as Hsort' by (by apply vector_insert_sorted).
    assert (Forall (in_range lo hi) ks') as Hrng' by (by apply vector_insert_Forall).
    assert (∀ k, assoc k (zip ks' vs')
                 = if decide (k = key) then Some value else assoc k (zip ks vs)) as Hassoc.
    { apply assoc_vector_insert; [done|]. intros Hin. apply Hscan.
      by eapply subseteq_take. }
    destruct (replace_leaf h ctx a ks vs nx ks' vs' Hrep Hnd) as (Hrep' & Hnd' & Hroot').
    destruct (kOrder <=? length ks') eqn:Hov.
    + (* the leaf is full and splits *)
      apply Nat.leb_le in Hov.
      assert (length ks' = kOrder) as Hfull by (unfold kOrder in *; lia).
      set (h1 := <[a := BPlusLeafNode ks' vs' nx]> h) in *.
      assert (length h1 = length h) as Hlh by apply length_insert.
      rewrite <- Hroot'.
      destruct (splitLeaf_promote ctx (length h) h1 a ks' vs' nx) as (h' & Hsplit & Hrep'');
        [done|done|by eapply wf_ctx_shape| | |lia|].
      { pose proof (length_ctx_lt_store _ _ _ Hrep Hnd). lia. }
      { rewrite Hlv'. apply Nat.Div0.div_le_upper_bound. lia. }
      rewrite Hlh in *.
      eexists _, _. split_and!; [exact Hsplit| |].
      * destruct (wf_leaf_split lo hi a (length h) ks' vs' nx) as (HwL & HwR & Hlo & Hhi);
          [done|done|done|done|].
        split_and!; cbn [store root_]; [done|done| | |].
        -- apply promote_addrs.
           ++ unfold leaf_left, leaf_right. rewrite !addrs_Lf.
              rewrite addrs_plug, addrs_Lf in Hnd.
              assert (length h ∉ a :: ctx_addrs ctx) as Hfresh.
              { intros Hin. assert (length h < length h); [|lia].
                eapply (rep_addrs h); [exact Hrep|].
                by rewrite addrs_plug, addrs_Lf. }
              apply not_elem_of_cons in Hfresh as [? ?].
              apply NoDup_cons in Hnd as [? ?]. simpl.
              apply NoDup_cons. split; [|by apply NoDup_cons].
              apply not_elem_of_cons. split; [done|done].
           ++ intros x Hx. unfold leaf_left, leaf_right in Hx. rewrite !addrs_Lf in Hx.
              simpl in Hx. apply elem_of_cons in Hx as [->|Hx].
              { assert (a < length h); [|lia].
                eapply (rep_addrs h); [exact Hrep|].
                rewrite addrs_plug, addrs_Lf. apply list_elem_of_here. }
              apply elem_of_cons in Hx as [->|Hx]; [lia|].
              assert (x < length h); [|lia].
              eapply (rep_addrs h); [exact Hrep|].
              rewrite addrs_plug, addrs_Lf. by apply list_elem_of_further.
        -- by apply Hprom.
        -- rewrite leaf_seq_promote. rewrite leaf_seq_plug in Hlk. simpl in *.
           by eapply linked_split.
      * rewrite entries_promote, entries_leaf_split, entries_plug, entries_Lf.
        by apply assoc_frame.
    + (* there is room in the leaf *)
      apply Nat.leb_gt in Hov.
      eexists _, (plug ctx (Lf a ks' vs' nx)). split_and!; [done| |].
      * split_and!; cbn [store root_]; [by rewrite Hroot'|done|done| |].
        -- apply Hrepl. split_and!; [done|done|done|done].
        -- by eapply linked_replace_leaf.
      * rewrite !entries_plug, !entries_Lf. by apply assoc_frame.
Qed.

(** ** Reachable trees satisfy the invariant *)

Lemma insert_empty key value :
  insert key value empty_tree
  = Completed (MkTree [BPlusLeafNode [key] [value] None] (Some 0)).
Proof. done. Qed.

Lemma tree_inv_single key value :
  tree_inv (MkTree [BPlusLeafNode [key] [value] None] (Some 0)) (Lf 0 [key] [value] None).
Proof.
  split_and!; cbn [store root_]; [done| | | |done].
  - by apply rep_Lf.
  - rewrite addrs_Lf. apply NoDup_singleton.
  - simpl. split_and!; [done|unfold kOrder; lia|repeat constructor|by repeat constructor].
Qed.

Lemma inv_search t k : inv t → search k t = Some (found k t, t).
Proof.
  unfold found. intros [->|[T HT]]; [done|]. by rewrite (search_inv _ _ _ HT).
Qed.

Lemma inv_insert t key value :
  inv t →
  ∃ t', insert key value t = Completed t'
        ∧ inv t'
        ∧ ∀ k, found k t' = if decide (k = key) then Some value else found k t.
Proof.
  intros [->|[T HT]].
  - eexists. split; [apply insert_empty|]. split.
    + right. eexists. apply tree_inv_single.
    + intros k. unfold found.
      rewrite (search_inv _ _ _ (tree_inv_single key value)), entries_Lf. simpl.
      destruct (Z.eqb_spec key k); case_decide; congruence.
  - destruct (insert_inv t T key value HT) as (t' & T' & Hins & HT' & Has).
    exists t'. split; [done|]. split; [right; by exists T'|].
    intros k. unfold found.
    by rewrite (search_inv _ _ _ HT'), (search_inv _ _ _ HT).
Qed.

Lemma last_insert_cons k kv kvs :
  last_insert k (kv :: kvs)
  = match last_insert k kvs with
    | Some v => Some v
    | None => if decide (k = kv.1) then Some kv.2 else None
    end.
Proof.
  unfold last_insert. rewrite reverse_cons, assoc_app. destruct kv as [k' v']. simpl.
  destruct (Z.eqb_spec k' k); case_decide; congruence.
Qed.

Lemma inv_insert_all kvs : ∀ t,
  inv t →
  ∃ t', insert_all kvs t = Some t'
        ∧ inv t'
        ∧ ∀ k, found k t' = match last_insert k kvs with Some v => Some v | None => found k t end.
Proof.
  induction kvs as [|[key value] kvs IH]; intros t Ht.
  - exists t. by split_and!.
  - destruct (inv_insert t key value Ht) as (t1 & Hins & Ht1 & Hf1).
    destruct (IH t1 Ht1) as (t' & Hall & Ht' & Hf').
    exists t'. split_and!; [simpl; by rewrite Hins|done|].
    intros k. rewrite Hf', Hf1, last_insert_cons. simpl.
    destruct (last_insert k kvs); [done|]. by case_decide.
Qed.

Lemma inv_empty : inv empty_tree.
Proof. by left. Qed.

Lemma reachable_inv t : reachable t → inv t.
Proof.
  intros [kvs Hkvs].
  destruct (inv_insert_all kvs empty_tree inv_empty) as (t' & Hall & Ht' & _). congruence.
Qed.

Lemma last_insert_Some k kvs : k ∈ kvs.*1 → is_Some (last_insert k kvs).
Proof.
  intros Hin. unfold last_insert.
  destruct (assoc k (reverse kvs)) eqn:Has; [by eexists|].
  apply assoc_None in Has. exfalso. apply Has.
  by rewrite fmap_reverse, elem_of_reverse.
Qed.

(** ** Nodes found from the root are the nodes of the tree *)

Lemma subtrees_child t c a ks cs :
  t ∈ subtrees c → c ∈ cs → t ∈ subtrees (Nd a ks cs).
Proof.
  intros Ht Hc. simpl. apply list_elem_of_further, list_elem_of_join.
  exists (subtrees c). split; [done|]. by apply list_elem_of_fmap_2.
Qed.

Lemma subtrees_Nd t a ks cs :
  t ∈ subtrees (Nd a ks cs) ↔ t = Nd a ks cs ∨ ∃ c, c ∈ cs ∧ t ∈ subtrees c.
Proof.
  simpl. rewrite elem_of_cons, list_elem_of_join. split.
  - intros [->|(l & Ht & Hl)]; [by left|right].
    apply list_elem_of_fmap in Hl as (c & -> & Hc). by exists c.
  - intros [->|(c & Hc & Ht)]; [by left|right].
    exists (subtrees c). split; [done|]. by apply list_elem_of_fmap_2.
Qed.

Lemma subtrees_trans t1 t2 t3 : t1 ∈ subtrees t2 → t2 ∈ subtrees t3 → t1 ∈ subtrees t3.
Proof.
  revert t1 t2. induction t3 as [a ks vs nx|a ks cs IH] using tree_nested_ind; intros t1 t2 H1 H2.
  - simpl in H2. apply list_elem_of_singleton in H2 as ->. done.
  - apply subtrees_Nd in H2 as [->|(c & Hc & H2)]; [done|].
    apply subtrees_Nd. right. exists c. split; [done|].
    rewrite Forall_forall in IH. by eapply IH.
Qed.

Lemma rep_subtree h T t : rep h T → t ∈ subtrees T → rep h t.
Proof. intros Hrep Ht t' Ht'. apply Hrep. by eapply subtrees_trans. Qed.

Lemma reaches_subtree h a b :
  reaches h a b → ∀ T, rep h T → taddr T = a →
  ∃ t, t ∈ subtrees T ∧ taddr t = b.
Proof.
  induction 1 as [a|a ks cs c b Ha Hc _ IH]; intros T Hrep HT.
  - exists T. split; [apply subtrees_self|done].
  - subst a. rewrite (rep_root _ _ Hrep) in Ha.
    destruct T as [|a ks' cs']; [done|]. simpl in Ha. injection Ha as -> <-.
    apply list_elem_of_fmap in Hc as (c' & -> & Hc').
    apply rep_Nd in Hrep as [_ Hcs]. rewrite Forall_forall in Hcs.
    destruct (IH c' (Hcs _ Hc') eq_refl) as (t & Ht & Hb).
    exists t. split; [by eapply subtrees_child|done].
Qed.

Lemma subtree_reaches h T : ∀ t, rep h T → t ∈ subtrees T → reaches h (taddr T) (taddr t).
Proof.
  induction T as [a ks vs nx|a ks cs IH] using tree_nested_ind; intros t Hrep Ht.
  - simpl in Ht. apply list_elem_of_singleton in Ht as ->. constructor.
  - apply subtrees_Nd in Ht as [->|(c & Hc & Ht)]; [constructor|].
    apply rep_Nd in Hrep as [Ha Hcs]. rewrite Forall_forall in IH, Hcs.
    eapply reaches_child; [exact Ha|by apply list_elem_of_fmap_2|].
    by apply IH; [|apply Hcs|].
Qed.

Lemma in_tree_subtree_rep s T a :
  root_ s = Some (taddr T) → rep (store s) T →
  in_tree s a ↔ ∃ t, t ∈ subtrees T ∧ taddr t = a.
Proof.
  intros Hroot Hrep. split.
  - intros (r & Hr & Hreach). rewrite Hroot in Hr. injection Hr as <-.
    by eapply reaches_subtree.
  - intros (t & Ht & <-). exists (taddr T). split; [done|]. by apply subtree_reaches.
Qed.

Lemma in_tree_subtree s T a :
  tree_inv s T → in_tree s a ↔ ∃ t, t ∈ subtrees T ∧ taddr t = a.
Proof. intros (Hroot & Hrep & _). by apply in_tree_subtree_rep. Qed.

Lemma subtree_addr_inj T t1 t2 :
  NoDup (addrs T) → t1 ∈ subtrees T → t2 ∈ subtrees T → taddr t1 = taddr t2 → t1 = t2.
Proof.
  unfold addrs. intros Hnd H1 H2 Heq.
  apply list_elem_of_lookup in H1 as [i1 H1]. apply list_elem_of_lookup in H2 as [i2 H2].
  assert (i1 = i2) as ->; [|congruence].
  eapply NoDup_lookup; [exact Hnd| |]; rewrite list_lookup_fmap.
  - by rewrite H1.
  - rewrite H2. simpl. by rewrite Heq.
Qed.

(** ** Subtrees of a well-formed tree *)

Lemma wf_children_elem P lo hi ks cs c :
  wf_children P lo hi ks cs → c ∈ cs →
  ∃ lo' hi', P lo' hi' c ∧ ∀ k, in_range lo' hi' k → in_range lo hi k.
Proof.
  revert lo ks. induction cs as [|c0 cs IH]; intros lo ks H Hc; [by apply elem_of_nil in Hc|].
  destruct ks as [|k ks].
  - apply wf_children_nil in H as [-> H]. apply list_elem_of_singleton in Hc as ->.
    by exists lo, hi.
  - apply wf_children_cons in H as (Hc0 & Hlo & Hhi & Hr).
    apply elem_of_cons in Hc as [->|Hc].
    + exists lo, (Some k). split; [done|]. intros x Hx. by eapply in_range_left.
    + destruct (IH _ _ Hr Hc) as (lo' & hi' & HP & Hin).
      exists lo', hi'. split; [done|]. intros x Hx. eapply in_range_right; [by apply Hin|done].
Qed.

Lemma lo_lt_lo_le lo k : lo_lt lo k → lo_le lo k.
Proof. destruct lo; simpl; [lia|done]. Qed.

Lemma wf_children_keys_range P lo hi ks cs :
  wf_children P lo hi ks cs →
  StronglySorted Z.lt ks ∧ Forall (λ k, lo_lt lo k ∧ lt_hi k hi) ks.
Proof.
  revert lo ks. induction cs as [|c cs IH]; intros lo ks H; [by destruct ks|].
  destruct ks as [|k ks]; [by split; constructor|].
  apply wf_children_cons in H as (_ & Hlo & Hhi & Hr).
  destruct (IH _ _ Hr) as [Hs Hrng]. split.
  - constructor; [done|]. eapply Forall_impl; [exact Hrng|]. by intros x [? _].
  - constructor; [done|].
    eapply Forall_impl; [exact Hrng|]. intros x [Hx ?]. split; [|done].
    simpl in Hx. by eapply lo_lt_trans.
Qed.

Lemma wf_subtree T : ∀ lo hi t,
  wf lo hi T → t ∈ subtrees T →
  ∃ lo' hi', wf lo' hi' t ∧ ∀ k, in_range lo' hi' k → in_range lo hi k.
Proof.
  induction T as [a ks vs nx|a ks cs IH] using tree_nested_ind; intros lo hi t Hwf Ht.
  - simpl in Ht. apply list_elem_of_singleton in Ht as ->. by exists lo, hi.
  - apply subtrees_Nd in Ht as [->|(c & Hc & Ht)]; [by exists lo, hi|].
    destruct Hwf as [_ Hcs].
    destruct (wf_children_elem wf _ _ _ _ _ Hcs Hc) as (lo1 & hi1 & Hwc & Hin1).
    rewrite Forall_forall in IH.
    destruct (IH c Hc _ _ _ Hwc Ht) as (lo' & hi' & Hwt & Hin').
    exists lo', hi'. split; [done|]. by auto.
Qed.

Lemma wf_tkeys lo hi t : wf lo hi t → StronglySorted Z.lt (tkeys t) ∧ Forall (in_range lo hi) (tkeys t).
Proof.
  destruct t as [a ks vs nx|a ks cs]; simpl.
  - by intros (_ & _ & ? & ?).
  - intros [_ H]. apply wf_children_keys_range in H as [Hs Hr]. split; [done|].
    eapply Forall_impl; [exact Hr|]. intros x [? ?]. split; [by apply lo_lt_lo_le|done].
Qed.

(** ** Leaves and keys *)

Lemma leaf_seq_subtrees T : ∀ t, t ∈ leaf_seq T ↔ t ∈ subtrees T ∧ ∃ a ks vs nx, t = Lf a ks vs nx.
Proof.
  induction T as [a ks vs nx|a ks cs IH] using tree_nested_ind; intros t.
  - simpl. rewrite !list_elem_of_singleton. naive_solver.
  - rewrite leaf_seq_Nd, subtrees_Nd, list_elem_of_join. rewrite Forall_forall in IH. split.
    + intros (l & Ht & Hl). apply list_elem_of_fmap in Hl as (c & -> & Hc).
      apply IH in Ht as [Ht Hlf]; [|done]. split; [right; by exists c|done].
    + intros [[->|(c & Hc & Ht)] (a' & ks' & vs' & nx' & Hlf)]; [done|].
      exists (leaf_seq c). split; [|by apply list_elem_of_fmap_2].
      apply IH; [done|]. split; [done|]. by eauto.
Qed.

Lemma keys_of_elem ls k : k ∈ keys_of ls ↔ ∃ l, l ∈ ls ∧ k ∈ leaf_keys l.
Proof.
  unfold keys_of. rewrite list_elem_of_join. split.
  - intros (l & Hk & Hl). apply list_elem_of_fmap in Hl as (t & -> & Ht). by exists t.
  - intros (t & Ht & Hk). exists (leaf_keys t). split; [done|]. by apply list_elem_of_fmap_2.
Qed.

Lemma keys_elem T k :
  k ∈ keys T ↔ ∃ a ks vs nx, Lf a ks vs nx ∈ subtrees T ∧ k ∈ ks.
Proof.
  change (keys T) with (keys_of (leaf_seq T)). rewrite keys_of_elem. split.
  - intros (l & Hl & Hk). apply leaf_seq_subtrees in Hl as [Hl (a & ks & vs & nx & ->)].
    by exists a, ks, vs, nx.
  - intros (a & ks & vs & nx & Hl & Hk). exists (Lf a ks vs nx). split; [|done].
    apply leaf_seq_subtrees. split; [done|]. by eauto.
Qed.

Lemma StronglySorted_lt_NoDup (l : list Z) : StronglySorted Z.lt l → NoDup l.
Proof.
  induction 1 as [|x l _ IH Hx]; constructor; [|done].
  intros Hin. rewrite Forall_forall in Hx. apply Hx in Hin. lia.
Qed.

Lemma sorted_leaves_disjoint ls l1 l2 k :
  StronglySorted Z.lt (keys_of ls) →
  l1 ∈ ls → l2 ∈ ls → k ∈ leaf_keys l1 → k ∈ leaf_keys l2 → l1 = l2.
Proof.
  induction ls as [|l ls IH]; intros Hs H1 H2 Hk1 Hk2; [by apply elem_of_nil in H1|].
  change (keys_of (l :: ls)) with (leaf_keys l ++ keys_of ls) in Hs.
  pose proof (StronglySorted_app_1_elem_of _ _ _ k k Hs) as Hlt.
  apply StronglySorted_app in Hs as (_ & _ & Hs).
  apply elem_of_cons in H1 as [->|H1], H2 as [->|H2]; [done| | |by apply IH].
  - assert (k < k)%Z; [|lia]. apply Hlt; [done|]. apply keys_of_elem. by exists l2.
  - assert (k < k)%Z; [|lia]. apply Hlt; [done|]. apply keys_of_elem. by exists l1.
Qed.

Lemma entries_fst T : ∀ lo hi, wf lo hi T → (entries T).*1 = keys T.
Proof.
  induction T as [a ks vs nx|a ks cs IH] using tree_nested_ind; intros lo hi Hwf.
  - rewrite entries_Lf, keys_Lf. destruct Hwf as (Hlen & _). apply fst_zip. lia.
  - rewrite entries_Nd, keys_Nd, fmap_join_list. f_equal.
    rewrite <- list_fmap_compose. apply list_fmap_ext.
    intros i c Hc. simpl. destruct Hwf as [_ Hcs].
    apply list_elem_of_lookup_2 in Hc.
    destruct (wf_children_elem wf _ _ _ _ _ Hcs Hc) as (lo' & hi' & Hwc & _).
    rewrite Forall_forall in IH. by eapply IH.
Qed.

Lemma hole_subtree ctx : ∀ X, X ∈ subtrees (plug ctx X).
Proof.
  induction ctx as [|f ctx IH]; intros X; simpl; [apply subtrees_self|].
  eapply subtrees_trans; [|apply IH].
  unfold fill. eapply subtrees_child; [apply subtrees_self|].
  apply elem_of_app. right. apply list_elem_of_here.
Qed.

Lemma stored_keys s T k : tree_inv s T → stored s k ↔ k ∈ keys T.
Proof.
  intros HT. pose proof HT as (Hroot & Hrep & _). rewrite keys_elem. split.
  - intros (leaf & ks & vs & nx & Hin & Hleaf & Hk).
    apply (in_tree_subtree _ _ _ HT) in Hin as (t & Ht & <-).
    rewrite (Hrep _ Ht) in Hleaf. destruct t as [a ks' vs' nx'|]; [|done].
    simpl in Hleaf. injection Hleaf as -> -> ->. by exists a, ks, vs, nx.
  - intros (a & ks & vs & nx & Ht & Hk). exists a, ks, vs, nx. split_and!; [|by apply (Hrep _ Ht)|done].
    apply (in_tree_subtree _ _ _ HT). by exists (Lf a ks vs nx).
Qed.

Lemma leaf_entry_subtree s T leaf i k v :
  tree_inv s T → leaf_entry s leaf i k v ↔
  ∃ ks vs nx, Lf leaf ks vs nx ∈ subtrees T ∧ ks !! i = Some k ∧ vs !! i = Some v.
Proof.
  intros HT. pose proof HT as (Hroot & Hrep & _). split.
  - intros (Hin & ks & vs & nx & Hleaf & Hk & Hv).
    apply (in_tree_subtree _ _ _ HT) in Hin as (t & Ht & <-).
    rewrite (Hrep _ Ht) in Hleaf. destruct t as [a ks' vs' nx'|]; [|done].
    simpl in Hleaf. injection Hleaf as -> -> ->. by exists ks, vs, nx.
  - intros (ks & vs & nx & Ht & Hk & Hv). split.
    + apply (in_tree_subtree _ _ _ HT). by exists (Lf leaf ks vs nx).
    + exists ks, vs, nx. split; [by apply (Hrep _ Ht)|done].
Qed.

(** ** Overwriting an existing key *)

Lemma insert_existing t key v0 value :
  found key t = Some v0 →
  ∃ leaf ks vs nx i,
    store t !! leaf = Some (BPlusLeafNode ks vs nx)
    ∧ ks !! i = Some key ∧ vs !! i = Some v0
    ∧ insert key value t
      = Completed (MkTree (<[leaf := BPlusLeafNode ks (<[i := value]> vs) nx]> (store t))
                          (root_ t)).
Proof.
  unfold found, search, insert, insert_fuel.
  destruct (root_ t) as [r|]; [|done].
  destruct (findLeaf t key) as [[leaf|]|]; [|done|done].
  destruct (store t !! leaf) as [[ks vs nx|]|] eqn:Hleaf; [|done|done].
  destruct (scan_key ks key) as [i|] eqn:Hscan; [|done].
  destruct (vs !! i) as [v|] eqn:Hv; [|done].
  intros [= ->]. exists leaf, ks, vs, nx, i.
  apply scan_key_Some in Hscan as [Hk _]. split_and!; [done|done|done|].
  apply lookup_lt_Some in Hv.
  by replace (i <? length vs) with true by (symmetry; by apply Nat.ltb_lt).
Qed.

(** ** Child ranges and the path of [findLeaf] *)

Lemma wf_children_lookup P cs : ∀ lo hi ks i c,
  wf_children P lo hi ks cs → cs !! i = Some c →
  ∃ lo' hi',
    P lo' hi' c
    ∧ (i = 0 → lo' = lo)
    ∧ (∀ j k0, i = S j → ks !! j = Some k0 → lo' = Some k0)
    ∧ (∀ k1, ks !! i = Some k1 → hi' = Some k1).
Proof.
  induction cs as [|c0 cs IH]; intros lo hi ks i c H Hc; [done|].
  destruct ks as [|k ks].
  - apply wf_children_nil in H as [-> H]. destruct i; [|done]. simpl in Hc.
    injection Hc as ->. exists lo, hi. by split_and!.
  - apply wf_children_cons in H as (Hc0 & Hlo & Hhi & Hr). destruct i as [|i].
    + simpl in Hc. injection Hc as ->. exists lo, (Some k).
      split_and!; try done; try (simpl; by intros k1 [= ->]).
    + simpl in Hc. destruct (IH _ _ _ _ _ Hr Hc) as (lo' & hi' & HP & H0 & HS & Hhi').
      exists lo', hi'. split_and!; [done|done| |done].
      intros j k0 [= <-] Hk0. destruct i as [|i].
      * simpl in Hk0. injection Hk0 as <-. by apply H0.
      * simpl in Hk0. by eapply HS.
Qed.

Lemma wf_subtree_keys T lo hi t k :
  wf lo hi T → t ∈ subtrees T → k ∈ tkeys t → in_range lo hi k.
Proof.
  intros Hwf Ht Hk. destruct (wf_subtree T _ _ _ Hwf Ht) as (lo' & hi' & Hwt & Hin).
  apply Hin. apply wf_tkeys in Hwt as [_ Hr]. rewrite Forall_forall in Hr. by apply Hr.
Qed.

Lemma node_keys_of t : node_keys (node_of t) = tkeys t.
Proof. by destruct t. Qed.

Lemma findLeaf_index_range ks key : range_index ks key (findLeaf_index ks key).
Proof.
  split_and!; [apply findLeaf_index_le| |].
  - induction ks as [|k ks IH]; intros k0; simpl; [done|].
    destruct (Z.leb_spec k key); simpl; [apply IH|]. intros [= <-]. done.
  - induction ks as [|k ks IH]; intros j k0; simpl; [done|].
    destruct (Z.leb_spec k key); [|done]. intros [= <-].
    destruct ks as [|k' ks]; simpl in *; [by intros [= <-]|].
    destruct (Z.leb_spec k' key); simpl.
    + by eapply IH.
    + by intros [= <-].
Qed.

Lemma sorted_lookup_lt (l : list Z) i j x y :
  StronglySorted Z.lt l → l !! i = Some x → l !! j = Some y → i < j → (x < y)%Z.
Proof.
  intros Hs. revert i j. induction Hs as [|z l _ IH Hz]; intros i j Hi Hj Hlt; [done|].
  destruct j as [|j]; [lia|]. simpl in Hj. destruct i as [|i].
  - simpl in Hi. injection Hi as ->. rewrite Forall_forall in Hz.
    by eapply Hz, list_elem_of_lookup_2.
  - simpl in Hi. eapply IH; [done|done|lia].
Qed.

Lemma range_index_unique ks key i :
  StronglySorted Z.lt ks → range_index ks key i → i = findLeaf_index ks key.
Proof.
  intros Hs [Hi [Hhi Hlo]].
  destruct (findLeaf_index_range ks key) as [Hi' [Hhi' Hlo']].
  set (i' := findLeaf_index ks key) in *.
  destruct (Nat.lt_trichotomy i i') as [Hlt|[Heq|Hgt]]; [|done|]; exfalso.
  - destruct i' as [|j']; [lia|].
    destruct (lookup_lt_is_Some_2 ks i) as [x Hx]; [lia|].
    destruct (lookup_lt_is_Some_2 ks j') as [y Hy]; [lia|].
    pose proof (Hhi _ Hx). pose proof (Hlo' _ _ eq_refl Hy).
    destruct (decide (i = j')) as [->|Hne]; [simplify_eq; lia|].
    pose proof (sorted_lookup_lt ks i j' x y Hs Hx Hy). lia.
  - destruct i as [|j]; [lia|].
    destruct (lookup_lt_is_Some_2 ks i') as [x Hx]; [lia|].
    destruct (lookup_lt_is_Some_2 ks j) as [y Hy]; [lia|].
    pose proof (Hhi' _ Hx). pose proof (Hlo _ _ eq_refl Hy).
    destruct (decide (i' = j)) as [->|Hne]; [simplify_eq; lia|].
    pose proof (sorted_lookup_lt ks i' j x y Hs Hx Hy). lia.
Qed.

Lemma findLeaf_loop_covers h key : ∀ fuel a b,
  findLeaf_loop fuel h (Some a) key = Some (Some b) →
  covers h key a b ∧ is_leaf h b.
Proof.
  induction fuel as [|fuel IH]; intros a b; simpl.
  - destruct (h !! a) as [[ks vs nx|ks cs]|] eqn:Ha; [|done|done].
    intros [= <-]. split; [constructor|by exists ks, vs, nx].
  - destruct (h !! a) as [[ks vs nx|ks cs]|] eqn:Ha; [| |done].
    + intros [= <-]. split; [constructor|by exists ks, vs, nx].
    + destruct (cs !! findLeaf_index ks key) as [c|] eqn:Hc; [|done].
      intros Hfl. apply IH in Hfl as [Hcov Hleaf]. split; [|done].
      eapply covers_child; [done|apply findLeaf_index_range|done|done].
Qed.

Lemma covers_findLeaf_loop h key a b :
  covers h key a b → is_leaf h b →
  (∀ a' ks cs, reaches h a a' → h !! a' = Some (BPlusInternalNode ks cs) →
               StronglySorted Z.lt ks) →
  ∀ fuel r, findLeaf_loop fuel h (Some a) key = Some r → r = Some b.
Proof.
  induction 1 as [a|a ks cs i c b Ha Hi Hc _ IH]; intros Hleaf Hsorted fuel r.
  - destruct Hleaf as (ks & vs & nx & Hb). destruct fuel; simpl; rewrite Hb; congruence.
  - destruct fuel as [|fuel]; simpl; rewrite Ha; [done|].
    assert (i = findLeaf_index ks key) as <-.
    { apply range_index_unique; [|done]. eapply Hsorted; [constructor|done]. }
    rewrite Hc. apply IH; [done|].
    intros a' ks' cs' Hreach. apply Hsorted.
    eapply reaches_child; [done|by eapply list_elem_of_lookup_2|done].
Qed.

Lemma in_tree_sorted s T a ks cs :
  tree_inv s T → in_tree s a → store s !! a = Some (BPlusInternalNode ks cs) →
  StronglySorted Z.lt ks.
Proof.
  intros HT Hin Ha. pose proof HT as (_ & Hrep & _ & Hwf & _).
  apply (in_tree_subtree _ _ _ HT) in Hin as (t & Ht & <-).
  rewrite (Hrep _ Ht) in Ha.
  destruct (wf_subtree T _ _ _ Hwf Ht) as (lo & hi & Hwt & _).
  apply wf_tkeys in Hwt as [Hs _]. rewrite <- node_keys_of in Hs.
  injection Ha as Ha. by rewrite Ha in Hs.
Qed.

(** ** The walk along the leaves *)

Lemma leftmost_loop_wf h T : ∀ lo hi fuel,
  wf lo hi T → rep h T → height T ≤ fuel →
  ∃ l rest, leaf_seq T = l :: rest ∧ leftmost_loop fuel h (taddr T) = Some (taddr l).
Proof.
  induction T as [a ks vs nx|a ks cs IH] using tree_nested_ind; intros lo hi fuel Hwf Hrep Hh.
  - apply rep_Lf in Hrep. exists (Lf a ks vs nx), []. split; [done|].
    destruct fuel; simpl; by rewrite Hrep.
  - destruct Hwf as [_ Hcs]. pose proof (wf_children_length _ _ _ _ _ Hcs) as Hlen.
    destruct cs as [|c cs]; [done|].
    destruct (wf_children_elem wf _ _ _ _ c Hcs) as (lo' & hi' & Hwc & _);
      [apply list_elem_of_here|].
    apply rep_Nd in Hrep as [Ha Hrcs]. apply Forall_cons in Hrcs as [Hrc _].
    apply Forall_cons in IH as [IHc _].
    destruct fuel as [|fuel]; [simpl in Hh; lia|].
    destruct (IHc lo' hi' fuel Hwc Hrc) as (l & rest & Hseq & Hlm).
    { simpl in Hh. lia. }
    exists l, (rest ++ mjoin (leaf_seq <$> cs)). split.
    + rewrite leaf_seq_Nd. csimpl. by rewrite Hseq.
    + simpl. rewrite Ha. csimpl. done.
Qed.

Lemma chain_keys_linked h ls : ∀ fuel,
  Forall (λ l, (∃ a ks vs nx, l = Lf a ks vs nx) ∧ h !! taddr l = Some (node_of l)) ls →
  linked ls None → length ls ≤ fuel →
  chain_keys fuel h (head_addr ls None) = Some (keys_of ls).
Proof.
  induction ls as [|l ls IH]; intros fuel Hls Hlk Hfuel; [by destruct fuel|].
  apply Forall_cons in Hls as [[(a & ks & vs & nx & ->) Hl] Hls].
  apply linked_cons in Hlk as [Hnx Hlk].
  destruct fuel as [|fuel]; [simpl in Hfuel; lia|].
  simpl in *. rewrite Hl, Hnx, IH; [done|done|done|lia].
Qed.

Lemma length_leaf_seq T : length (leaf_seq T) ≤ length (subtrees T).
Proof.
  induction T as [a ks vs nx|a ks cs IH] using tree_nested_ind; [done|].
  rewrite leaf_seq_Nd. simpl.
  enough (length (mjoin (leaf_seq <$> cs)) ≤ length (mjoin (subtrees <$> cs))) by lia.
  induction IH as [|c cs Hc _ IH]; csimpl; [done|]. rewrite !length_app. lia.
Qed.

Lemma leaf_seq_rep h T :
  rep h T →
  Forall (λ l, (∃ a ks vs nx, l = Lf a ks vs nx) ∧ h !! taddr l = Some (node_of l))
         (leaf_seq T).
Proof.
  intros Hrep. apply Forall_forall. intros l Hl.
  apply leaf_seq_subtrees in Hl as [Hl Hlf]. split; [done|by apply Hrep].
Qed.

Lemma walk_inv s T : tree_inv s T → walk s = Some (keys T).
Proof.
  intros (Hroot & Hrep & Hnd & Hwf & Hlk). unfold walk. rewrite Hroot.
  destruct (leftmost_loop_wf (store s) T None None (length (store s)))
    as (l & rest & Hseq & ->); [done|done|by apply height_le_store|].
  change (keys T) with (keys_of (leaf_seq T)).
  rewrite <- (chain_keys_linked (store s) (leaf_seq T) (length (store s))).
  - by rewrite Hseq.
  - by apply leaf_seq_rep.
  - done.
  - pose proof (length_leaf_seq T). pose proof (addrs_length_store _ _ Hrep Hnd) as Hl.
    unfold addrs in Hl. rewrite length_fmap in Hl. lia.
Qed.

(** ** A cascade of splits never touches a leaf *)

Lemma insertIntoParent_keeps_leaves split key l r t t' :
  (∀ p s s', tree_after (split p s) = Some s' →
     ∀ a ks vs nx, store s !! a = Some (BPlusLeafNode ks vs nx) →
                   store s' !! a = Some (BPlusLeafNode ks vs nx)) →
  tree_after (insertIntoParent split key l r t) = Some t' →
  ∀ a ks vs nx, store t !! a = Some (BPlusLeafNode ks vs nx) →
                store t' !! a = Some (BPlusLeafNode ks vs nx).
Proof.
  intros Hsplit. unfold insertIntoParent.
  destruct (findParent t l) as [[p|]|]; [| |done].
  - destruct (store t !! p) as [[|pks pcs]|] eqn:Hp; [done| |done].
    destruct (_ && _); [|done].
    destruct (kOrder <=? _).
    + intros Hafter a ks vs nx Ha. eapply Hsplit; [exact Hafter|].
      cbn [store]. rewrite list_lookup_insert_ne; [done|].
      congruence.
    + intros [= <-] a ks vs nx Ha. cbn [store].
      rewrite list_lookup_insert_ne; [done|].
      congruence.
  - by intros [= <-].
Qed.

Lemma splitInternalNode_keeps_leaves fuel : ∀ x t t',
  tree_after (splitInternalNode fuel x t) = Some t' →
  ∀ a ks vs nx, store t !! a = Some (BPlusLeafNode ks vs nx) →
                store t' !! a = Some (BPlusLeafNode ks vs nx).
Proof.
  induction fuel as [|fuel IH]; intros x t t'; [done|]. cbn [splitInternalNode].
  destruct (store t !! x) as [[|xks xcs]|] eqn:Hx; [done| |done].
  destruct (xks !! _) as [upKey|]; [|done].
  destruct (_ <=? _); [|done].
  assert (∀ a ks vs nx, store t !! a = Some (BPlusLeafNode ks vs nx) →
            (<[x := BPlusInternalNode (take (length xks / 2) xks)
                                     (take (length xks / 2 + 1) xcs)]> (store t)
             ++ [BPlusInternalNode (drop (length xks / 2 + 1) xks)
                                   (drop (length xks / 2 + 1) xcs)]) !! a
            = Some (BPlusLeafNode ks vs nx)) as Hh1.
  { intros a ks vs nx Ha. apply lookup_app_l_Some.
    rewrite list_lookup_insert_ne; [done|congruence]. }
  destruct (decide (root_ t = Some x)).
  - intros [= <-] a ks vs nx Ha. cbn [store]. by apply lookup_app_l_Some, Hh1.
  - intros Hafter a ks vs nx Ha.
    eapply insertIntoParent_keeps_leaves; [|exact Hafter|by apply Hh1].
    intros p s s'. apply IH.
Qed.

(** ** Every node but the root has one parent, and [findParent] finds it *)

Lemma subtree_plug T : ∀ t, t ∈ subtrees T → ∃ ctx, T = plug ctx t.
Proof.
  induction T as [a ks vs nx|a ks cs IH] using tree_nested_ind; intros t Ht.
  - simpl in Ht. apply list_elem_of_singleton in Ht as ->. by exists [].
  - apply subtrees_Nd in Ht as [->|(c & Hc & Ht)]; [by exists []|].
    rewrite Forall_forall in IH. destruct (IH c Hc t Ht) as [ctx ->].
    apply list_elem_of_split in Hc as (l & r & ->).
    exists (ctx ++ [Frame a ks l r]). by rewrite plug_app.
Qed.

Lemma findParent_holder s T q a :
  root_ s = Some (taddr T) → rep (store s) T → NoDup (addrs T) →
  holds_child s q a → findParent s a = Some (Some q).
Proof.
  intros Hroot Hrep Hnd (Hin & qks & qcs & Hq & Ha).
  apply (in_tree_subtree_rep s T q Hroot Hrep) in Hin as (tq & Htq & <-).
  rewrite (Hrep _ Htq) in Hq. destruct tq as [|q ks cs]; [done|].
  simpl in Hq. injection Hq as -> <-.
  apply list_elem_of_fmap in Ha as (c & -> & Hc).
  apply list_elem_of_split in Hc as (l & r & ->).
  destruct (subtree_plug T _ Htq) as [ctx HT].
  change (Nd q qks (l ++ c :: r)) with (fill (Frame q qks l r) c) in HT.
  change (plug ctx (fill (Frame q qks l r) c)) with (plug (Frame q qks l r :: ctx) c) in HT.
  unfold findParent. rewrite Hroot. subst T.
  apply (findParent_plug (store s) ctx (Frame q qks l r) c); [done|done|].
  by apply height_le_store.
Qed.

Lemma holder_exists s T a :
  root_ s = Some (taddr T) → rep (store s) T →
  in_tree s a → root_ s ≠ Some a → ∃ p, holds_child s p a.
Proof.
  intros Hroot Hrep Hin Hne.
  apply (in_tree_subtree_rep s T a Hroot Hrep) in Hin as (ta & Hta & <-).
  destruct (subtree_plug T _ Hta) as [[|f ctx] HT].
  { simpl in HT. subst ta. by rewrite Hroot in Hne. }
  simpl in HT. exists (fa f). split.
  - apply (in_tree_subtree_rep s T _ Hroot Hrep). exists (fill f ta).
    split; [|done]. rewrite HT. apply hole_subtree.
  - exists (fks f), (taddr <$> (fl f ++ ta :: fr f)). split.
    + apply (Hrep (fill f ta)). rewrite HT. apply hole_subtree.
    + apply list_elem_of_fmap_2. apply elem_of_app. right. apply list_elem_of_here.
Qed.

Lemma reaches_snoc h a b ks cs c :
  reaches h a b → h !! b = Some (BPlusInternalNode ks cs) → c ∈ cs → reaches h a c.
Proof.
  induction 1 as [a|a ks' cs' c' b Ha Hc' _ IH]; intros Hb Hc.
  - eapply reaches_child; [done|done|constructor].
  - eapply reaches_child; [done|done|by apply IH].
Qed.

Lemma findParent_scan_sound h rec cur child (Q : addr → Prop) ptrs p :
  (∀ ptr q, ptr ∈ ptrs → (∃ ks cs, h !! ptr = Some (BPlusInternalNode ks cs)) →
            rec ptr = Some (Some q) → Q q) →
  findParent_scan h rec cur child ptrs = Some (Some p) →
  Q p ∨ (p = cur ∧ child ∈ ptrs).
Proof.
  induction ptrs as [|ptr ptrs IH]; intros Hrec; simpl; [done|].
  destruct (decide (ptr = child)) as [->|Hne].
  { intros [= <-]. right. split; [done|apply list_elem_of_here]. }
  assert (findParent_scan h rec cur child ptrs = Some (Some p) →
          Q p ∨ p = cur ∧ child ∈ ptr :: ptrs) as Hrest.
  { intros Hs. destruct IH as [?|[? ?]]; [|done|by left|].
    - intros ptr' q Hin. apply Hrec. by apply list_elem_of_further.
    - right. split; [done|by apply list_elem_of_further]. }
  destruct (h !! ptr) as [[|ks cs]|] eqn:Hptr; [done| |done].
  destruct (rec ptr) as [[q|]|] eqn:Hq; [|done|done].
  intros [= <-]. left. eapply Hrec; [apply list_elem_of_here|by eauto|done].
Qed.

(** Whatever [findParent] returns is a node found from where it started
    that has the child among its children. *)
Lemma findParent_rec_sound h child : ∀ fuel r cur p,
  reaches h r cur →
  findParent_rec fuel h (Some cur) child = Some (Some p) →
  reaches h r p ∧ ∃ ks cs, h !! p = Some (BPlusInternalNode ks cs) ∧ child ∈ cs.
Proof.
  induction fuel as [|fuel IH]; intros r cur p Hreach; simpl.
  - by destruct (h !! cur) as [[|]|].
  - destruct (h !! cur) as [[|ks cs]|] eqn:Hcur; [done| |done].
    intros Hscan.
    apply (findParent_scan_sound _ _ _ _
             (λ q, reaches h r q ∧ ∃ ks cs, h !! q = Some (BPlusInternalNode ks cs) ∧ child ∈ cs))
      in Hscan as [?|[-> Hin]]; [done|by eauto|].
    intros ptr q Hptr _ Hq. eapply IH; [|exact Hq]. by eapply reaches_snoc.
Qed.

Lemma findParent_sound t a p : findParent t a = Some (Some p) → holds_child t p a.
Proof.
  unfold findParent. destruct (root_ t) as [r|] eqn:Hr.
  - intros H. apply (findParent_rec_sound _ _ _ r) in H as [Hreach Hp]; [|constructor].
    split; [by exists r|done].
  - by destruct (length (store t)).
Qed.

Lemma child_position_lt cs x : x ∈ cs → child_position cs x < length cs.
Proof.
  induction cs as [|c cs IH]; intros Hx; [by apply elem_of_nil in Hx|].
  simpl. destruct (decide (c = x)); [lia|].
  apply elem_of_cons in Hx as [->|Hx]; [done|]. apply IH in Hx. lia.
Qed.

(** ** The calls of a cascade *)

(** Each of the calls is the last thing its caller does. *)
Lemma calls_run c c' : calls c c' → run c = run c'.
Proof.
  destruct 1 as [fuel leaf t ks vs nx newKey rest Hleaf Hvs Hdrop Hroot
                |fuel x t ks cs upKey Hx Hup Hcs Hroot
                |fuel key l r t p ks cs Hp Hsp Hi Hj Hfull]; cbn [run].
  - unfold splitLeafNode. rewrite Hleaf, Hdrop.
    replace (length ks / 2 <=? length vs) with true by (symmetry; by apply Nat.leb_le).
    by rewrite decide_False.
  - cbn [splitInternalNode]. rewrite Hx, Hup.
    replace (length ks / 2 + 1 <=? length cs) with true by (symmetry; by apply Nat.leb_le).
    by rewrite decide_False.
  - unfold insertIntoParent. rewrite Hp, Hsp.
    replace (child_position cs l <=? length ks) with true by (symmetry; by apply Nat.leb_le).
    replace (child_position cs l + 1 <=? length cs) with true
      by (symmetry; by apply Nat.leb_le).
    cbn [andb].
    by replace (kOrder <=? length (vector_insert (child_position cs l) key ks)) with true
      by (symmetry; by apply Nat.leb_le).
Qed.

Lemma insert_calls_run key value t c : insert_calls key value t c → insert key value t = run c.
Proof.
  destruct 1 as [leaf ks vs nx ks' vs' [r Hr] Hfl Hleaf Hscan Hb Hfull].
  unfold insert, insert_fuel. rewrite Hr, Hfl, Hleaf, Hscan, Hb.
  by replace (kOrder <=? length ks') with true by (symmetry; by apply Nat.leb_le).
Qed.

Lemma during_insert_run key value t c : during_insert key value t c → run c = insert key value t.
Proof.
  induction 1 as [c Hc|c c' _ IH Hcc].
  - symmetry. by apply insert_calls_run.
  - rewrite <- IH. symmetry. by apply calls_run.
Qed.

Lemma calls_ok c c' : calls c c' → call_ok c → call_ok c'.
Proof.
  destruct 1 as [fuel leaf t ks vs nx newKey rest Hleaf Hvs Hdrop Hroot
                |fuel x t ks cs upKey Hx Hup Hcs Hroot
                |fuel key l r t p ks cs Hp Hsp Hi Hj Hfull]; cbn [call_ok store root_].
  - intros (ctx & ks0 & vs0 & nx0 & Hr & Hrep & Hnd).
    pose proof Hrep as Hrep0. apply rep_plug in Hrep0 as [HX _]. apply rep_Lf in HX.
    rewrite Hleaf in HX. injection HX as <- <- <-.
    destruct ctx as [|f ctx]; [by rewrite Hr in Hroot|].
    destruct (leaf_split_step _ _ _ _ _ _ Hrep Hnd) as (HL & HR & Hnd1 & _).
    exists f, ctx, (leaf_left leaf ks vs (length (store t))),
      (leaf_right (length (store t)) ks vs nx).
    split_and!; [done|done| |done|done|done].
    rewrite Hr. f_equal. apply plug_cons_Nd.
  - intros (ctx & ks0 & cs0 & Hr & Hrep & Hnd).
    pose proof Hrep as Hrep0. apply rep_plug in Hrep0 as [HX _]. apply rep_Nd in HX as [HX _].
    rewrite Hx in HX. injection HX as <- ->.
    destruct ctx as [|f ctx]; [by rewrite Hr in Hroot|].
    destruct (internal_split_step _ _ _ _ _ Hrep Hnd) as (HL & HR & Hnd1 & _).
    exists f, ctx, (split_left x ks cs0), (split_right (length (store t)) ks cs0).
    split_and!; [done|done| |done|done|done].
    rewrite Hr. f_equal. apply plug_cons_Nd.
  - intros (f & ctx & L & R & -> & -> & Hr & Hrep & HR & Hnd).
    destruct (parent_insert_step _ f ctx L R key Hrep HR Hnd)
      as (Hfind & Hf & Hpos & Hcs' & Hrep1 & Hnd1 & Hroot1).
    destruct t as [h r0]. cbn [store root_] in *. subst r0.
    rewrite Hfind in Hp. injection Hp as <-.
    rewrite Hf in Hsp. injection Hsp as <- <-.
    rewrite Hpos, Hcs'.
    eexists ctx, _, _. split_and!; [|exact Hrep1|exact Hnd1].
    by rewrite Hroot1.
Qed.

Lemma insert_calls_ok key value t c : inv t → insert_calls key value t c → call_ok c.
Proof.
  intros Hinv. destruct 1 as [leaf ks vs nx ks' vs' [r Hr] Hfl Hleaf Hscan Hb Hfull].
  destruct Hinv as [->|[T HT]]; [done|].
  destruct (descend_inv t T key HT)
    as (ctx & a & ks0 & vs0 & nx0 & lo & hi & -> & Hfl0 & Ha & _).
  rewrite Hfl0 in Hfl. injection Hfl as <-.
  rewrite Ha in Hleaf. injection Hleaf as <- <- <-.
  destruct HT as (Hroot & Hrep & Hnd & _).
  destruct (replace_leaf _ ctx a ks0 vs0 nx0 ks' vs' Hrep Hnd) as (Hrep' & Hnd' & Hroot').
  cbn [call_ok store root_]. exists ctx, ks', vs', nx0. split_and!; [|done|done].
  by rewrite Hroot, Hroot'.
Qed.

Lemma during_insert_ok key value t c : inv t → during_insert key value t c → call_ok c.
Proof.
  intros Hinv. induction 1 as [c Hc|c c' _ IH Hcc].
  - by eapply insert_calls_ok.
  - by eapply calls_ok.
Qed.

(** When the two halves of a split are to be put into the parent, the
    parent is there, [findParent] finds it, and no other node of the tree
    has the left half among its children. *)
Lemma into_parent_found fuel key l r s :
  call_ok (IntoParent fuel key l r s) →
  ∃ p, findParent s l = Some (Some p)
       ∧ holds_child s p l
       ∧ ∀ q, holds_child s q l → q = p.
Proof.
  intros (f & ctx & L & R & -> & -> & Hr & Hrep & HR & Hnd).
  destruct (parent_insert_step _ f ctx L R key Hrep HR Hnd) as (Hfind & _).
  destruct s as [h r0]. cbn [store root_] in *. subst r0.
  exists (fa f). split_and!; [done|by apply findParent_sound|].
  intros q Hq. apply NoDup_app in Hnd as (Hnd & _).
  apply (findParent_holder _ (plug (f :: ctx) L)) in Hq; [|done|done|done].
  congruence.
Qed.

(** ** The tree a store holds *)

(** A store holds one tree at most below a given root. *)
Lemma rep_unique h : ∀ T1 T2, rep h T1 → rep h T2 → taddr T1 = taddr T2 → T1 = T2.
Proof.
  induction T1 as [a ks vs nx|a ks cs IH] using tree_nested_ind; intros T2 H1 H2 Ha.
  - apply rep_root in H1, H2. rewrite <- Ha, H1 in H2.
    destruct T2; simpl in *; [congruence|done].
  - pose proof (rep_root _ _ H1) as R1. pose proof (rep_root _ _ H2) as R2.
    rewrite <- Ha, R1 in R2. destruct T2 as [|a2 ks2 cs2]; [done|].
    simpl in Ha, R2. injection R2 as -> Hcs. subst a2. f_equal.
    apply rep_Nd in H1 as [_ H1]. apply rep_Nd in H2 as [_ H2].
    clear R1. revert cs2 Hcs H2. induction cs as [|c cs IHcs]; intros [|c2 cs2] Hcs H2; try done.
    apply Forall_cons in IH as [IHc IH]. apply Forall_cons in H1 as [Hc H1].
    apply Forall_cons in H2 as [Hc2 H2]. csimpl in Hcs. injection Hcs as Hc12 Hcs.
    f_equal; [by apply IHc|by apply IHcs].
Qed.

(** ** What a cascade of splits does to the store

    A split adds one node to the store and one to the tree; putting the
    halves into the parent changes the parent only.  So a cascade keeps the
    store as large as the tree, and touches no node besides the split ones
    and their parents. *)

Lemma length_addrs_halves ctx L R X n :
  addrs L ++ addrs R ≡ₚ n :: addrs X →
  length (addrs (plug ctx L)) + length (addrs R) = S (length (addrs (plug ctx X))).
Proof.
  intros HP. apply Permutation_length in HP.
  rewrite length_app in HP. simpl in HP.
  rewrite !addrs_plug, !length_app. lia.
Qed.

Lemma length_addrs_internal_split ctx a n ks cs :
  length (addrs (plug ctx (split_left a ks cs))) + length (addrs (split_right n ks cs))
  = S (length (addrs (plug ctx (Nd a ks cs)))).
Proof.
  apply (length_addrs_halves _ _ _ _ n). rewrite addrs_split, addrs_Nd. apply perm_swap.
Qed.

Lemma length_addrs_leaf_split ctx a n ks vs nx :
  length (addrs (plug ctx (leaf_left a ks vs n))) + length (addrs (leaf_right n ks vs nx))
  = S (length (addrs (plug ctx (Lf a ks vs nx)))).
Proof.
  apply (length_addrs_halves _ _ _ _ n). unfold leaf_left, leaf_right.
  rewrite !addrs_Lf. apply perm_swap.
Qed.

Lemma length_addrs_parent f ctx L R ks :
  length (addrs (plug ctx (Nd (fa f) ks (fl f ++ L :: R :: fr f))))
  = length (addrs (plug (f :: ctx) L)) + length (addrs R).
Proof.
  rewrite <- length_app. apply Permutation_length.
  rewrite !addrs_plug, addrs_Nd, ctx_addrs_cons. unfold frame_addrs.
  rewrite fmap_app, join_app. csimpl. solve_Permutation.
Qed.

Lemma length_addrs_new_root n up L R :
  length (addrs (Nd n [up] [L; R])) = S (length (addrs L) + length (addrs R)).
Proof. rewrite addrs_Nd. csimpl. rewrite !length_app. simpl. lia. Qed.

Lemma length_addrs_promote ctx : ∀ L up R n,
  length (addrs (promote ctx L up R n))
  ≤ length (addrs (plug ctx L)) + length (addrs R) + length ctx + 1.
Proof.
  induction ctx as [|f ctx IH]; intros L up R n.
  - cbn [promote plug]. rewrite length_addrs_new_root. simpl. lia.
  - cbn [promote].
    set (ks' := vector_insert (length (fl f)) up (fks f)).
    pose proof (length_addrs_parent f ctx L R ks') as Hp.
    destruct (kOrder <=? length ks').
    + etransitivity; [apply IH|].
      pose proof (length_addrs_internal_split ctx (fa f) n ks' (fl f ++ L :: R :: fr f)).
      cbn [length]. lia.
    + lia.
Qed.

Lemma parent_effect fuel f ctx h L R up t' :
  split_effect fuel ctx →
  rep h (plug (f :: ctx) L) → rep h R →
  NoDup (addrs (plug (f :: ctx) L) ++ addrs R) →
  insertIntoParent (splitInternalNode fuel) up (taddr L) (taddr R)
    (MkTree h (Some (taddr (plug (f :: ctx) L)))) = Completed t' →
  length h ≤ length (store t')
  ∧ length (store t') + (length (addrs (plug (f :: ctx) L)) + length (addrs R))
    = length h + length (addrs (promote (f :: ctx) L up R (length h)))
  ∧ ∀ x, x < length h → x ∉ fa <$> (f :: ctx) → store t' !! x = h !! x.
Proof.
  intros Hsplit Hrep HR Hnd.
  destruct (parent_insert_step h f ctx L R up Hrep HR Hnd)
    as (Hfind & Hf & Hpos & Hcs & Hrep1 & Hnd1 & Hroot).
  unfold insertIntoParent. rewrite Hfind. cbn [store root_]. rewrite Hf, Hpos, Hcs.
  destruct (_ && _); [|done]. cbn [promote].
  set (ks' := vector_insert (length (fl f)) up (fks f)) in *.
  set (cs' := fl f ++ L :: R :: fr f) in *.
  rewrite <- Hroot.
  destruct (kOrder <=? length ks') eqn:Hov.
  - intros Hrun.
    destruct (Hsplit _ _ _ _ _ Hrep1 Hnd1 Hrun) as (Hle & Hlen & Hframe).
    rewrite length_insert in Hle, Hlen, Hframe.
    unfold cs' in Hlen at 1. rewrite length_addrs_parent in Hlen.
    split_and!; [done|done|].
    intros x Hx Hnot. rewrite fmap_cons, not_elem_of_cons in Hnot.
    destruct Hnot as [Hxf Hxc]. rewrite Hframe by done.
    by apply list_lookup_insert_ne.
  - intros [= <-]. cbn [store]. rewrite length_insert.
    unfold cs'. rewrite length_addrs_parent.
    split_and!; [done|lia|].
    intros x Hx Hnot. rewrite fmap_cons, not_elem_of_cons in Hnot.
    destruct Hnot as [Hxf Hxc]. by apply list_lookup_insert_ne.
Qed.

Lemma split_effect_all ctx : ∀ fuel, split_effect fuel ctx.
Proof.
  induction ctx as [|f ctx IH]; intros fuel h a ks cs t' Hrep Hnd.
  all: destruct fuel as [|fuel]; [done|].
  all: destruct (internal_split_step h _ a ks cs Hrep Hnd) as (HL & HR & Hnd1 & Hlen1).
  all: pose proof Hrep as Hrep0; apply rep_plug in Hrep0 as [HX _].
  all: apply rep_Nd in HX as [Ha _].
  all: assert (a < length h) as Hlt by (by eapply lookup_lt_Some).
  all: cbn [splitInternalNode store root_]; rewrite Ha.
  all: unfold split_key.
  all: destruct (ks !! (length ks / 2)) as [upKey|]; [|done].
  all: destruct (_ <=? _); [|done]; cbn [default]; unfold id.
  all: assert (∀ x, x < length h → x ≠ a →
                    internal_split_store h a ks (taddr <$> cs) !! x = h !! x) as Hsame
         by (intros x Hx Hxa; unfold internal_split_store;
             rewrite lookup_app_l by (by rewrite length_insert);
             by apply list_lookup_insert_ne).
  all: set (h1 := internal_split_store h a ks (taddr <$> cs)) in *.
  - cbn [plug promote]. rewrite decide_True by done. intros [= <-]. cbn [store].
    rewrite length_app, Hlen1, length_addrs_new_root.
    pose proof (length_addrs_internal_split [] a (length h) ks cs) as Hsz. simpl in Hsz.
    simpl. split_and!; [lia|lia|].
    intros x Hx Hxa _. rewrite lookup_app_l by lia. by apply Hsame.
  - rewrite decide_False.
    2:{ intros [= Heq]. by eapply root_not_hole. }
    rewrite (plug_cons_Nd f ctx (Nd a ks cs) (split_left a ks cs)).
    intros Hrun.
    destruct (parent_effect fuel f ctx h1 (split_left a ks cs)
                (split_right (length h) ks cs) upKey t' (IH fuel) HL HR Hnd1 Hrun)
      as (Hle & Hlen & Hframe).
    rewrite Hlen1 in Hle, Hlen, Hframe.
    rewrite length_addrs_internal_split in Hlen.
    split_and!; [lia|lia|].
    intros x Hx Hxa Hnot. rewrite Hframe by (done || lia). by apply Hsame.
Qed.

Lemma leaf_effect ctx fuel h a ks vs nx t' :
  rep h (plug ctx (Lf a ks vs nx)) →
  NoDup (addrs (plug ctx (Lf a ks vs nx))) →
  splitLeafNode fuel a (MkTree h (Some (taddr (plug ctx (Lf a ks vs nx))))) = Completed t' →
  length h ≤ length (store t')
  ∧ length (store t') + length (addrs (plug ctx (Lf a ks vs nx)))
    = length h + length (addrs (promote ctx (leaf_left a ks vs (length h)) (leaf_key ks)
                                     (leaf_right (length h) ks vs nx) (S (length h))))
  ∧ ∀ x, x < length h → x ≠ a → x ∉ fa <$> ctx → store t' !! x = h !! x.
Proof.
  intros Hrep Hnd.
  destruct (leaf_split_step h ctx a ks vs nx Hrep Hnd) as (HL & HR & Hnd1 & Hlen1).
  pose proof Hrep as Hrep0; apply rep_plug in Hrep0 as [HX _].
  apply rep_Lf in HX.
  assert (a < length h) as Hlt by (by eapply lookup_lt_Some).
  unfold splitLeafNode. cbn [store root_]. rewrite HX.
  destruct (_ <=? _); [|done]. unfold leaf_key.
  destruct (drop (length ks / 2) ks) as [|newKey rest] eqn:Hdrop; [done|].
  cbn [head default]. unfold id.
  assert (∀ x, x < length h → x ≠ a → leaf_split_store h a ks vs nx !! x = h !! x) as Hsame.
  { intros x Hx Hxa. unfold leaf_split_store.
    rewrite lookup_app_l by (by rewrite length_insert). by apply list_lookup_insert_ne. }
  set (h1 := leaf_split_store h a ks vs nx) in *.
  destruct ctx as [|f ctx].
  - cbn [plug promote]. rewrite decide_True by done. intros [= <-]. cbn [store].
    rewrite length_app, Hlen1, length_addrs_new_root.
    pose proof (length_addrs_leaf_split [] a (length h) ks vs nx) as Hsz. simpl in Hsz.
    simpl. split_and!; [lia|lia|].
    intros x Hx Hxa _. rewrite lookup_app_l by lia. by apply Hsame.
  - rewrite decide_False.
    2:{ intros [= Heq]. by eapply root_not_hole. }
    rewrite (plug_cons_Nd f ctx (Lf a ks vs nx) (leaf_left a ks vs (length h))).
    unfold insertInternalNode. intros Hrun.
    destruct (parent_effect fuel f ctx h1 (leaf_left a ks vs (length h))
                (leaf_right (length h) ks vs nx) newKey t' (split_effect_all ctx fuel)
                HL HR Hnd1 Hrun)
      as (Hle & Hlen & Hframe).
    rewrite Hlen1 in Hle, Hlen, Hframe.
    rewrite length_addrs_leaf_split in Hlen.
    split_and!; [lia|lia|].
    intros x Hx Hxa Hnot. rewrite Hframe by (done || lia). by apply Hsame.
Qed.

(** ** What [insert] does to the tree

    The leaf [findLeaf] returns gets the new entry, or the new value of an
    old one; if that fills it, it splits and its halves go up the path. *)

Lemma insert_effect s T key value :
  tree_inv s T →
  ∃ ctx a ks vs nx ks' vs' s' T',
    T = plug ctx (Lf a ks vs nx)
    ∧ on_path key ctx
    ∧ findLeaf s key = Some (Some a)
    ∧ insert key value s = Completed s'
    ∧ tree_inv s' T'
    ∧ length (store s) ≤ length (store s')
    ∧ length (store s') + length (addrs T) = length (store s) + length (addrs T')
    ∧ (∀ x, x < length (store s) → x ≠ a → x ∉ fa <$> ctx → store s' !! x = store s !! x)
    ∧ ((ks' = ks ∧ length vs' = length vs)
       ∨ ((key ∉ ks) ∧ ks' = vector_insert (findLeaf_index ks key) key ks
          ∧ vs' = vector_insert (findLeaf_index ks key) value vs))
    ∧ ((length ks' < kOrder ∧ T' = plug ctx (Lf a ks' vs' nx))
       ∨ (kOrder ≤ length ks'
          ∧ T' = promote ctx (leaf_left a ks' vs' (length (store s))) (leaf_key ks')
                   (leaf_right (length (store s)) ks' vs' nx) (S (length (store s))))).
Proof.
  intros Hinv.
  destruct (insert_inv s T key value Hinv) as (s' & T0 & Hins & Hinv' & _).
  pose proof Hinv as (Hroot & Hrep & Hnd & Hwf & _).
  destruct (findLeaf_loop_wf (store s) key T None None (length (store s)))
    as (ctx & a & ks & vs & nx & -> & Hpath & Hfl & _); [done|done| |done|].
  { by apply height_le_store. }
  destruct (wf_plug ctx _ _ _ Hwf) as (lo & hi & Hwl & _).
  assert (findLeaf s key = Some (Some a)) as Hfl' by (unfold findLeaf; by rewrite Hroot).
  assert (store s !! a = Some (BPlusLeafNode ks vs nx)) as Ha.
  { pose proof Hrep as Hrep0. apply rep_plug in Hrep0 as [Hl _]. by apply rep_Lf in Hl. }
  pose proof Hinv' as (Hroot' & Hrep' & _).
  destruct Hwl as (Hlen & Hsz & Hsort & Hrng).
  assert (∀ T', root_ s' = Some (taddr T') → rep (store s') T' → T0 = T') as Huniq.
  { intros T' Hr Hrp. apply (rep_unique (store s')); [done|done|]. congruence. }
  destruct s as [h r]. cbn [store root_] in *. subst r.
  revert Hins. unfold insert, insert_fuel. cbn [root_ store]. rewrite Hfl', Ha.
  destruct (scan_key ks key) as [i|] eqn:Hscan.
  - destruct (i <? length vs); [|done]. intros [= <-]. cbn [store root_] in *.
    destruct (replace_leaf h ctx a ks vs nx ks (<[i := value]> vs) Hrep Hnd)
      as (Hrep1 & Hnd1 & Hroot1).
    exists ctx, a, ks, vs, nx, ks, (<[i := value]> vs),
      (MkTree (<[a := BPlusLeafNode ks (<[i := value]> vs) nx]> h)
              (Some (taddr (plug ctx (Lf a ks vs nx))))),
      (plug ctx (Lf a ks (<[i := value]> vs) nx)). cbn [store root_].
    assert (T0 = plug ctx (Lf a ks (<[i := value]> vs) nx)) as ->
      by (apply Huniq; [by rewrite Hroot1|done]).
    split_and!; [done|done|done|done|done|by rewrite length_insert| | | |].
    + rewrite length_insert, !addrs_plug, !addrs_Lf. done.
    + intros x Hx Hxa _. by apply list_lookup_insert_ne.
    + left. split; [done|by rewrite length_insert].
    + by left.
  - apply scan_key_None in Hscan. rewrite bubble_sorted by done.
    set (ks' := vector_insert (findLeaf_index ks key) key ks).
    set (vs' := vector_insert (findLeaf_index ks key) value vs).
    assert (length ks' = S (length ks)) as Hlk' by apply length_vector_insert.
    destruct (replace_leaf h ctx a ks vs nx ks' vs' Hrep Hnd) as (Hrep1 & Hnd1 & Hroot1).
    destruct (kOrder <=? length ks') eqn:Hov.
    + apply Nat.leb_le in Hov. rewrite <- Hroot1. intros Hrun.
      set (h1 := <[a := BPlusLeafNode ks' vs' nx]> h) in *.
      assert (length h1 = length h) as Hlh by apply length_insert.
      destruct (splitLeaf_promote ctx (length h) h1 a ks' vs' nx) as (h' & Hsplit & Hrep'');
        [done|done|by eapply wf_ctx_shape| | |lia|].
      { pose proof (length_ctx_lt_store _ _ _ Hrep Hnd). lia. }
      { unfold vs'. rewrite length_vector_insert, Hlen, <- Hlk'.
        apply Nat.Div0.div_le_upper_bound. lia. }
      destruct (leaf_effect ctx (length h) h1 a ks' vs' nx s' Hrep1 Hnd1 Hrun)
        as (Hle & Hsize & Hframe).
      rewrite Hrun in Hsplit. injection Hsplit as ->. cbn [store root_] in *.
      rewrite Hlh in *.
      eexists ctx, a, ks, vs, nx, ks', vs', _,
        (promote ctx (leaf_left a ks' vs' (length h)) (leaf_key ks')
           (leaf_right (length h) ks' vs' nx) (S (length h))).
      rewrite (Huniq _ eq_refl Hrep'') in Hinv'. clear Huniq.
      split_and!; [done|done|done|done|done|done| | | |].
      * rewrite !addrs_plug, !addrs_Lf in *. done.
      * intros x Hx Hxa Hnot. rewrite Hframe by done.
        by apply list_lookup_insert_ne.
      * by right.
      * by right.
    + apply Nat.leb_gt in Hov. intros [= <-]. cbn [store root_] in *.
      exists ctx, a, ks, vs, nx, ks', vs',
        (MkTree (<[a := BPlusLeafNode ks' vs' nx]> h)
                (Some (taddr (plug ctx (Lf a ks vs nx))))),
        (plug ctx (Lf a ks' vs' nx)). cbn [store root_].
      assert (T0 = plug ctx (Lf a ks' vs' nx)) as ->
        by (apply Huniq; [by rewrite Hroot1|done]).
      split_and!; [done|done|done|done|done|by rewrite length_insert| | | |].
      * rewrite length_insert, !addrs_plug, !addrs_Lf. done.
      * intros x Hx Hxa _. by apply list_lookup_insert_ne.
      * by right.
      * by left.
Qed.

(** ** Balance and occupancy *)

Lemma all_children_Forall P cs : all_children P cs ↔ Forall P cs.
Proof.
  induction cs as [|c cs IH]; simpl; [by split|].
  rewrite Forall_cons, IH. done.
Qed.

Lemma full_Nd m d a ks cs :
  full m d (Nd a ks cs) ↔ 1 ≤ length ks ∧ ∃ d', d = S d' ∧ Forall (full 2 d') cs.
Proof.
  destruct d as [|d'].
  - split; [by intros [_ []]|by intros [_ (d' & ? & _)]].
  - change (full m (S d') (Nd a ks cs)) with (1 ≤ length ks ∧ all_children (full 2 d') cs).
    rewrite all_children_Forall. split.
    + intros [? ?]. split; [done|]. by exists d'.
    + intros [? (d'' & [= <-] & ?)]. done.
Qed.

Lemma full_Lf m d a ks vs nx : full m d (Lf a ks vs nx) ↔ d = 0 ∧ m ≤ length ks.
Proof. reflexivity. Qed.

Lemma full_new_root m d n up L R : full 2 d L → full 2 d R → full m (S d) (Nd n [up] [L; R]).
Proof.
  intros HL HR. apply full_Nd. split; [simpl; lia|].
  exists d. split; [done|]. by repeat constructor.
Qed.

Lemma full_split_halves m d a n ks cs :
  kOrder ≤ length ks → Forall (full 2 d) cs →
  full m (S d) (split_left a ks cs) ∧ full m (S d) (split_right n ks cs).
Proof.
  intros Hks Hcs. unfold kOrder in Hks.
  assert (2 ≤ length ks / 2) by (apply Nat.div_le_lower_bound; lia).
  assert (length ks / 2 < length ks) by (apply Nat.div_lt; lia).
  assert (2 * (length ks / 2) ≤ length ks) by (apply Nat.Div0.mul_div_le).
  split; apply full_Nd.
  - split; [rewrite length_take; lia|]. exists d. split; [done|by apply Forall_take].
  - split; [rewrite length_drop; lia|]. exists d. split; [done|by apply Forall_drop].
Qed.

Lemma full_leaf_halves a n ks vs nx :
  kOrder ≤ length ks →
  full 2 0 (leaf_left a ks vs n) ∧ full 2 0 (leaf_right n ks vs nx).
Proof.
  intros Hks. unfold kOrder in Hks.
  assert (2 ≤ length ks / 2) by (apply Nat.div_le_lower_bound; lia).
  assert (2 * (length ks / 2) ≤ length ks) by (apply Nat.Div0.mul_div_le).
  split; apply full_Lf; (split; [done|]).
  - rewrite length_take. lia.
  - rewrite length_drop. lia.
Qed.

Lemma full_plug ctx : ∀ X m d,
  full m d (plug ctx X) →
  ∃ m0 d0,
    full m0 d0 X
    ∧ d = length ctx + d0
    ∧ (∀ X', full m0 d0 X' → full m d (plug ctx X'))
    ∧ (∀ L R up n, full 2 d0 L → full 2 d0 R →
         (taddr (promote ctx L up R n) = taddr (plug ctx L)
          ∧ full m d (promote ctx L up R n))
         ∨ (∃ n' up' L' R',
              promote ctx L up R n = Nd n' [up'] [L'; R'] ∧ n ≤ n'
              ∧ taddr L' = taddr (plug ctx L)
              ∧ full m (S d) (promote ctx L up R n))).
Proof.
  induction ctx as [|f ctx IH]; intros X m d Hfull.
  - exists m, d. split_and!; [done|done|done|].
    intros L R up n HL HR. right. exists n, up, L, R.
    split_and!; [done|done|done|]. by apply full_new_root.
  - destruct (IH (fill f X) m d Hfull) as (m1 & d1 & Hf & Hd & Hrepl & Hprom).
    apply full_Nd in Hf as (Hks & d0 & -> & Hcs).
    apply Forall_app in Hcs as [Hl Hcs]. apply Forall_cons in Hcs as [HX Hr].
    exists 2, d0. split_and!; [done|simpl; lia| |].
    + intros X' HX'. apply Hrepl. apply full_Nd. split; [done|].
      exists d0. split; [done|]. apply Forall_app. split; [done|by apply Forall_cons].
    + intros L R up n HL HR. cbn [promote].
      set (ks' := vector_insert (length (fl f)) up (fks f)).
      set (cs' := fl f ++ L :: R :: fr f).
      assert (Forall (full 2 d0) cs') as Hcs'.
      { apply Forall_app. split; [done|]. by repeat apply Forall_cons_2. }
      assert (taddr (plug ctx (fill f L)) = taddr (plug (f :: ctx) L)) as Hroot by done.
      destruct (kOrder <=? length ks') eqn:Hov.
      * apply Nat.leb_le in Hov.
        destruct (full_split_halves 2 d0 (fa f) n ks' cs' Hov Hcs') as [HL' HR'].
        destruct (Hprom _ _ (split_key ks') (S n) HL' HR')
          as [[Ht Hfl]|(n' & up' & L' & R' & Heq & Hn & Ht & Hfl)].
        -- left. split; [|done]. rewrite Ht. by apply (taddr_plug ctx _ (fill f L)).
        -- right. exists n', up', L', R'. split_and!; [done|lia| |done].
           rewrite Ht. by apply (taddr_plug ctx _ (fill f L)).
      * left. split; [by apply (taddr_plug ctx _ (fill f L))|].
        apply Hrepl. apply full_Nd. split; [|by exists d0].
        unfold ks'. rewrite length_vector_insert. lia.
Qed.

Lemma full_subtree T : ∀ m d t,
  full m d T → t ∈ subtrees T → t = T ∨ ∃ d', full 2 d' t.
Proof.
  induction T as [a ks vs nx|a ks cs IH] using tree_nested_ind; intros m d t Hfull Ht.
  - simpl in Ht. apply list_elem_of_singleton in Ht. by left.
  - apply subtrees_Nd in Ht as [->|(c & Hc & Ht)]; [by left|]. right.
    apply full_Nd in Hfull as (_ & d' & -> & Hcs).
    rewrite Forall_forall in IH, Hcs.
    destruct (IH c Hc 2 d' t (Hcs c Hc) Ht) as [->|?]; [|done].
    exists d'. by apply Hcs.
Qed.

(** ** Tight separators *)

Lemma tight_Nd lo hi a ks cs : tight lo hi (Nd a ks cs) = wf_children tight lo hi ks cs.
Proof. done. Qed.

Lemma tight_plug ctx : ∀ X lo hi,
  tight lo hi (plug ctx X) →
  ∃ lo' hi',
    tight lo' hi' X
    ∧ (∀ X', tight lo' hi' X' → tight lo hi (plug ctx X'))
    ∧ (∀ L R up n,
         tight lo' (Some up) L → tight (Some up) hi' R → lo_lt lo' up → lt_hi up hi' →
         tight lo hi (promote ctx L up R n))
    ∧ (∀ key, on_path key ctx → in_range lo hi key → in_range lo' hi' key).
Proof.
  induction ctx as [|f ctx IH]; intros X lo hi H.
  - exists lo, hi. split_and!; [done|done| |done].
    intros L R up n HL HR Hlo Hhi. cbn [promote]. rewrite tight_Nd.
    change (wf_children tight lo hi [up] [L; R]). apply wf_children_cons. done.
  - change (plug (f :: ctx) X) with (plug ctx (fill f X)) in H.
    destruct (IH _ _ _ H) as (lo1 & hi1 & Hf & Hrepl & Hprom & Hpath).
    unfold fill in Hf. rewrite tight_Nd in Hf.
    destruct (wf_children_hole tight _ _ _ _ _ _ Hf)
      as (lo' & hi' & HX & Hrepl' & Hins' & Hpath').
    exists lo', hi'. split_and!; [done| | |].
    + intros X' HX'. change (plug (f :: ctx) X') with (plug ctx (fill f X')).
      apply Hrepl. unfold fill. rewrite tight_Nd. by apply Hrepl'.
    + intros L R up n HL HR Hlo Hhi. cbn [promote].
      pose proof (Hins' L R up HL HR Hlo Hhi) as Hcs'.
      pose proof (length_vector_insert (length (fl f)) up (fks f)) as Hlen.
      destruct (kOrder <=? _) eqn:Hov.
      * assert (length (vector_insert (length (fl f)) up (fks f)) / 2
                < length (vector_insert (length (fl f)) up (fks f))) as Hmid
          by (apply Nat.div_lt; lia).
        destruct (lookup_lt_is_Some_2 _ _ Hmid) as [upk Hupk].
        destruct (wf_children_split tight _ _ _ _ _ _ Hcs' Hupk) as (HL' & HR' & Hlo' & Hhi').
        unfold split_key. rewrite Hupk. cbn [default].
        by apply Hprom.
      * apply Hrepl. by rewrite tight_Nd.
    + intros key Hk Hr. apply Forall_cons in Hk as [Hkf Hk].
      apply Hpath'; [done|]. by apply Hpath.
Qed.

Lemma tight_leaf_insert lo hi a ks vs nx key value :
  tight lo hi (Lf a ks vs nx) → in_range lo hi key → key ∉ ks →
  tight lo hi (Lf a (vector_insert (findLeaf_index ks key) key ks)
                    (vector_insert (findLeaf_index ks key) value vs) nx).
Proof.
  intros (Hlen & Hsort & Hrng & Hhead) Hkey Hnew. split_and!.
  - rewrite !length_vector_insert. lia.
  - by apply vector_insert_sorted.
  - by apply vector_insert_Forall.
  - intros l ->. specialize (Hhead l eq_refl).
    destruct ks as [|k0 ks0]; [done|]. simpl in Hhead. injection Hhead as ->.
    destruct Hkey as [Hl _]. simpl in Hl. simpl.
    destruct (Z.leb_spec l key); [|lia]. by rewrite vector_insert_S.
Qed.

Lemma tight_leaf_split lo hi a n ks vs nx :
  length ks = kOrder → tight lo hi (Lf a ks vs nx) →
  tight lo (Some (leaf_key ks)) (leaf_left a ks vs n)
  ∧ tight (Some (leaf_key ks)) hi (leaf_right n ks vs nx)
  ∧ lo_lt lo (leaf_key ks) ∧ lt_hi (leaf_key ks) hi.
Proof.
  intros Hfull (Hlen & Hsort & Hrng & Hhead).
  destruct (wf_leaf_split lo hi a n ks vs nx Hfull Hlen Hsort Hrng)
    as ((HL1 & _ & HL2 & HL3) & (HR1 & _ & HR2 & HR3) & Hlo & Hhi).
  split_and!; [| |done|done].
  - split_and!; [done|done|done|]. intros l Hl. rewrite <- (Hhead l Hl), Hfull.
    change (kOrder / 2) with 2. by destruct ks as [|k0 [|k1 ks0]].
  - split_and!; [done|done|done|]. intros l [= <-]. unfold leaf_key.
    destruct (drop (length ks / 2) ks) eqn:Hd; [|done].
    apply (f_equal length) in Hd. rewrite length_drop, Hfull in Hd. done.
Qed.

Lemma tight_subtree T : ∀ lo hi t,
  tight lo hi T → t ∈ subtrees T → ∃ lo' hi', tight lo' hi' t.
Proof.
  induction T as [a ks vs nx|a ks cs IH] using tree_nested_ind; intros lo hi t Ht Hsub.
  - simpl in Hsub. apply list_elem_of_singleton in Hsub as ->. by eauto.
  - apply subtrees_Nd in Hsub as [->|(c & Hc & Hsub)]; [by eauto|].
    rewrite tight_Nd in Ht.
    destruct (wf_children_elem _ _ _ _ _ _ Ht Hc) as (lo' & hi' & Hc' & _).
    rewrite Forall_forall in IH. by eapply IH.
Qed.

Lemma tight_min_leaf t : ∀ l hi,
  tight (Some l) hi t →
  ∃ a ks vs nx, Lf a ks vs nx ∈ subtrees t ∧ head ks = Some l.
Proof.
  induction t as [a ks vs nx|a ks cs IH] using tree_nested_ind; intros l hi Ht.
  - destruct Ht as (_ & _ & _ & Hhead). exists a, ks, vs, nx.
    split; [apply subtrees_self|by apply Hhead].
  - rewrite tight_Nd in Ht. destruct cs as [|c cs]; [done|].
    apply Forall_cons in IH as [IHc _].
    assert (∃ hi', tight (Some l) hi' c) as [hi' Hc].
    { destruct ks as [|k ks].
      - apply wf_children_nil in Ht as [_ ?]. by eauto.
      - apply wf_children_cons in Ht as (? & _). by eauto. }
    destruct (IHc l hi' Hc) as (a' & ks' & vs' & nx' & Hsub & Hhead).
    exists a', ks', vs', nx'. split; [|done].
    eapply subtrees_child; [done|apply list_elem_of_here].
Qed.

(** ** [insert] keeps the stronger invariant *)

Lemma insert_full s T d key value :
  tree_inv_full s T d →
  ∃ s' T' d',
    insert key value s = Completed s'
    ∧ tree_inv_full s' T' d'
    ∧ length (store s) ≤ length (store s')
    ∧ ((root_ s' = root_ s ∧ d' = d)
       ∨ (∃ r r' up new,
            root_ s = Some r ∧ root_ s' = Some r' ∧ length (store s) ≤ r'
            ∧ store s' !! r' = Some (BPlusInternalNode [up] [r; new])
            ∧ d' = S d)).
Proof.
  intros (Hinv & Hfull & Htight & Hsize).
  destruct (insert_effect s T key value Hinv)
    as (ctx & a & ks & vs & nx & ks' & vs' & s' & T' & -> & Hpath & _ & Hins & Hinv'
        & Hle & Hlen & _ & Hleaf & Hshape).
  destruct (full_plug ctx _ _ _ Hfull) as (m0 & d0 & [-> Hm]%full_Lf & Hd & Hrepl & Hprom).
  destruct (tight_plug ctx _ _ _ Htight) as (lo & hi & Htl & Htrepl & Htprom & Htpath).
  pose proof Hinv as (Hroot & _ & _ & Hwf & _). pose proof Hinv' as (Hroot' & Hrep' & _).
  destruct (wf_plug ctx _ _ _ Hwf) as (wlo & whi & (_ & Hsz & _) & _).
  assert (in_range lo hi key) as Hkey by (by apply Htpath).
  assert (length ks ≤ length ks') as Hks'.
  { destruct Hleaf as [[-> _]|(_ & -> & _)]; [done|]. rewrite length_vector_insert. lia. }
  assert (length ks' ≤ S (length ks)) as Hks''.
  { destruct Hleaf as [[-> _]|(_ & -> & _)]; [lia|]. by rewrite length_vector_insert. }
  assert (tight lo hi (Lf a ks' vs' nx)) as Htl'.
  { destruct Hleaf as [[-> Hvs]|(Hnew & -> & ->)]; [|by apply tight_leaf_insert].
    destruct Htl as (Hl & ? & ? & ?). split_and!; [congruence|done|done|done]. }
  exists s', T'.
  destruct Hshape as [[_ ->]|[Hov ->]].
  - exists d. split_and!; [done| |done|].
    + split_and!; [done| |by apply Htrepl|lia]. apply Hrepl, full_Lf. split; [done|lia].
    + left. split; [|done]. rewrite Hroot, Hroot'. f_equal. by apply taddr_plug.
  - destruct (full_leaf_halves a (length (store s)) ks' vs' nx Hov) as [HL HR].
    destruct (tight_leaf_split lo hi a (length (store s)) ks' vs' nx)
      as (HtL & HtR & Hlo & Hhi); [unfold kOrder in *; lia|done|].
    pose proof (Htprom _ _ _ (S (length (store s))) HtL HtR Hlo Hhi) as Ht'.
    destruct (Hprom _ _ (leaf_key ks') (S (length (store s))) HL HR)
      as [[Ht Hfl]|(n' & up' & L' & R' & Heq & Hn & Ht & Hfl)].
    + exists d. split_and!; [done| |done|].
      * split_and!; [done|done|done|lia].
      * left. split; [|done]. rewrite Hroot, Hroot', Ht. f_equal. by apply taddr_plug.
    + exists (S d). split_and!; [done| |done|].
      * split_and!; [done|done|done|lia].
      * right. exists (taddr (plug ctx (Lf a ks vs nx))), n', up', (taddr R').
        split_and!; [done| |lia| |done].
        -- by rewrite Hroot', Heq.
        -- rewrite Heq in Hrep'. apply rep_root in Hrep'. simpl in Hrep'.
           rewrite Hrep', Ht. do 3 f_equal. by apply taddr_plug.
Qed.

Lemma full_single key value :
  tree_inv_full (MkTree [BPlusLeafNode [key] [value] None] (Some 0))
                (Lf 0 [key] [value] None) 0.
Proof.
  split_and!; [apply tree_inv_single|by apply full_Lf| |done].
  split_and!; [done|repeat constructor|by repeat constructor|done].
Qed.

Lemma insert_all_full kvs : ∀ t t',
  (t = empty_tree ∨ ∃ T d, tree_inv_full t T d) →
  insert_all kvs t = Some t' →
  t' = empty_tree ∨ ∃ T d, tree_inv_full t' T d.
Proof.
  induction kvs as [|[key value] kvs IH]; intros t t' Ht; simpl.
  - by intros [= <-].
  - destruct (tree_after (insert key value t)) as [t1|] eqn:Hins; [|done].
    apply IH. right. destruct Ht as [->|(T & d & HT)].
    + rewrite insert_empty in Hins. injection Hins as <-.
      eexists _, _. apply full_single.
    + destruct (insert_full t T d key value HT) as (s' & T' & d' & Hrun & HT' & _).
      rewrite Hrun in Hins. injection Hins as <-. by exists T', d'.
Qed.

Lemma reachable_full t : reachable t → t = empty_tree ∨ ∃ T d, tree_inv_full t T d.
Proof. intros [kvs Hkvs]. eapply insert_all_full; [by left|exact Hkvs]. Qed.

(** ** The depth of the leaves *)

Lemma descends_snoc h n a b ks cs c :
  descends h n a b → h !! b = Some (BPlusInternalNode ks cs) → c ∈ cs →
  descends h (S n) a c.
Proof.
  induction 1 as [a|n a ks' cs' c' b Ha Hc' _ IH]; intros Hb Hc.
  - eapply descends_child; [done|done|constructor].
  - eapply descends_child; [done|done|by apply IH].
Qed.

Lemma descends_plug h ctx : ∀ X,
  rep h (plug ctx X) → descends h (length ctx) (taddr (plug ctx X)) (taddr X).
Proof.
  induction ctx as [|f ctx IH]; intros X Hrep; [constructor|].
  simpl. pose proof (IH (fill f X) Hrep) as Hd.
  apply (rep_plug h ctx (fill f X)) in Hrep as [Hf _]. apply rep_Nd in Hf as [Hf _].
  eapply descends_snoc; [exact Hd|exact Hf|].
  apply list_elem_of_fmap_2, elem_of_app. right. apply list_elem_of_here.
Qed.

Lemma descends_full h n a b :
  descends h n a b → is_leaf h b →
  ∀ T m d, rep h T → taddr T = a → full m d T → n = d.
Proof.
  intros Hd (lks & lvs & lnx & Hb).
  induction Hd as [a|n a ks cs c b Ha Hc _ IH]; intros T m d Hrep HT Hfull.
  - subst a. rewrite (rep_root _ _ Hrep) in Hb.
    destruct T; [|done]. by apply full_Lf in Hfull as [-> _].
  - subst a. rewrite (rep_root _ _ Hrep) in Ha.
    destruct T as [|a ks' cs']; [done|]. simpl in Ha. injection Ha as -> <-.
    apply list_elem_of_fmap in Hc as (c' & -> & Hc').
    apply rep_Nd in Hrep as [_ Hcs]. apply full_Nd in Hfull as (_ & d' & -> & Hfs).
    rewrite Forall_forall in Hcs, Hfs.
    f_equal. by apply (IH Hb c' 2 d'); [apply Hcs| |apply Hfs].
Qed.

Lemma levels_full s T d : tree_inv_full s T d → ∀ n, levels s n ↔ n = d.
Proof.
  intros (Hinv & Hfull & _) n. pose proof Hinv as (Hroot & Hrep & _). split.
  - intros (r & leaf & Hr & Hleaf & Hd). rewrite Hroot in Hr. injection Hr as <-.
    by eapply descends_full.
  - intros ->.
    destruct (descend_inv s T 0%Z Hinv)
      as (ctx & a & ks & vs & nx & lo & hi & HT & _ & Ha & _).
    exists (taddr T), a. split_and!; [done|by exists ks, vs, nx|].
    subst T. destruct (full_plug ctx _ _ _ Hfull) as (m0 & d0 & [-> _]%full_Lf & -> & _).
    rewrite Nat.add_0_r. by apply (descends_plug _ ctx (Lf a ks vs nx)).
Qed.

(** ** Keys found and keys walked *)

Lemma last_insert_None k kvs : last_insert k kvs = None ↔ k ∉ kvs.*1.
Proof.
  unfold last_insert. rewrite assoc_None, fmap_reverse, elem_of_reverse. done.
Qed.

Lemma found_keys s T k : tree_inv s T → k ∈ keys T ↔ is_Some (found k s).
Proof.
  intros HT. unfold found. rewrite (search_inv _ _ _ HT).
  pose proof HT as (_ & _ & _ & Hwf & _).
  rewrite <- (entries_fst T None None Hwf), <- not_eq_None_Some, assoc_None.
  split; [by intros ? ?|]. intros H. by destruct (decide (k ∈ (entries T).*1)).
Qed.

Lemma walk_found t :
  inv t →
  ∃ ks, walk t = Some ks ∧ StronglySorted Z.lt ks ∧ ∀ k, k ∈ ks ↔ is_Some (found k t).
Proof.
  intros [->|[T HT]].
  - exists []. split_and!; [done|constructor|].
    intros k. split; [by intros ?%elem_of_nil|by intros [? ?]].
  - exists (keys T). pose proof HT as (_ & _ & _ & Hwf & _).
    split_and!; [by apply walk_inv|by apply (wf_keys T None None)|].
    intros k. by apply found_keys.
Qed.

Lemma sorted_same_elements (l1 l2 : list Z) :
  StronglySorted Z.lt l1 → StronglySorted Z.lt l2 → (∀ k, k ∈ l1 ↔ k ∈ l2) → l1 = l2.
Proof.
  intros H1. revert l2. induction H1 as [|x l1 Hs1 IH Hx]; intros l2 H2 Hel.
  - destruct l2 as [|y l2]; [done|]. exfalso.
    apply (not_elem_of_nil y), Hel, list_elem_of_here.
  - destruct H2 as [|y l2 Hs2 Hy].
    { exfalso. apply (not_elem_of_nil x), Hel, list_elem_of_here. }
    rewrite Forall_forall in Hx, Hy.
    assert (x = y) as <-.
    { pose proof (proj1 (Hel x) (list_elem_of_here _ _)) as Hx2.
      pose proof (proj2 (Hel y) (list_elem_of_here _ _)) as Hy1.
      apply elem_of_cons in Hx2 as [?|Hx2]; [done|].
      apply elem_of_cons in Hy1 as [?|Hy1]; [done|].
      apply Hx in Hy1. apply Hy in Hx2. lia. }
    f_equal. apply IH; [done|]. intros k. split; intros Hk.
    + pose proof (proj1 (Hel k) (list_elem_of_further _ _ _ Hk)) as Hk2.
      apply elem_of_cons in Hk2 as [->|?]; [|done]. apply Hx in Hk. lia.
    + pose proof (proj2 (Hel k) (list_elem_of_further _ _ _ Hk)) as Hk1.
      apply elem_of_cons in Hk1 as [->|?]; [|done]. apply Hy in Hk. lia.
Qed.

(** ** The parent lookup of the root *)

Lemma findParent_root h T fuel :
  rep h T → NoDup (addrs T) → height T ≤ fuel →
  findParent_rec fuel h (Some (taddr T)) (taddr T) = Some None.
Proof.
  intros Hrep Hnd Hh. destruct T as [a ks vs nx|a ks cs].
  - apply rep_Lf in Hrep. destruct fuel; simpl; by rewrite Hrep.
  - apply rep_Nd in Hrep as [Ha Hcs]. simpl in Hh.
    destruct fuel as [|fuel]; [lia|]. simpl. rewrite Ha.
    rewrite <- (app_nil_r (taddr <$> cs)). rewrite findParent_scan_skip; [done|].
    rewrite addrs_Nd in Hnd. apply NoDup_cons in Hnd as [Hx _].
    rewrite Forall_forall in Hcs. apply Forall_forall. intros c Hc.
    assert (a ∉ addrs c) as Hxc by (intros ?; apply Hx; by eapply addrs_child).
    split_and!.
    + intros Heq. apply Hxc. rewrite <- Heq. apply taddr_in_addrs.
    + by apply rep_root, Hcs.
    + apply findParent_absent; [by apply Hcs| |done].
      pose proof (height_child c cs Hc). lia.
Qed.

Lemma holds_child_in_tree t p a : holds_child t p a → in_tree t a.
Proof.
  intros ((r & Hr & Hreach) & ks & cs & Hp & Ha). exists r. split; [done|].
  by eapply reaches_snoc.
Qed.

(** ** The pointers of a node *)

Lemma NoDup_subtree T t : t ∈ subtrees T → NoDup (addrs T) → NoDup (addrs t).
Proof.
  intros Ht Hnd. destruct (subtree_plug T t Ht) as [ctx ->].
  rewrite addrs_plug in Hnd. by apply NoDup_app in Hnd as (? & _).
Qed.

Lemma NoDup_children cs : NoDup (mjoin (addrs <$> cs)) → NoDup (taddr <$> cs).
Proof.
  induction cs as [|c cs IH]; csimpl; [constructor|].
  intros (Hc & Hdisj & Hcs)%NoDup_app. apply NoDup_cons. split; [|by apply IH].
  intros (c' & Heq & Hc')%list_elem_of_fmap.
  apply (Hdisj (taddr c)); [apply taddr_in_addrs|].
  rewrite Heq. eapply addrs_child; [done|apply taddr_in_addrs].
Qed.

Lemma linked_next ls last l b :
  linked ls last → l ∈ ls → next_of l = Some b →
  (∃ l', l' ∈ ls ∧ taddr l' = b) ∨ last = Some b.
Proof.
  induction ls as [|l0 ls IH]; intros Hlk Hl Hb; [by apply elem_of_nil in Hl|].
  apply linked_cons in Hlk as [Hn Hlk].
  apply elem_of_cons in Hl as [->|Hl].
  - rewrite Hb in Hn. destruct ls as [|l1 ls]; simpl in Hn; [by right|].
    left. exists l1. split; [|congruence]. apply list_elem_of_further, list_elem_of_here.
  - destruct (IH Hlk Hl Hb) as [(l' & Hl' & <-)|?]; [|by right].
    left. exists l'. split; [by apply list_elem_of_further|done].
Qed.

Lemma ctx_reaches h ctx : ∀ X f,
  rep h (plug ctx X) → f ∈ ctx → reaches h (fa f) (taddr X).
Proof.
  induction ctx as [|g ctx IH]; intros X f Hrep Hf; [by apply elem_of_nil in Hf|].
  pose proof Hrep as Hrep0.
  apply (rep_plug h ctx (fill g X)) in Hrep0 as [Hg _]. apply rep_Nd in Hg as [Hg _].
  assert (taddr X ∈ taddr <$> (fl g ++ X :: fr g)) as HX.
  { apply list_elem_of_fmap_2, elem_of_app. right. apply list_elem_of_here. }
  apply elem_of_cons in Hf as [->|Hf].
  - eapply reaches_child; [exact Hg|exact HX|constructor].
  - eapply reaches_snoc; [|exact Hg|exact HX].
    by apply (IH (fill g X) f).
Qed.

(** ** The number of keys *)

Lemma length_join_bounds (lo hi : nat) (cs : list tree) :
  Forall (λ c, lo ≤ length (keys c) ∧ length (keys c) ≤ hi) cs →
  length cs * lo ≤ length (mjoin (keys <$> cs))
  ∧ length (mjoin (keys <$> cs)) ≤ length cs * hi.
Proof.
  induction 1 as [|c cs [Hlo Hhi] _ [IHlo IHhi]]; csimpl; [lia|].
  rewrite length_app. lia.
Qed.

Lemma keys_bounds T : ∀ lo hi m d,
  wf lo hi T → full m d T → m ≤ 2 →
  m * 2 ^ d ≤ length (keys T) ∧ length (keys T) ≤ 3 * 4 ^ d.
Proof.
  induction T as [a ks vs nx|a ks cs IH] using tree_nested_ind; intros lo hi m d Hwf Hfull Hm.
  - rewrite keys_Lf. apply full_Lf in Hfull as [-> ?]. destruct Hwf as (_ & Hsz & _).
    unfold kOrder in Hsz. simpl. lia.
  - rewrite keys_Nd. apply full_Nd in Hfull as (Hks & d' & -> & Hfs).
    destruct Hwf as (Hsz & Hwc). pose proof (wf_children_length _ _ _ _ _ Hwc) as Hlen.
    unfold kOrder in Hsz.
    destruct (length_join_bounds (2 * 2 ^ d') (3 * 4 ^ d') cs) as [Hlo Hhi].
    { rewrite Forall_forall in IH, Hfs. apply Forall_forall. intros c Hc.
      destruct (wf_children_elem _ _ _ _ _ _ Hwc Hc) as (lo' & hi' & Hwc' & _).
      by apply (IH c Hc lo' hi' 2 d'); [|apply Hfs|]. }
    rewrite !Nat.pow_succ_r'. nia.
Qed.

(** ** The nodes of the store *)

Lemma covered h T a :
  rep h T → NoDup (addrs T) → length h = length (addrs T) → a < length h → a ∈ addrs T.
Proof.
  intros Hrep Hnd Hlen Ha.
  assert (addrs T ⊆+ seq 0 (length h)) as Hsub.
  { apply NoDup_submseteq; [done|]. intros x Hx. apply elem_of_seq.
    pose proof (rep_addrs h T x Hrep Hx). lia. }
  apply submseteq_length_Permutation in Hsub; [|rewrite length_seq; lia].
  rewrite Hsub. apply elem_of_seq. lia.
Qed.

Lemma in_tree_store s T d a : tree_inv_full s T d → in_tree s a ↔ a < length (store s).
Proof.
  intros (HT & _ & _ & Hlen). pose proof HT as (_ & Hrep & Hnd & _).
  rewrite (in_tree_subtree _ _ _ HT). split.
  - intros (ta & Hta & <-). eapply rep_addrs; [done|]. by apply list_elem_of_fmap_2.
  - intros Ha. apply (covered _ T) in Ha; [|done..].
    apply list_elem_of_fmap in Ha as (ta & -> & Hta). by eauto.
Qed.

(** ** A split below the root

    The shape of the path is kept along the calls of a cascade; so when a
    node that is not the root is split, its parent is there, is found, and
    has room for the index arithmetic of [insertInternalUpKey]. *)

Lemma calls_shaped c c' : calls c c' → call_shaped c → call_shaped c'.
Proof.
  destruct 1 as [fuel leaf t ks vs nx newKey rest Hleaf Hvs Hdrop Hroot
                |fuel x t ks cs upKey Hx Hup Hcs Hroot
                |fuel key l r t p ks cs Hp Hsp Hi Hj Hfull]; cbn [call_shaped store root_].
  - intros (ctx & ks0 & vs0 & nx0 & Hr & Hrep & Hnd & Hsh).
    pose proof Hrep as Hrep0. apply rep_plug in Hrep0 as [HX _]. apply rep_Lf in HX.
    rewrite Hleaf in HX. injection HX as <- <- <-.
    destruct ctx as [|f ctx]; [by rewrite Hr in Hroot|].
    destruct (leaf_split_step _ _ _ _ _ _ Hrep Hnd) as (HL & HR & Hnd1 & _).
    exists f, ctx, (leaf_left leaf ks vs (length (store t))),
      (leaf_right (length (store t)) ks vs nx).
    split_and!; [done|done| |done|done|done|done].
    rewrite Hr. f_equal. apply plug_cons_Nd.
  - intros (ctx & ks0 & cs0 & Hr & Hrep & Hnd & Hsh & _).
    pose proof Hrep as Hrep0. apply rep_plug in Hrep0 as [HX _]. apply rep_Nd in HX as [HX _].
    rewrite Hx in HX. injection HX as <- ->.
    destruct ctx as [|f ctx]; [by rewrite Hr in Hroot|].
    destruct (internal_split_step _ _ _ _ _ Hrep Hnd) as (HL & HR & Hnd1 & _).
    exists f, ctx, (split_left x ks cs0), (split_right (length (store t)) ks cs0).
    split_and!; [done|done| |done|done|done|done].
    rewrite Hr. f_equal. apply plug_cons_Nd.
  - intros (f & ctx & L & R & -> & -> & Hr & Hrep & HR & Hnd & Hsh).
    destruct (parent_insert_step _ f ctx L R key Hrep HR Hnd)
      as (Hfind & Hf & Hpos & Hcs' & Hrep1 & Hnd1 & Hroot1).
    destruct t as [h r0]. cbn [store root_] in *. subst r0.
    rewrite Hfind in Hp. injection Hp as <-.
    rewrite Hf in Hsp. injection Hsp as <- <-.
    rewrite Hpos, Hcs'. apply Forall_cons in Hsh as [Hshf Hsh].
    eexists ctx, _, _. split_and!; [|exact Hrep1|exact Hnd1|exact Hsh|].
    + by rewrite Hroot1.
    + rewrite length_vector_insert, length_app. simpl. lia.
Qed.

Lemma insert_calls_shaped key value t c : inv t → insert_calls key value t c → call_shaped c.
Proof.
  intros Hinv. destruct 1 as [leaf ks vs nx ks' vs' [r Hr] Hfl Hleaf Hscan Hb Hfull].
  destruct Hinv as [->|[T HT]]; [done|].
  destruct (descend_inv t T key HT)
    as (ctx & a & ks0 & vs0 & nx0 & lo & hi & -> & Hfl0 & Ha & _).
  rewrite Hfl0 in Hfl. injection Hfl as <-.
  rewrite Ha in Hleaf. injection Hleaf as <- <- <-.
  destruct HT as (Hroot & Hrep & Hnd & Hwf & _).
  destruct (replace_leaf _ ctx a ks0 vs0 nx0 ks' vs' Hrep Hnd) as (Hrep' & Hnd' & Hroot').
  cbn [call_shaped store root_]. exists ctx, ks', vs', nx0.
  split_and!; [|done|done|by eapply wf_ctx_shape].
  by rewrite Hroot, Hroot'.
Qed.

Lemma during_insert_shaped key value t c :
  inv t → during_insert key value t c → call_shaped c.
Proof.
  intros Hinv. induction 1 as [c Hc|c c' _ IH Hcc].
  - by eapply insert_calls_shaped.
  - by eapply calls_shaped.
Qed.

(** What [splitInternalNode] does on a node below the root: the promoted
    key goes into the parent at the position of the node, the new node right
    after it, and the parent is split in turn if that fills it. *)
Lemma split_below_root fuel x s ks cs upKey :
  call_shaped (SplitInternal (S fuel) x s) →
  root_ s ≠ Some x →
  store s !! x = Some (BPlusInternalNode ks cs) →
  ks !! (length ks / 2) = Some upKey →
  length ks / 2 + 1 ≤ length cs →
  ∃ p pks pcs i,
    holds_child s p x
    ∧ store s !! p = Some (BPlusInternalNode pks pcs)
    ∧ length pcs = S (length pks)
    ∧ pcs !! i = Some x
    ∧ (∀ j, pcs !! j = Some x → j = i)
    ∧ findParent (MkTree (internal_split_store (store s) x ks cs) (root_ s)) x
      = Some (Some p)
    ∧ splitInternalNode (S fuel) x s
      = (if kOrder <=? S (length pks) then splitInternalNode fuel p else Completed)
          (MkTree
             (<[p := BPlusInternalNode
                       (vector_insert i upKey pks)
                       (vector_insert (i + 1) (length (store s)) pcs)]>
                (internal_split_store (store s) x ks cs))
             (root_ s)).
Proof.
  intros (ctx & ks0 & cs0 & Hr & Hrep & Hnd & Hsh & Hlen) Hroot Hx Hup Hcs.
  pose proof Hrep as Hrep0. apply rep_plug in Hrep0 as [HX _]. apply rep_Nd in HX as [HX _].
  rewrite Hx in HX. injection HX as <- ->.
  destruct ctx as [|f ctx]; [by rewrite Hr in Hroot|].
  destruct (internal_split_step _ _ _ _ _ Hrep Hnd) as (HL & HR & Hnd1 & Hlen1).
  destruct (parent_insert_step _ f ctx _ _ upKey HL HR Hnd1)
    as (Hfind & Hf & Hpos & Hcs' & _).
  rewrite <- (plug_cons_Nd f ctx (Nd x ks cs0) (split_left x ks cs0)) in Hfind.
  cbn [taddr split_left] in Hfind, Hf, Hpos.
  apply Forall_cons in Hsh as [Hshf Hsh].
  pose proof (NoDup_frame_parts _ _ _ _ Hnd1) as (_ & _ & _ & _ & _ & HLl).
  assert (x ∉ taddr <$> fl f) as Hxl by done.
  pose proof Hrep as Hrep0.
  apply (rep_plug _ ctx (fill f (Nd x ks cs0))) in Hrep0 as [Hfill _].
  apply rep_Nd in Hfill as [Hp _].
  set (pcs := (taddr <$> fl f) ++ x :: (taddr <$> fr f)) in *.
  assert (pcs !! length (fl f) = Some x) as Hi.
  { unfold pcs. rewrite lookup_app_r by (by rewrite length_fmap).
    by rewrite length_fmap, Nat.sub_diag. }
  assert (taddr <$> fl f ++ Nd x ks cs0 :: fr f = pcs) as Hpcs
    by (unfold pcs; by rewrite fmap_app).
  rewrite Hpcs in Hp.
  exists (fa f), (fks f), pcs, (length (fl f)).
  destruct s as [h r0]. cbn [store root_] in *. subst r0.
  split_and!.
  - split.
    + apply (in_tree_subtree_rep _ (plug (f :: ctx) (Nd x ks cs0))); [done|done|].
      exists (fill f (Nd x ks cs0)). split; [apply (hole_subtree ctx)|done].
    + exists (fks f), pcs. split; [done|].
      by eapply list_elem_of_lookup_2.
  - done.
  - unfold pcs. rewrite length_app. cbn [length]. rewrite !length_fmap. lia.
  - done.
  - intros j Hj. unfold pcs in Hj.
    destruct (decide (j < length (fl f))) as [Hlt|Hge].
    { rewrite lookup_app_l in Hj by (by rewrite length_fmap).
      exfalso. apply Hxl. by eapply list_elem_of_lookup_2. }
    destruct (decide (j = length (fl f))) as [|Hne]; [done|]. exfalso.
    rewrite lookup_app_r in Hj by (rewrite length_fmap; lia).
    rewrite length_fmap in Hj.
    destruct (j - length (fl f)) as [|j'] eqn:Hjj; [lia|]. simpl in Hj.
    rewrite addrs_plug in Hnd. apply NoDup_app in Hnd as (HndX & Hdisj & _).
    apply (Hdisj x); [apply (taddr_in_addrs (Nd x ks cs0))|].
    rewrite ctx_addrs_cons. apply elem_of_app. left. unfold frame_addrs.
    apply list_elem_of_further, elem_of_app. right.
    apply list_elem_of_lookup_2 in Hj.
    apply list_elem_of_fmap in Hj as (c & -> & Hc).
    eapply addrs_child; [done|apply taddr_in_addrs].
  - done.
  - cbn [splitInternalNode store root_]. rewrite Hx, Hup.
    replace (length ks / 2 + 1 <=? length (taddr <$> cs0)) with true
      by (symmetry; by apply Nat.leb_le).
    rewrite decide_False.
    2:{ intros [= Heq]. by eapply root_not_hole. }
    unfold insertIntoParent. rewrite Hfind. cbn [store root_]. rewrite Hf, Hpos.
    replace (length (fl f) <=? length (fks f)) with true
      by (symmetry; apply Nat.leb_le; lia).
    replace (length (fl f) + 1 <=? length pcs) with true
      by (symmetry; apply Nat.leb_le; unfold pcs;
          rewrite length_app, length_fmap; simpl; lia).
    cbn [andb]. rewrite length_vector_insert. by destruct (kOrder <=? _).
Qed.

(* ================================================================== *)
(** * The properties of the specification *)

(** C1.  After any sequence of [insert] calls on the empty tree, [search]
    returns for every inserted key the value of its most recent insert; and
    inserting a key that is already there only overwrites its value in the
    leaf that holds it: the root, every other node, and the keys and the
    [next_] link of that leaf stay as they are. *)
Theorem C1_insert_then_search (kvs : list (Z * Z)) :
  ∃ t,
    insert_all kvs empty_tree = Some t
    ∧ (∀ k v, last_insert k kvs = Some v → search k t = Some (Some v, t))
    ∧ (∀ k value, k ∈ kvs.*1 →
         ∃ leaf ks vs nx i,
           store t !! leaf = Some (BPlusLeafNode ks vs nx)
           ∧ ks !! i = Some k ∧ i < length vs
           ∧ insert k value t
             = Completed (MkTree
                 (<[leaf := BPlusLeafNode ks (<[i := value]> vs) nx]> (store t))
                 (root_ t))).
Proof.
  destruct (inv_insert_all kvs empty_tree inv_empty) as (t & Hall & Ht & Hf).
  exists t. split_and!; [done| |].
  - intros k v Hlast. rewrite (inv_search t k Ht), Hf, Hlast. done.
  - intros k value Hk. destruct (last_insert_Some k kvs Hk) as [v0 Hlast].
    destruct (insert_existing t k v0 value) as (leaf & ks & vs & nx & i & ? & ? & Hv & ?).
    { by rewrite Hf, Hlast. }
    exists leaf, ks, vs, nx, i. split_and!; try done. by eapply lookup_lt_Some.
Qed.

(** C2.  On a reachable tree [search] always returns, leaves the tree as it
    is, returns nothing exactly when the tree is empty or no leaf of the
    tree stores the key, and otherwise returns the value of the one leaf
    entry with that key. *)
Theorem C2_search_result (t : BPlusTree) (key : Z) :
  reachable t →
  ∃ r,
    search key t = Some (r, t)
    ∧ (r = None ↔ root_ t = None ∨ ¬ stored t key)
    ∧ ∀ v, r = Some v →
        ∃ leaf i,
          leaf_entry t leaf i key v
          ∧ ∀ leaf' i' v', leaf_entry t leaf' i' key v' → leaf' = leaf ∧ i' = i ∧ v' = v.
Proof.
  intros Hreach. apply reachable_inv in Hreach as [->|[T HT]].
  { exists None. split_and!; [done|by split; [left|]|done]. }
  exists (assoc key (entries T)). split_and!; [by apply search_inv| |].
  - pose proof HT as (Hroot & _ & _ & Hwf & _).
    rewrite assoc_None, (entries_fst T None None Hwf), (stored_keys t T key HT).
    rewrite Hroot. naive_solver.
  - intros v Hv.
    destruct (descend_inv t T key HT)
      as (ctx & a & ks & vs & nx & lo & hi & HTeq & _ & _ & Hwl & _ & _ & _ & Has & _).
    pose proof HT as (_ & _ & _ & Hwf & _).
    destruct Hwl as (Hlen & _ & Hsort & _).
    rewrite Hv, assoc_scan_key in Has by done.
    destruct (scan_key ks key) as [i|] eqn:Hscan; [|done].
    apply scan_key_Some in Hscan as [Hk _].
    assert (Lf a ks vs nx ∈ subtrees T) as Hsub by (subst T; apply hole_subtree).
    exists a, i. split.
    + apply (leaf_entry_subtree t T); [done|]. by exists ks, vs, nx.
    + intros leaf' i' v' He.
      apply (leaf_entry_subtree t T) in He as (ks' & vs' & nx' & Hsub' & Hk' & Hv'); [|done].
      assert (Lf leaf' ks' vs' nx' = Lf a ks vs nx) as Heq.
      { apply (sorted_leaves_disjoint (leaf_seq T) _ _ key).
        - by apply (wf_keys T None None).
        - apply leaf_seq_subtrees. split; [done|]. by eauto.
        - apply leaf_seq_subtrees. split; [done|]. by eauto.
        - simpl. by eapply list_elem_of_lookup_2.
        - simpl. by eapply list_elem_of_lookup_2. }
      injection Heq as -> -> -> ->.
      assert (i' = i) as ->.
      { eapply NoDup_lookup; [by apply StronglySorted_lt_NoDup|done|done]. }
      split_and!; [done|done|congruence].
Qed.

(** C3.  In a reachable tree every node found from the root is in the
    store, a leaf among them holds at most [kOrder - 1 = 3] keys and values,
    and an internal node at most [kOrder - 1 = 3] keys. *)
Theorem C3_order_invariant (t : BPlusTree) (a : addr) :
  reachable t → in_tree t a →
  ∃ n, store t !! a = Some n
       ∧ match n with
         | BPlusLeafNode ks vs _ => length ks ≤ kOrder - 1 ∧ length vs ≤ kOrder - 1
         | BPlusInternalNode ks _ => length ks ≤ kOrder - 1
         end.
Proof.
  intros Hreach Hin. apply reachable_inv in Hreach as [->|[T HT]].
  { by destruct Hin as (r & Hr & _). }
  apply (in_tree_subtree _ _ _ HT) in Hin as (t' & Ht' & <-).
  destruct HT as (_ & Hrep & _ & Hwf & _).
  exists (node_of t'). split; [by apply Hrep|].
  destruct (wf_subtree T _ _ _ Hwf Ht') as (lo & hi & Hwt & _).
  destruct t' as [a ks vs nx|a ks cs]; simpl in *.
  - destruct Hwt as (Hlen & Hsz & _). unfold kOrder in *. lia.
  - destruct Hwt as (Hsz & _). unfold kOrder in *. lia.
Qed.

(** C10.  On a reachable tree [insert key value] completes, and [search]
    for any other key returns afterwards what it returned before. *)
Theorem C10_insert_frame (t : BPlusTree) (key value : Z) :
  reachable t →
  ∃ t',
    insert key value t = Completed t'
    ∧ ∀ k, k ≠ key →
        ∃ r, search k t = Some (r, t) ∧ search k t' = Some (r, t').
Proof.
  intros Hreach. apply reachable_inv in Hreach.
  destruct (inv_insert t key value Hreach) as (t' & Hins & Ht' & Hf).
  exists t'. split; [done|]. intros k Hk. exists (found k t).
  split; [by apply inv_search|].
  rewrite (inv_search t' k Ht'), Hf. by rewrite decide_False.
Qed.

(** C4.  In a reachable tree, for every internal node and every child index
    [i], every key of every node below [childPointers_[i]] is at least
    [keys_[i-1]] (for [i > 0]) and less than [keys_[i]] (for
    [i < keys_.size()]).  Hence [findLeaf key] ends in a leaf, the ranges on
    the way down all hold [key], no other leaf has that property, and a key
    equal to separator [j] is routed to child [j + 1]. *)
Theorem C4_separators (t : BPlusTree) :
  reachable t →
  (∀ a ks cs i c b n k,
     in_tree t a → store t !! a = Some (BPlusInternalNode ks cs) →
     cs !! i = Some c → reaches (store t) c b →
     store t !! b = Some n → k ∈ node_keys n →
     (∀ j k0, i = S j → ks !! j = Some k0 → (k0 ≤ k)%Z)
     ∧ (∀ k1, ks !! i = Some k1 → (k < k1)%Z))
  ∧ (∀ r key, root_ t = Some r →
       ∃ leaf,
         findLeaf t key = Some (Some leaf)
         ∧ is_leaf (store t) leaf
         ∧ covers (store t) key r leaf
         ∧ ∀ leaf', is_leaf (store t) leaf' → covers (store t) key r leaf' → leaf' = leaf)
  ∧ (∀ a ks cs j key,
       in_tree t a → store t !! a = Some (BPlusInternalNode ks cs) →
       ks !! j = Some key → findLeaf_index ks key = S j).
Proof.
  intros Hreach. apply reachable_inv in Hreach as [->|[T HT]].
  { split_and!.
    - by intros a ks cs i c b n k (r & Hr & _).
    - done.
    - by intros a ks cs j key (r & Hr & _). }
  pose proof HT as (Hroot & Hrep & Hnd & Hwf & _). split_and!.
  - intros a ks cs i c b n k Hin Ha Hc Hreach Hb Hk.
    apply (in_tree_subtree _ _ _ HT) in Hin as (ta & Hta & <-).
    rewrite (Hrep _ Hta) in Ha. destruct ta as [|a ks' cs']; [done|].
    simpl in Ha. injection Ha as -> <-.
    rewrite list_lookup_fmap in Hc. destruct (cs' !! i) as [c'|] eqn:Hc'; [|done].
    simpl in Hc. injection Hc as <-.
    destruct (wf_subtree T _ _ _ Hwf Hta) as (lo & hi & [_ Hwa] & _).
    destruct (wf_children_lookup wf _ _ _ _ _ _ Hwa Hc') as (lo' & hi' & Hwc & _ & Hlo & Hhi).
    assert (c' ∈ subtrees T) as Hsub.
    { eapply subtrees_trans; [|exact Hta].
      eapply subtrees_child; [apply subtrees_self|by eapply list_elem_of_lookup_2]. }
    destruct (reaches_subtree _ _ _ Hreach c') as (tb & Htb & <-);
      [by eapply rep_subtree|done|].
    rewrite (Hrep tb) in Hb by (by eapply subtrees_trans).
    injection Hb as <-. rewrite node_keys_of in Hk.
    destruct (wf_subtree_keys c' lo' hi' tb k Hwc Htb Hk) as [Hl Hh]. split.
    + intros j k0 Hj Hk0. rewrite (Hlo _ _ Hj Hk0) in Hl. done.
    + intros k1 Hk1. rewrite (Hhi _ Hk1) in Hh. done.
  - intros r key Hr. rewrite Hroot in Hr. injection Hr as <-.
    destruct (descend_inv t T key HT)
      as (ctx & a & ks & vs & nx & lo & hi & _ & Hfl & _).
    exists a. pose proof Hfl as Hfl'. unfold findLeaf in Hfl'. rewrite Hroot in Hfl'.
    apply findLeaf_loop_covers in Hfl' as [Hcov Hleaf]. split_and!; [done|done|done|].
    intros leaf' Hleaf' Hcov'. unfold findLeaf in Hfl. rewrite Hroot in Hfl.
    assert (Some (Some a) = Some (Some leaf')) as Heq; [|congruence].
    f_equal. eapply (covers_findLeaf_loop _ _ _ _ Hcov' Hleaf'); [|exact Hfl].
    intros a' ks' cs' Hreach'. apply (in_tree_sorted t T); [done|].
    by exists (taddr T).
  - intros a ks cs j key Hin Ha Hj.
    pose proof (in_tree_sorted t T a ks cs HT Hin Ha) as Hs.
    symmetry. apply range_index_unique; [done|]. split_and!.
    + by eapply lookup_lt_Some.
    + intros k0 Hk0. eapply (sorted_lookup_lt ks j (S j)); [done|done|done|lia].
    + intros j' k0 [= <-] Hk0. rewrite Hj in Hk0. injection Hk0 as <-. lia.
Qed.

(** C5.  In a reachable tree the walk from the leftmost leaf along the
    [next_] links ends, and the keys it meets are strictly ascending (hence
    each met once) and are exactly the keys stored in the leaves of the
    tree; in particular the keys of every leaf are strictly ascending. *)
Theorem C5_leaf_chain (t : BPlusTree) :
  reachable t →
  ∃ ks,
    walk t = Some ks
    ∧ StronglySorted Z.lt ks
    ∧ NoDup ks
    ∧ (∀ k, k ∈ ks ↔ stored t k)
    ∧ (∀ leaf lks vs nx,
         in_tree t leaf → store t !! leaf = Some (BPlusLeafNode lks vs nx) →
         StronglySorted Z.lt lks).
Proof.
  intros Hreach. apply reachable_inv in Hreach as [->|[T HT]].
  { exists []. split_and!; [done|constructor|constructor| |].
    - intros k. split; [by intros ?%elem_of_nil|].
      by intros (leaf & ks & vs & nx & (r & Hr & _) & _).
    - by intros leaf lks vs nx (r & Hr & _). }
  pose proof HT as (_ & Hrep & _ & Hwf & _).
  pose proof (wf_keys T None None Hwf) as [Hs _].
  exists (keys T). split_and!; [by apply walk_inv|done|by apply StronglySorted_lt_NoDup| |].
  - intros k. symmetry. by apply stored_keys.
  - intros leaf lks vs nx Hin Hleaf.
    apply (in_tree_subtree _ _ _ HT) in Hin as (tl & Htl & <-).
    rewrite (Hrep _ Htl) in Hleaf.
    destruct (wf_subtree T _ _ _ Hwf Htl) as (lo & hi & Hwt & _).
    apply wf_tkeys in Hwt as [Hst _]. rewrite <- node_keys_of in Hst.
    injection Hleaf as Hleaf. by rewrite Hleaf in Hst.
Qed.

(** C6.  [splitLeafNode] on a leaf with [kOrder = 4] entries splits at
    [mid = 4 / 2 = 2]: the entries at positions 0 and 1 stay, those at 2 and
    3 go to a new leaf at the next free address; the new leaf takes over the
    old [next_] link and the old leaf links to the new one; the separator is
    the first key of the new leaf.  If the leaf was the root, a new root with
    that one key and the two leaves as children is installed; otherwise the
    separator goes to [insertInternalNode].  Whatever the cascade above
    does, both leaves keep these contents. *)
Theorem C6_leaf_split (fuel : nat) (t : BPlusTree) (leaf : addr)
    (ks vs : list Z) (nx : option addr) :
  store t !! leaf = Some (BPlusLeafNode ks vs nx) →
  length ks = kOrder → length vs = kOrder →
  ∃ newKey,
    length ks / 2 = 2
    ∧ head (drop 2 ks) = Some newKey
    ∧ leaf_split_store (store t) leaf ks vs nx
      = <[leaf := BPlusLeafNode (take 2 ks) (take 2 vs) (Some (length (store t)))]> (store t)
        ++ [BPlusLeafNode (drop 2 ks) (drop 2 vs) nx]
    ∧ splitLeafNode fuel leaf t
      = (if decide (root_ t = Some leaf)
         then Completed
                (MkTree (leaf_split_store (store t) leaf ks vs nx
                         ++ [BPlusInternalNode [newKey] [leaf; length (store t)]])
                        (Some (S (length (store t)))))
         else insertInternalNode fuel newKey leaf (length (store t))
                (MkTree (leaf_split_store (store t) leaf ks vs nx) (root_ t)))
    ∧ (∀ t', tree_after (splitLeafNode fuel leaf t) = Some t' →
         store t' !! leaf
         = Some (BPlusLeafNode (take 2 ks) (take 2 vs) (Some (length (store t))))
         ∧ store t' !! length (store t)
           = Some (BPlusLeafNode (drop 2 ks) (drop 2 vs) nx)).
Proof.
  intros Hleaf Hks Hvs.
  assert (length ks / 2 = 2) as Hmid by (by rewrite Hks).
  destruct (drop 2 ks) as [|newKey rest] eqn:Hdrop.
  { apply (f_equal length) in Hdrop. rewrite length_drop, Hks in Hdrop. done. }
  exists newKey.
  assert (splitLeafNode fuel leaf t
      = (if decide (root_ t = Some leaf)
         then Completed
                (MkTree (leaf_split_store (store t) leaf ks vs nx
                         ++ [BPlusInternalNode [newKey] [leaf; length (store t)]])
                        (Some (S (length (store t)))))
         else insertInternalNode fuel newKey leaf (length (store t))
                (MkTree (leaf_split_store (store t) leaf ks vs nx) (root_ t)))) as Heq.
  { unfold splitLeafNode. rewrite Hleaf, Hmid, Hvs, Hdrop. done. }
  split_and!; [done|done|by unfold leaf_split_store; rewrite Hmid, Hdrop|done|].
  assert (leaf < length (store t)) as Hlt by (by eapply lookup_lt_Some).
  assert (leaf_split_store (store t) leaf ks vs nx !! leaf
          = Some (BPlusLeafNode (take 2 ks) (take 2 vs) (Some (length (store t))))) as HL.
  { unfold leaf_split_store. rewrite Hmid, lookup_app_l by (by rewrite length_insert).
    by apply list_lookup_insert_eq. }
  assert (leaf_split_store (store t) leaf ks vs nx !! length (store t)
          = Some (BPlusLeafNode (drop 2 ks) (drop 2 vs) nx)) as HR.
  { unfold leaf_split_store. rewrite Hmid, lookup_app_r by (by rewrite length_insert).
    by rewrite length_insert, Nat.sub_diag, Hdrop. }
  rewrite Heq. intros t'. rewrite <- Hdrop. destruct (decide (root_ t = Some leaf)).
  - intros [= <-]. cbn [store]. split; by apply lookup_app_l_Some.
  - intros Hafter. split.
    + eapply insertIntoParent_keeps_leaves; [|exact Hafter|exact HL].
      intros p s s'. apply splitInternalNode_keeps_leaves.
    + eapply insertIntoParent_keeps_leaves; [|exact Hafter|exact HR].
      intros p s s'. apply splitInternalNode_keeps_leaves.
Qed.

(** C7.  [splitInternalNode] on an internal node with [kOrder = 4] keys
    splits at [midIndex = 4 / 2 = 2]: the key at index 2 moves up and is in
    neither half, keys 0 and 1 and children 0 to 2 stay, key 3 and children 3
    and 4 go to a new internal node at the next free address.  If the node
    was the root, a new root with the promoted key and the two halves as
    children is installed; otherwise [insertInternalUpKey] puts the key and
    the new node into the parent, right after the old node, and splits the
    parent in turn when that fills it.  The parent is there whenever the
    store holds a tree around the node ([call_shaped]): it is a node of the
    tree that holds the split node at exactly one position, [findParent]
    returns it, the promoted key goes to that position among its keys and
    the new node right behind the split node among its children.  And the
    store does hold such a tree at every split that comes up in the course
    of an insert into a reachable tree, and the split then completes. *)
Theorem C7_internal_split (fuel : nat) (t : BPlusTree) (x : addr)
    (ks : list Z) (cs : list addr) :
  store t !! x = Some (BPlusInternalNode ks cs) →
  length ks = kOrder → length cs = S kOrder →
  ∃ upKey,
    length ks / 2 = 2
    ∧ ks !! 2 = Some upKey
    ∧ ks = take 2 ks ++ upKey :: drop 3 ks
    ∧ cs = take 3 cs ++ drop 3 cs
    ∧ (NoDup ks → (upKey ∉ take 2 ks) ∧ (upKey ∉ drop 3 ks))
    ∧ internal_split_store (store t) x ks cs
      = <[x := BPlusInternalNode (take 2 ks) (take 3 cs)]> (store t)
        ++ [BPlusInternalNode (drop 3 ks) (drop 3 cs)]
    ∧ splitInternalNode (S fuel) x t
      = (if decide (root_ t = Some x)
         then Completed
                (MkTree (internal_split_store (store t) x ks cs
                         ++ [BPlusInternalNode [upKey] [x; length (store t)]])
                        (Some (S (length (store t)))))
         else insertInternalUpKey fuel upKey x (length (store t))
                (MkTree (internal_split_store (store t) x ks cs) (root_ t)))
    ∧ (∀ s key l r p pks pcs,
         findParent s l = Some (Some p) →
         store s !! p = Some (BPlusInternalNode pks pcs) →
         l ∈ pcs → length pcs = S (length pks) →
         insertInternalUpKey fuel key l r s
         = (if kOrder <=? S (length pks) then splitInternalNode fuel p else Completed)
             (MkTree
                (<[p := BPlusInternalNode
                          (vector_insert (child_position pcs l) key pks)
                          (vector_insert (child_position pcs l + 1) r pcs)]> (store s))
                (root_ s)))
    ∧ (call_shaped (SplitInternal (S fuel) x t) →
       root_ t ≠ Some x →
       ∃ p pks pcs i,
         holds_child t p x
         ∧ store t !! p = Some (BPlusInternalNode pks pcs)
         ∧ length pcs = S (length pks)
         ∧ pcs !! i = Some x
         ∧ (∀ j, pcs !! j = Some x → j = i)
         ∧ findParent (MkTree (internal_split_store (store t) x ks cs) (root_ t)) x
           = Some (Some p)
         ∧ splitInternalNode (S fuel) x t
           = (if kOrder <=? S (length pks) then splitInternalNode fuel p else Completed)
               (MkTree
                  (<[p := BPlusInternalNode
                            (vector_insert i upKey pks)
                            (vector_insert (i + 1) (length (store t)) pcs)]>
                     (internal_split_store (store t) x ks cs))
                  (root_ t)))
    ∧ (∀ t0 key value,
         reachable t0 →
         during_insert key value t0 (SplitInternal (S fuel) x t) →
         call_shaped (SplitInternal (S fuel) x t)
         ∧ ∃ t', splitInternalNode (S fuel) x t = Completed t').
Proof.
  intros Hx Hks Hcs.
  destruct ks as [|k0 [|k1 [|k2 [|k3 [|]]]]]; try done.
  destruct cs as [|c0 [|c1 [|c2 [|c3 [|c4 [|]]]]]]; try done.
  exists k2. split_and!; try done.
  - intros Hnd. rewrite !NoDup_cons in Hnd. rewrite !not_elem_of_cons in Hnd.
    simpl. rewrite !not_elem_of_cons. naive_solver.
  - cbn [splitInternalNode]. rewrite Hx. done.
  - intros s key l r p pks pcs Hp Hsp Hl Hlen.
    unfold insertInternalUpKey, insertIntoParent. rewrite Hp, Hsp.
    pose proof (child_position_lt pcs l Hl).
    replace (child_position pcs l <=? length pks) with true
      by (symmetry; apply Nat.leb_le; lia).
    replace (child_position pcs l + 1 <=? length pcs) with true
      by (symmetry; apply Nat.leb_le; lia).
    cbn [andb]. rewrite length_vector_insert. by destruct (kOrder <=? _).
  - intros Hshape Hroot.
    by apply (split_below_root fuel x t [k0; k1; k2; k3] [c0; c1; c2; c3; c4] k2);
      [| | | |simpl; lia].
  - intros t0 key value Hreach Hcall. apply reachable_inv in Hreach.
    split; [by eapply during_insert_shaped|].
    destruct (inv_insert t0 key value Hreach) as (t' & Hins & _).
    exists t'. rewrite <- Hins. apply (during_insert_run _ _ _ _ Hcall).
Qed.

(** C8, as the code has it.  The nine inserts of [main] leave a tree of two
    levels: the root is an internal node with the keys 10, 16, 20 and its
    four children are leaves.  [search 18] returns 180 and [search 30]
    returns nothing. *)
Theorem C8_demo_two_levels :
  insert_all demo_inserts empty_tree = Some demo_tree
  ∧ two_levels demo_tree
  ∧ store demo_tree !! 2 = Some (BPlusInternalNode [10; 16; 20]%Z [0; 1; 4; 3])
  ∧ search 18 demo_tree = Some (Some 180%Z, demo_tree)
  ∧ search 30 demo_tree = Some (None, demo_tree).
Proof.
  split_and!; try reflexivity.
  exists 2, [10; 16; 20]%Z, [0; 1; 4; 3]. split_and!; [done|done|].
  repeat constructor; unfold is_leaf; simpl; by eauto.
Qed.

(** C8 as stated fails: the tree the nine inserts leave has no internal
    node below its root. *)
Lemma C8_not_three_levels :
  ¬ ∃ t, insert_all demo_inserts empty_tree = Some t
         ∧ three_levels t
         ∧ search 18 t = Some (Some 180%Z, t)
         ∧ search 30 t = Some (None, t).
Proof.
  intros (t & Ht & (r & ks & cs & c & cks & ccs & Hr & Hrn & Hc & Hcn) & _).
  assert (insert_all demo_inserts empty_tree = Some demo_tree) as Hd by reflexivity.
  rewrite Hd in Ht. injection Ht as <-.
  simpl in Hr. injection Hr as <-. simpl in Hrn. injection Hrn as <- <-.
  repeat (apply elem_of_cons in Hc as [->|Hc]; [done|]).
  by apply elem_of_nil in Hc.
Qed.

(** C9.  A node [findParent] returns is always a node of the tree that has
    the looked-up node among its children.  On a reachable tree [insert]
    always completes, so the defensive return is never taken; and whenever,
    in the course of an insert, a node that is not the root has been split
    and its halves are handed to [insertInternalNode] or
    [insertInternalUpKey], [findParent] returns a node that holds the split
    node among its children, and no other node of the tree does.  Between
    inserts, too, every node but the root has exactly one node holding it,
    which is the one [findParent] returns. *)
Theorem C9_parent_found (t : BPlusTree) :
  (∀ a p, findParent t a = Some (Some p) → holds_child t p a)
  ∧ (reachable t →
       (∀ key value, ∃ t', insert key value t = Completed t')
       ∧ (∀ key value fuel k l r s,
            during_insert key value t (IntoParent fuel k l r s) →
            run (IntoParent fuel k l r s) = insert key value t
            ∧ ∃ p, findParent s l = Some (Some p)
                   ∧ holds_child s p l
                   ∧ ∀ q, holds_child s q l → q = p)
       ∧ (∀ a, in_tree t a → root_ t ≠ Some a → ∃ p, holds_child t p a)
       ∧ (∀ p a, holds_child t p a → findParent t a = Some (Some p))
       ∧ (∀ p q a, holds_child t p a → holds_child t q a → p = q)).
Proof.
  split; [apply findParent_sound|].
  intros Hreach. apply reachable_inv in Hreach.
  assert (∀ p a, holds_child t p a → findParent t a = Some (Some p)) as Hfind.
  { intros p a Hp. destruct Hreach as [->|[T (Hroot & Hrep & Hnd & _)]].
    - by destruct Hp as [(r & Hr & _) _].
    - by eapply findParent_holder. }
  split_and!.
  - intros key value. destruct (inv_insert t key value Hreach) as (t' & Hins & _).
    by exists t'.
  - intros key value fuel k l r s Hcall. split; [by apply during_insert_run|].
    eapply into_parent_found, during_insert_ok; [exact Hreach|exact Hcall].
  - intros a Hin Hne. destruct Hreach as [->|[T (Hroot & Hrep & _)]].
    + by destruct Hin as (r & Hr & _).
    + by eapply holder_exists.
  - done.
  - intros p q a Hp Hq. apply Hfind in Hp, Hq. congruence.
Qed.

(** * Further properties of the code *)

(** X1.  A key that none of the [insert] calls had is not found: after any
    sequence of inserts on the empty tree, [search] returns nothing for it
    (and leaves the tree as it is). *)
Theorem X1_search_never_inserted (kvs : list (Z * Z)) (t : BPlusTree) (k : Z) :
  insert_all kvs empty_tree = Some t → k ∉ kvs.*1 → search k t = Some (None, t).
Proof.
  intros Hall Hk.
  destruct (inv_insert_all kvs empty_tree inv_empty) as (t' & Hall' & Ht' & Hf).
  rewrite Hall in Hall'. injection Hall' as <-.
  rewrite (inv_search t k Ht'), Hf. apply last_insert_None in Hk. by rewrite Hk.
Qed.

(** X2.  After any sequence of [insert] calls on the empty tree the walk
    along the leaves yields exactly the keys that were inserted, each once,
    in ascending order. *)
Theorem X2_walk_inserted_keys (kvs : list (Z * Z)) (t : BPlusTree) :
  insert_all kvs empty_tree = Some t →
  ∃ ks, walk t = Some ks ∧ StronglySorted Z.lt ks ∧ ∀ k, k ∈ ks ↔ k ∈ kvs.*1.
Proof.
  intros Hall.
  destruct (inv_insert_all kvs empty_tree inv_empty) as (t' & Hall' & Ht' & Hf).
  rewrite Hall in Hall'. injection Hall' as <-.
  destruct (walk_found t Ht') as (ks & Hwalk & Hsort & Hel).
  exists ks. split_and!; [done|done|]. intros k. rewrite Hel, Hf.
  destruct (last_insert k kvs) as [v|] eqn:Hlast.
  - split; [|by eauto]. intros _.
    destruct (decide (k ∈ kvs.*1)) as [|Hn]; [done|].
    apply last_insert_None in Hn. congruence.
  - apply last_insert_None in Hlast. split; [|done]. by intros [? ?].
Qed.

(** X3.  In a reachable tree every leaf has one value per key, and its
    [next_] is null or a leaf of the tree; every internal node has one child
    more than it has keys, its children are pairwise different nodes of the
    tree, none of them the node itself and none the root.  So the index and
    pointer accesses of [findLeaf] and [search] stay inside the vectors and
    hit live nodes. *)
Theorem X3_node_shape (t : BPlusTree) (a : addr) (n : BPlusNode) :
  reachable t → in_tree t a → store t !! a = Some n →
  match n with
  | BPlusLeafNode ks vs nx =>
    length vs = length ks
    ∧ ∀ b, nx = Some b → in_tree t b ∧ is_leaf (store t) b
  | BPlusInternalNode ks cs =>
    length cs = S (length ks)
    ∧ NoDup cs
    ∧ ∀ c, c ∈ cs → in_tree t c ∧ c ≠ a ∧ root_ t ≠ Some c
  end.
Proof.
  intros Hreach Hin Ha. apply reachable_inv in Hreach as [->|[T HT]].
  { by destruct Hin as (r & Hr & _). }
  pose proof HT as (Hroot & Hrep & Hnd & Hwf & Hlk).
  pose proof Hin as Hin'.
  apply (in_tree_subtree _ _ _ HT) in Hin' as (ta & Hta & <-).
  rewrite (Hrep _ Hta) in Ha. injection Ha as <-.
  destruct (wf_subtree T _ _ _ Hwf Hta) as (lo & hi & Hwt & _).
  destruct ta as [a ks vs nx|a ks cs]; simpl in *.
  - destruct Hwt as (Hlen & _). split; [done|]. intros b ->.
    assert (Lf a ks vs (Some b) ∈ leaf_seq T) as Hl
      by (apply leaf_seq_subtrees; split; [done|by eauto]).
    destruct (linked_next _ _ _ b Hlk Hl eq_refl) as [(l' & Hl' & <-)|?]; [|done].
    apply leaf_seq_subtrees in Hl' as (Hsub & a' & ks' & vs' & nx' & ->).
    split.
    + apply (in_tree_subtree _ _ _ HT). by eauto.
    + exists ks', vs', nx'. by apply (Hrep _ Hsub).
  - destruct Hwt as (_ & Hwc). split; [|split].
    + rewrite length_fmap. by eapply wf_children_length.
    + apply NoDup_children. apply (NoDup_subtree T _ Hta) in Hnd.
      rewrite addrs_Nd in Hnd. by apply NoDup_cons in Hnd as [_ ?].
    + intros c (c' & -> & Hc')%list_elem_of_fmap.
      assert (c' ∈ subtrees T) as Hsub.
      { eapply subtrees_trans; [|exact Hta].
        eapply subtrees_child; [apply subtrees_self|done]. }
      assert (taddr c' ≠ a) as Hne.
      { apply (NoDup_subtree T _ Hta) in Hnd.
        rewrite addrs_Nd in Hnd. apply NoDup_cons in Hnd as [Hx _].
        intros <-. apply Hx. eapply addrs_child; [done|apply taddr_in_addrs]. }
      split_and!; [|done|].
      * apply (in_tree_subtree _ _ _ HT). by eauto.
      * intros Hrc.
        assert (holds_child t a (taddr c')) as Hh.
        { split; [done|]. exists ks, (taddr <$> cs).
          split; [by apply (Hrep _ Hta)|by apply list_elem_of_fmap_2]. }
        apply (findParent_holder t T _ _ Hroot Hrep Hnd) in Hh.
        rewrite Hroot in Hrc. injection Hrc as Hrc.
        unfold findParent in Hh. rewrite Hroot, <- Hrc in Hh.
        rewrite findParent_root in Hh; [done|done|done|by apply height_le_store].
Qed.

(** X4.  In a reachable tree no node is empty: every node has a key, and
    every leaf other than the root has two at least (a split leaves two
    entries in each half, and nothing is ever removed). *)
Theorem X4_min_occupancy (t : BPlusTree) (a : addr) (n : BPlusNode) :
  reachable t → in_tree t a → store t !! a = Some n →
  match n with
  | BPlusLeafNode ks _ _ => 1 ≤ length ks ∧ (root_ t ≠ Some a → 2 ≤ length ks)
  | BPlusInternalNode ks _ => 1 ≤ length ks
  end.
Proof.
  intros Hreach Hin Ha. apply reachable_full in Hreach as [->|(T & d & HT & Hfull & _)].
  { by destruct Hin as (r & Hr & _). }
  pose proof HT as (Hroot & Hrep & _).
  apply (in_tree_subtree _ _ _ HT) in Hin as (ta & Hta & <-).
  rewrite (Hrep _ Hta) in Ha. injection Ha as <-.
  destruct (full_subtree T _ _ _ Hfull Hta) as [->|[d' Hf]].
  - destruct T as [a ks vs nx|a ks cs]; simpl.
    + apply full_Lf in Hfull as [_ ?]. split; [done|]. by rewrite Hroot.
    + by apply full_Nd in Hfull as [? _].
  - destruct ta as [a ks vs nx|a ks cs]; simpl.
    + apply full_Lf in Hf as [_ ?]. split; [lia|done].
    + by apply full_Nd in Hf as [? _].
Qed.

(** X5.  A reachable tree is balanced: any two leaves are the same number
    of child pointers away from the root. *)
Theorem X5_balanced (t : BPlusTree) (r leaf1 leaf2 : addr) (n1 n2 : nat) :
  reachable t → root_ t = Some r →
  is_leaf (store t) leaf1 → descends (store t) n1 r leaf1 →
  is_leaf (store t) leaf2 → descends (store t) n2 r leaf2 →
  n1 = n2.
Proof.
  intros Hreach Hr Hl1 Hd1 Hl2 Hd2.
  apply reachable_full in Hreach as [->|(T & d & HT)]; [done|].
  pose proof (levels_full t T d HT) as Hlev.
  assert (levels t n1) as H1 by (by exists r, leaf1).
  assert (levels t n2) as H2 by (by exists r, leaf2).
  apply Hlev in H1, H2. congruence.
Qed.

(** X6.  A tree grows at its root only, one level at a time.  An [insert]
    into the empty tree makes a single leaf with the new entry the root.  An
    [insert] into any other reachable tree, with its leaves at depth [d],
    leaves either the same root node and the leaves at depth [d], or a root
    that was not in the store before, with one key and two children, the
    first of which is the old root, and the leaves at depth [d + 1]. *)
Theorem X6_grows_at_root (t : BPlusTree) (key value : Z) :
  reachable t →
  ∃ t',
    insert key value t = Completed t'
    ∧ match root_ t with
      | None =>
        ∃ r',
          root_ t' = Some r' ∧ length (store t) ≤ r'
          ∧ store t' !! r' = Some (BPlusLeafNode [key] [value] None)
          ∧ ∀ n, levels t' n ↔ n = 0
      | Some r =>
        ∃ d,
          (∀ n, levels t n ↔ n = d)
          ∧ ((root_ t' = Some r ∧ ∀ n, levels t' n ↔ n = d)
             ∨ (∃ r' up new,
                  root_ t' = Some r' ∧ length (store t) ≤ r'
                  ∧ store t' !! r' = Some (BPlusInternalNode [up] [r; new])
                  ∧ ∀ n, levels t' n ↔ n = S d))
      end.
Proof.
  intros Hreach.
  apply reachable_full in Hreach as [->|(T & d0 & HT)].
  { eexists. split; [apply insert_empty|]. simpl. exists 0.
    split_and!; [done|done|done|]. apply (levels_full _ _ 0 (full_single key value)). }
  destruct (insert_full t T d0 key value HT) as (t' & T' & d' & Hins & HT' & _ & Hcase).
  exists t'. split; [done|].
  pose proof HT as ((Hroot & _) & _). rewrite Hroot.
  exists d0. split; [by apply (levels_full t T)|].
  destruct Hcase as [[Hroot' ->]|(r0 & r' & up & new & Hr0 & Hr' & Hfresh & Hnode & ->)].
  - left. split; [congruence|]. by apply (levels_full t' T').
  - right. exists r', up, new. rewrite Hroot in Hr0. injection Hr0 as <-.
    split_and!; [done|done|done|]. by apply (levels_full t' T').
Qed.

(** X7.  The depth is logarithmic in the number of keys: a reachable tree
    whose leaves are [d] levels below the root holds between [2 ^ d]
    ([2 ^ (d + 1)] when [d > 0]) and [3 * 4 ^ d] keys. *)
Theorem X7_size_bounds (t : BPlusTree) (ks : list Z) (d : nat) :
  reachable t → walk t = Some ks → levels t d →
  2 ^ d ≤ length ks
  ∧ (0 < d → 2 ^ S d ≤ length ks)
  ∧ length ks ≤ 3 * 4 ^ d.
Proof.
  intros Hreach Hwalk Hlev.
  apply reachable_full in Hreach as [->|(T & d0 & HT)].
  { by destruct Hlev as (r & leaf & Hr & _). }
  apply (levels_full t T d0 HT) in Hlev as ->.
  destruct HT as (HT & Hfull & _).
  rewrite (walk_inv t T HT) in Hwalk. injection Hwalk as <-.
  pose proof HT as (_ & _ & _ & Hwf & _).
  destruct (keys_bounds T None None 1 d0 Hwf Hfull) as [Hlo Hhi]; [lia|].
  split_and!; [lia| |done].
  intros Hd. destruct T as [a ks vs nx|a ks cs].
  - apply full_Lf in Hfull as [-> _]. lia.
  - assert (full 2 d0 (Nd a ks cs)) as Hfull2 by (apply full_Nd; by apply (full_Nd 1) in Hfull).
    destruct (keys_bounds _ None None 2 d0 Hwf Hfull2) as [Hlo2 _]; [lia|].
    by rewrite Nat.pow_succ_r'.
Qed.

(** X8.  On a reachable tree [findParent] always returns, and it returns
    null exactly when no node of the tree has the looked-up node among its
    children, which is the case exactly for the root and for nodes that are
    not in the tree. *)
Theorem X8_findParent_none (t : BPlusTree) (a : addr) :
  reachable t →
  ∃ r,
    findParent t a = Some r
    ∧ (r = None ↔ ∀ p, ¬ holds_child t p a)
    ∧ (r = None ↔ root_ t = Some a ∨ ¬ in_tree t a).
Proof.
  intros Hreach. apply reachable_inv in Hreach as [->|[T HT]].
  { exists None. split_and!; [done| |].
    - split; [|done]. by intros _ p [(r & Hr & _) _].
    - split; [|done]. intros _. right. by intros (r & Hr & _). }
  pose proof HT as (Hroot & Hrep & Hnd & _).
  assert (∀ p, holds_child t p a → findParent t a = Some (Some p)) as Hhold
    by (intros p; by eapply findParent_holder).
  destruct (decide (root_ t = Some a)) as [Hra|Hra].
  { assert (findParent t a = Some None) as Hfind.
    { rewrite Hroot in Hra. injection Hra as <-. unfold findParent. rewrite Hroot.
      apply findParent_root; [done|done|by apply height_le_store]. }
    exists None. split_and!; [done| |].
    - split; [|done]. intros _ p Hp. apply Hhold in Hp. congruence.
    - split; [by left|done]. }
  destruct (decide (a ∈ addrs T)) as [Hin|Hnin].
  - assert (in_tree t a) as Hit.
    { apply (in_tree_subtree _ _ _ HT). by apply list_elem_of_fmap in Hin as (ta & -> & ?); eauto. }
    destruct (holder_exists t T a Hroot Hrep Hit Hra) as [p Hp].
    exists (Some p). split_and!; [by apply Hhold| |].
    + split; [done|]. intros Hno. by destruct (Hno p).
    + split; [done|]. by intros [?|?].
  - assert (¬ in_tree t a) as Hit.
    { intros (ta & Hta & <-)%(in_tree_subtree _ _ _ HT). apply Hnin.
      by apply list_elem_of_fmap_2. }
    exists None. split_and!.
    + unfold findParent. rewrite Hroot.
      apply findParent_absent; [done|by apply height_le_store|done].
    + split; [|done]. intros _ p Hp. by apply Hit, (holds_child_in_tree t p).
    + split; [by right|done].
Qed.

(** X9.  [insert] is idempotent: repeating the call just made leaves the
    tree exactly as it is. *)
Theorem X9_insert_idempotent (t t' : BPlusTree) (key value : Z) :
  reachable t → insert key value t = Completed t' → insert key value t' = Completed t'.
Proof.
  intros Hreach Hins. apply reachable_inv in Hreach.
  destruct (inv_insert t key value Hreach) as (t1 & Hins1 & Ht1 & Hf).
  rewrite Hins in Hins1. injection Hins1 as <-.
  destruct (insert_existing t' key value value) as (leaf & ks & vs & nx & i & Hl & _ & Hv & ->).
  { by rewrite Hf, decide_True. }
  rewrite (list_insert_id vs i value Hv), (list_insert_id _ _ _ Hl). by destruct t'.
Qed.

(** X10.  Two inserts of different keys commute as far as one can observe:
    in either order both complete, and the trees they leave give the same
    result for every [search] and the same walk along the leaves (their
    shapes may differ). *)
Theorem X10_inserts_commute (t : BPlusTree) (k1 v1 k2 v2 : Z) :
  reachable t → k1 ≠ k2 →
  ∃ t12 t21,
    insert_all [(k1, v1); (k2, v2)] t = Some t12
    ∧ insert_all [(k2, v2); (k1, v1)] t = Some t21
    ∧ walk t12 = walk t21
    ∧ ∀ k, ∃ r, search k t12 = Some (r, t12) ∧ search k t21 = Some (r, t21).
Proof.
  intros Hreach Hne. apply reachable_inv in Hreach.
  destruct (inv_insert_all [(k1, v1); (k2, v2)] t Hreach) as (t12 & H12 & Hi12 & Hf12).
  destruct (inv_insert_all [(k2, v2); (k1, v1)] t Hreach) as (t21 & H21 & Hi21 & Hf21).
  exists t12, t21.
  assert (∀ k, found k t12 = found k t21) as Hsame.
  { intros k. rewrite Hf12, Hf21. unfold last_insert. simpl.
    destruct (Z.eqb_spec k1 k), (Z.eqb_spec k2 k); congruence. }
  split_and!; [done|done| |].
  - destruct (walk_found t12 Hi12) as (l1 & -> & Hs1 & He1).
    destruct (walk_found t21 Hi21) as (l2 & -> & Hs2 & He2).
    f_equal. apply sorted_same_elements; [done|done|].
    intros k. by rewrite He1, He2, Hsame.
  - intros k. exists (found k t12). split; [by apply inv_search|].
    rewrite Hsame. by apply inv_search.
Qed.

(** X11.  [insert] writes only to the leaf [findLeaf] returns and to nodes
    that leaf is found from: every other node of the store is the same
    afterwards. *)
Theorem X11_insert_touches_path (t t' : BPlusTree) (key value : Z)
    (x : addr) (n : BPlusNode) :
  reachable t → insert key value t = Completed t' →
  store t !! x = Some n →
  (∀ leaf, findLeaf t key = Some (Some leaf) → ¬ reaches (store t) x leaf) →
  store t' !! x = Some n.
Proof.
  intros Hreach Hins Hx Hoff. apply reachable_inv in Hreach as [->|[T HT]]; [done|].
  destruct (insert_effect t T key value HT)
    as (ctx & a & ks & vs & nx & ks' & vs' & s' & T' & -> & _ & Hfl & Hins' & _ & _ & _
        & Hframe & _).
  rewrite Hins in Hins'. injection Hins' as <-.
  specialize (Hoff a Hfl). destruct HT as (_ & Hrep & _).
  rewrite Hframe; [done|by eapply lookup_lt_Some| |].
  - intros ->. apply Hoff. constructor.
  - intros (f & -> & Hf)%list_elem_of_fmap. apply Hoff.
    by apply (ctx_reaches _ ctx (Lf a ks vs nx)).
Qed.

(** X12.  In a reachable tree the nodes of the tree are exactly the nodes
    that were ever made, and an [insert] never shrinks the store: no node is
    ever dropped from the tree. *)
Theorem X12_no_node_lost (t : BPlusTree) :
  reachable t →
  (∀ a, in_tree t a ↔ a < length (store t))
  ∧ ∀ key value t',
      insert key value t = Completed t' →
      length (store t) ≤ length (store t')
      ∧ ∀ a, in_tree t a → in_tree t' a.
Proof.
  intros Hreach. apply reachable_full in Hreach as [->|(T & d & HT)].
  - split.
    + intros a. split; [by intros (r & Hr & _)|simpl; lia].
    + intros key value t'. rewrite insert_empty. intros [= <-]. split; [simpl; lia|].
      by intros a (r & Hr & _).
  - split; [intros a; by eapply in_tree_store|].
    intros key value t' Hins.
    destruct (insert_full t T d key value HT) as (s' & T' & d' & Hins' & HT' & Hle & _).
    rewrite Hins in Hins'. injection Hins' as <-. split; [done|].
    intros a Ha. apply (in_tree_store t T d a HT) in Ha.
    apply (in_tree_store t' T' d' a HT'). lia.
Qed.

(** X13.  An [insert] into a reachable tree with leaves at depth [d] makes
    at most [d + 2] nodes: one for each split on the way up and one for a
    new root. *)
Theorem X13_allocation_bound (t t' : BPlusTree) (key value : Z) (d : nat) :
  reachable t → levels t d → insert key value t = Completed t' →
  length (store t') ≤ length (store t) + d + 2.
Proof.
  intros Hreach Hlev Hins.
  apply reachable_full in Hreach as [->|(T & d0 & HT)].
  { by destruct Hlev as (r & leaf & Hr & _). }
  apply (levels_full t T d0 HT) in Hlev as ->.
  destruct HT as (HT & Hfull & _ & Hsize).
  destruct (insert_effect t T key value HT)
    as (ctx & a & ks & vs & nx & ks' & vs' & s' & T' & -> & _ & _ & Hins' & _ & _ & Hlen
        & _ & _ & Hshape).
  rewrite Hins in Hins'. injection Hins' as <-.
  destruct (full_plug ctx _ _ _ Hfull) as (m0 & d1 & [-> _]%full_Lf & -> & _).
  destruct Hshape as [[_ ->]|[_ ->]].
  - rewrite !addrs_plug, !addrs_Lf in Hlen. lia.
  - pose proof (length_addrs_promote ctx (leaf_left a ks' vs' (length (store t)))
                  (leaf_key ks') (leaf_right (length (store t)) ks' vs' nx)
                  (S (length (store t)))) as Hp.
    pose proof (length_addrs_leaf_split ctx a (length (store t)) ks' vs' nx) as Hs.
    rewrite !addrs_plug, !addrs_Lf, !length_app in *. simpl in *. lia.
Qed.

(** X14.  In a reachable tree every key of an internal node is a key of the
    tree: key [i] is the first key of a leaf below child [i + 1] (with the
    separator property, the smallest key below that child), so [search]
    finds it. *)
Theorem X14_separator_is_stored (t : BPlusTree) (a c : addr)
    (ks : list Z) (cs : list addr) (i : nat) (k : Z) :
  reachable t → in_tree t a → store t !! a = Some (BPlusInternalNode ks cs) →
  ks !! i = Some k → cs !! S i = Some c →
  (∃ leaf lks lvs nx,
     reaches (store t) c leaf
     ∧ store t !! leaf = Some (BPlusLeafNode lks lvs nx)
     ∧ head lks = Some k)
  ∧ ∃ v, search k t = Some (Some v, t).
Proof.
  intros Hreach Hin Ha Hk Hc.
  apply reachable_full in Hreach as [->|(T & d & HT & _ & Htight & _)].
  { by destruct Hin as (r & Hr & _). }
  pose proof HT as (Hroot & Hrep & _).
  apply (in_tree_subtree _ _ _ HT) in Hin as (ta & Hta & <-).
  rewrite (Hrep _ Hta) in Ha. destruct ta as [|a ks' cs']; [done|].
  simpl in Ha. injection Ha as -> <-.
  rewrite list_lookup_fmap in Hc. destruct (cs' !! S i) as [c'|] eqn:Hc'; [|done].
  simpl in Hc. injection Hc as <-.
  destruct (tight_subtree T _ _ _ Htight Hta) as (lo & hi & Hta').
  rewrite tight_Nd in Hta'.
  destruct (wf_children_lookup tight _ _ _ _ _ _ Hta' Hc') as (lo' & hi' & Htc & _ & Hlo & _).
  rewrite (Hlo i k eq_refl Hk) in Htc.
  destruct (tight_min_leaf c' k hi' Htc) as (leaf & lks & lvs & nx & Hsub & Hhead).
  assert (c' ∈ subtrees T) as Hcsub.
  { eapply subtrees_trans; [|exact Hta].
    eapply subtrees_child; [apply subtrees_self|by eapply list_elem_of_lookup_2]. }
  assert (Lf leaf lks lvs nx ∈ subtrees T) as Hlsub by (by eapply subtrees_trans).
  split.
  - exists leaf, lks, lvs, nx. split_and!; [|by apply (Hrep _ Hlsub)|done].
    apply (subtree_reaches _ c' (Lf leaf lks lvs nx)); [by eapply rep_subtree|done].
  - assert (is_Some (found k t)) as [v Hv].
    { apply (found_keys t T k HT). apply keys_elem. exists leaf, lks, lvs, nx.
      split; [done|]. destruct lks; [done|]. simpl in Hhead. injection Hhead as ->.
      apply list_elem_of_here. }
    exists v. rewrite <- Hv. apply inv_search. right. by exists T.
Qed.

(** X15.  An [insert] on a reachable tree adds its key to the walk along
    the leaves and nothing else: the walk afterwards is ascending, holds
    the key and the keys it held before, and is one longer exactly if the
    key is new. *)
Theorem X15_insert_adds_one_key (t t' : BPlusTree) (key value : Z) (ks : list Z) :
  reachable t → insert key value t = Completed t' → walk t = Some ks →
  ∃ ks',
    walk t' = Some ks'
    ∧ StronglySorted Z.lt ks'
    ∧ (∀ k, k ∈ ks' ↔ k = key ∨ k ∈ ks)
    ∧ length ks' = if decide (key ∈ ks) then length ks else S (length ks).
Proof.
  intros Hreach Hins Hwalk. apply reachable_inv in Hreach.
  destruct (inv_insert t key value Hreach) as (t1 & Hins1 & Ht1 & Hf).
  rewrite Hins in Hins1. injection Hins1 as <-.
  destruct (walk_found t Hreach) as (ks0 & Hw0 & Hs0 & He0).
  rewrite Hwalk in Hw0. injection Hw0 as <-.
  destruct (walk_found t' Ht1) as (ks' & Hw' & Hs' & He').
  exists ks'.
  assert (∀ k, k ∈ ks' ↔ k = key ∨ k ∈ ks) as Hel.
  { intros k. rewrite He', Hf, He0. case_decide; [|naive_solver].
    split; [by left|by eauto]. }
  split_and!; [done|done|done|].
  pose proof (StronglySorted_lt_NoDup _ Hs0) as Hnd0.
  pose proof (StronglySorted_lt_NoDup _ Hs') as Hnd'.
  case_decide as Hin.
  - apply Permutation_length, NoDup_Permutation; [done|done|].
    intros k. rewrite Hel. naive_solver.
  - change (S (length ks)) with (length (key :: ks)).
    apply Permutation_length, NoDup_Permutation; [done|by apply NoDup_cons|].
    intros k. by rewrite Hel, elem_of_cons.
Qed.

(** * The properties at the tree of [main] *)

Lemma C2_search_result_witness :
  reachable demo_tree
  ∧ ∃ r,
      search 18 demo_tree = Some (r, demo_tree)
      ∧ (r = None ↔ root_ demo_tree = None ∨ ¬ stored demo_tree 18)
      ∧ ∀ v, r = Some v →
          ∃ leaf i,
            leaf_entry demo_tree leaf i 18 v
            ∧ ∀ leaf' i' v', leaf_entry demo_tree leaf' i' 18 v' →
                             leaf' = leaf ∧ i' = i ∧ v' = v.
Proof.
  assert (reachable demo_tree) as H by (exists demo_inserts; reflexivity).
  split; [exact H|]. exact (C2_search_result demo_tree 18 H).
Defined.

Lemma C3_order_invariant_witness :
  reachable demo_tree ∧ in_tree demo_tree 2
  ∧ ∃ n, store demo_tree !! 2 = Some n
         ∧ match n with
           | BPlusLeafNode ks vs _ => length ks ≤ kOrder - 1 ∧ length vs ≤ kOrder - 1
           | BPlusInternalNode ks _ => length ks ≤ kOrder - 1
           end.
Proof.
  assert (reachable demo_tree) as H by (exists demo_inserts; reflexivity).
  assert (in_tree demo_tree 2) as H2 by (exists 2; split; [reflexivity|constructor]).
  split_and!; [exact H|exact H2|]. exact (C3_order_invariant demo_tree 2 H H2).
Defined.

Lemma C4_separators_witness :
  reachable demo_tree ∧ findLeaf_index [10; 16; 20]%Z 16 = 2.
Proof.
  assert (reachable demo_tree) as H by (exists demo_inserts; reflexivity).
  split; [exact H|].
  refine (proj2 (proj2 (C4_separators demo_tree H)) 2 [10; 16; 20]%Z [0; 1; 4; 3] 1 16%Z _ _ _).
  - exists 2. split; [reflexivity|constructor].
  - reflexivity.
  - reflexivity.
Defined.

Lemma C5_leaf_chain_witness :
  reachable demo_tree
  ∧ ∃ ks,
      walk demo_tree = Some ks
      ∧ StronglySorted Z.lt ks
      ∧ NoDup ks
      ∧ (∀ k, k ∈ ks ↔ stored demo_tree k)
      ∧ (∀ leaf lks vs nx,
           in_tree demo_tree leaf →
           store demo_tree !! leaf = Some (BPlusLeafNode lks vs nx) →
           StronglySorted Z.lt lks).
Proof.
  assert (reachable demo_tree) as H by (exists demo_inserts; reflexivity).
  split; [exact H|]. exact (C5_leaf_chain demo_tree H).
Defined.

Lemma C6_leaf_split_witness :
  store full_leaf_tree !! 0 = Some (BPlusLeafNode [5; 6; 10; 20]%Z [50; 60; 100; 200]%Z None)
  ∧ length [5; 6; 10; 20]%Z = kOrder
  ∧ length [50; 60; 100; 200]%Z = kOrder
  ∧ ∃ newKey,
      length [5; 6; 10; 20]%Z / 2 = 2
      ∧ head (drop 2 [5; 6; 10; 20]%Z) = Some newKey
      ∧ leaf_split_store (store full_leaf_tree) 0 [5; 6; 10; 20]%Z [50; 60; 100; 200]%Z None
        = <[0 := BPlusLeafNode (take 2 [5; 6; 10; 20]%Z) (take 2 [50; 60; 100; 200]%Z)
                               (Some (length (store full_leaf_tree)))]>
            (store full_leaf_tree)
          ++ [BPlusLeafNode (drop 2 [5; 6; 10; 20]%Z) (drop 2 [50; 60; 100; 200]%Z) None]
      ∧ splitLeafNode 1 0 full_leaf_tree
        = (if decide (root_ full_leaf_tree = Some 0)
           then Completed
                  (MkTree (leaf_split_store (store full_leaf_tree) 0 [5; 6; 10; 20]%Z
                             [50; 60; 100; 200]%Z None
                           ++ [BPlusInternalNode [newKey] [0; length (store full_leaf_tree)]])
                          (Some (S (length (store full_leaf_tree)))))
           else insertInternalNode 1 newKey 0 (length (store full_leaf_tree))
                  (MkTree (leaf_split_store (store full_leaf_tree) 0 [5; 6; 10; 20]%Z
                             [50; 60; 100; 200]%Z None)
                          (root_ full_leaf_tree)))
      ∧ (∀ t', tree_after (splitLeafNode 1 0 full_leaf_tree) = Some t' →
           store t' !! 0
           = Some (BPlusLeafNode (take 2 [5; 6; 10; 20]%Z) (take 2 [50; 60; 100; 200]%Z)
                                 (Some (length (store full_leaf_tree))))
           ∧ store t' !! length (store full_leaf_tree)
             = Some (BPlusLeafNode (drop 2 [5; 6; 10; 20]%Z) (drop 2 [50; 60; 100; 200]%Z)
                                   None)).
Proof.
  split_and!; [reflexivity|reflexivity|reflexivity|].
  exact (C6_leaf_split 1 full_leaf_tree 0 [5; 6; 10; 20]%Z [50; 60; 100; 200]%Z None
           eq_refl eq_refl eq_refl).
Defined.

Lemma C7_internal_split_witness :
  (store full_root_tree !! 5 = Some (BPlusInternalNode [3; 5; 7; 9]%Z [0; 1; 2; 3; 4])
   ∧ length [3; 5; 7; 9]%Z = kOrder
   ∧ length [0; 1; 2; 3; 4] = S kOrder
   ∧ ∃ upKey,
       [3; 5; 7; 9]%Z !! 2 = Some upKey
       ∧ splitInternalNode 1 5 full_root_tree
         = Completed
             (MkTree (internal_split_store (store full_root_tree) 5 [3; 5; 7; 9]%Z
                        [0; 1; 2; 3; 4]
                      ++ [BPlusInternalNode [upKey] [5; 6]])
                     (Some 7)))
  ∧ store deep_split_tree !! 6
    = Some (BPlusInternalNode [9; 11; 13; 15]%Z [4; 5; 8; 9; 10])
  ∧ length [9; 11; 13; 15]%Z = kOrder
  ∧ length [4; 5; 8; 9; 10] = S kOrder
  ∧ reachable deep_tree
  ∧ during_insert 16 160 deep_tree (SplitInternal 10 6 deep_split_tree)
  ∧ root_ deep_split_tree ≠ Some 6
  ∧ call_shaped (SplitInternal 10 6 deep_split_tree)
  ∧ ∃ p pks pcs i,
      holds_child deep_split_tree p 6
      ∧ store deep_split_tree !! p = Some (BPlusInternalNode pks pcs)
      ∧ pcs !! i = Some 6
      ∧ findParent
          (MkTree (internal_split_store (store deep_split_tree) 6 [9; 11; 13; 15]%Z
                     [4; 5; 8; 9; 10])
                  (root_ deep_split_tree)) 6
        = Some (Some p)
      ∧ splitInternalNode 10 6 deep_split_tree
        = (if kOrder <=? S (length pks) then splitInternalNode 9 p else Completed)
            (MkTree
               (<[p := BPlusInternalNode
                         (vector_insert i 13%Z pks)
                         (vector_insert (i + 1) (length (store deep_split_tree)) pcs)]>
                  (internal_split_store (store deep_split_tree) 6 [9; 11; 13; 15]%Z
                     [4; 5; 8; 9; 10]))
               (root_ deep_split_tree))
      ∧ ∃ t', splitInternalNode 10 6 deep_split_tree = Completed t'.
Proof.
  split.
  { split; [reflexivity|]. split; [reflexivity|]. split; [reflexivity|].
    destruct (C7_internal_split 0 full_root_tree 5 [3; 5; 7; 9]%Z [0; 1; 2; 3; 4]
                eq_refl eq_refl eq_refl) as (upKey & _ & Hup & _ & _ & _ & _ & Hsplit & _).
    exists upKey. split; [exact Hup|]. exact Hsplit. }
  assert (reachable deep_tree) as H by (exists deep_inserts; reflexivity).
  assert (during_insert 16 160 deep_tree (SplitInternal 10 6 deep_split_tree)) as Hd.
  { eapply during_next; [eapply during_next; [apply during_first|]|].
    - apply (insert_calls_split 16 160 deep_tree 9 [13; 14; 15]%Z [130; 140; 150]%Z None
               [13; 14; 15; 16]%Z [130; 140; 150; 160]%Z);
        [by exists 7|reflexivity|reflexivity|reflexivity|reflexivity|reflexivity].
    - pose proof (calls_from_leaf 10 9
               (MkTree (<[9 := BPlusLeafNode [13; 14; 15; 16]%Z [130; 140; 150; 160]%Z None]>
                          (store deep_tree)) (root_ deep_tree))
               [13; 14; 15; 16]%Z [130; 140; 150; 160]%Z None 15%Z [16%Z]) as Hc.
      apply Hc; [reflexivity|vm_compute; lia|reflexivity|discriminate].
    - pose proof (calls_split_parent 10 15 9 10
               (MkTree
                  (leaf_split_store
                     (<[9 := BPlusLeafNode [13; 14; 15; 16]%Z [130; 140; 150; 160]%Z None]>
                        (store deep_tree))
                     9 [13; 14; 15; 16]%Z [130; 140; 150; 160]%Z None)
                  (root_ deep_tree))
               6 [9; 11; 13]%Z [4; 5; 8; 9]) as Hc.
      apply Hc; [reflexivity|reflexivity|vm_compute; lia|vm_compute; lia|vm_compute; lia]. }
  assert (root_ deep_split_tree ≠ Some 6) as Hr by discriminate.
  split; [reflexivity|]. split; [reflexivity|]. split; [reflexivity|].
  split; [exact H|]. split; [exact Hd|]. split; [exact Hr|].
  destruct (C7_internal_split 9 deep_split_tree 6 [9; 11; 13; 15]%Z [4; 5; 8; 9; 10]
              eq_refl eq_refl eq_refl)
    as (upKey & _ & Hup & _ & _ & _ & _ & _ & _ & Hpar & Hduring).
  injection Hup as <-.
  destruct (Hduring deep_tree 16%Z 160%Z H Hd) as [Hshape H8].
  split; [exact Hshape|].
  destruct (Hpar Hshape Hr) as (p & pks & pcs & i & H1 & H2 & _ & H4 & _ & H6 & H7).
  exists p, pks, pcs, i. split; [exact H1|]. split; [exact H2|]. split; [exact H4|].
  split; [exact H6|]. split; [exact H7|exact H8].
Defined.

Lemma C9_parent_found_witness :
  reachable demo_tree
  ∧ (∀ key value, ∃ t', insert key value demo_tree = Completed t')
  ∧ findParent demo_tree 4 = Some (Some 2)
  ∧ during_insert 3 30 demo_tree (IntoParent 5 5 0 5 demo_split_tree)
  ∧ ∃ p, findParent demo_split_tree 0 = Some (Some p)
         ∧ holds_child demo_split_tree p 0
         ∧ ∀ q, holds_child demo_split_tree q 0 → q = p.
Proof.
  assert (reachable demo_tree) as H by (exists demo_inserts; reflexivity).
  assert (during_insert 3 30 demo_tree (IntoParent 5 5 0 5 demo_split_tree)) as Hd.
  { eapply during_next.
    - apply during_first.
      apply (insert_calls_split 3 30 demo_tree 0 [2; 5; 6]%Z [20; 50; 60]%Z (Some 1)
               [2; 3; 5; 6]%Z [20; 30; 50; 60]%Z);
        [by exists 2|reflexivity|reflexivity|reflexivity|reflexivity|reflexivity].
    - pose proof (calls_from_leaf 5 0
               (MkTree (<[0 := BPlusLeafNode [2; 3; 5; 6]%Z [20; 30; 50; 60]%Z (Some 1)]>
                          (store demo_tree)) (root_ demo_tree))
               [2; 3; 5; 6]%Z [20; 30; 50; 60]%Z (Some 1) 5%Z [6%Z]) as Hc.
      apply Hc; [reflexivity|vm_compute; lia|reflexivity|discriminate]. }
  destruct (proj2 (C9_parent_found demo_tree) H) as (Hins & Hmid & _ & Hfind & _).
  split_and!; [exact H|exact Hins| |exact Hd|exact (proj2 (Hmid _ _ _ _ _ _ _ Hd))].
  apply Hfind. split.
  - exists 2. split; [reflexivity|constructor].
  - exists [10; 16; 20]%Z, [0; 1; 4; 3]. split; [reflexivity|].
    do 2 apply list_elem_of_further. apply list_elem_of_here.
Defined.

Lemma C10_insert_frame_witness :
  reachable demo_tree
  ∧ ∃ t',
      insert 30 300 demo_tree = Completed t'
      ∧ ∀ k, k ≠ 30%Z →
          ∃ r, search k demo_tree = Some (r, demo_tree) ∧ search k t' = Some (r, t').
Proof.
  assert (reachable demo_tree) as H by (exists demo_inserts; reflexivity).
  split; [exact H|]. exact (C10_insert_frame demo_tree 30 300 H).
Defined.

(** * The further properties at the tree of [main] *)

Lemma demo_levels : levels demo_tree 1.
Proof.
  exists 2, 0. split; [reflexivity|]. split; [by eexists _, _, _|].
  eapply descends_child; [reflexivity|apply list_elem_of_here|constructor].
Defined.

Lemma X1_search_never_inserted_witness :
  insert_all demo_inserts empty_tree = Some demo_tree
  ∧ (30%Z ∉ demo_inserts.*1)
  ∧ search 30 demo_tree = Some (None, demo_tree).
Proof.
  assert (30%Z ∉ demo_inserts.*1) as H.
  { simpl. rewrite !not_elem_of_cons. split_and!; (done || apply not_elem_of_nil). }
  split; [reflexivity|]. split; [exact H|].
  exact (X1_search_never_inserted demo_inserts demo_tree 30 eq_refl H).
Defined.

Lemma X2_walk_inserted_keys_witness :
  insert_all demo_inserts empty_tree = Some demo_tree
  ∧ ∃ ks, walk demo_tree = Some ks
          ∧ StronglySorted Z.lt ks
          ∧ ∀ k, k ∈ ks ↔ k ∈ demo_inserts.*1.
Proof.
  split; [reflexivity|]. exact (X2_walk_inserted_keys demo_inserts demo_tree eq_refl).
Defined.

Lemma X3_node_shape_witness :
  reachable demo_tree
  ∧ in_tree demo_tree 2
  ∧ store demo_tree !! 2 = Some (BPlusInternalNode [10; 16; 20]%Z [0; 1; 4; 3])
  ∧ length [0; 1; 4; 3] = S (length [10; 16; 20]%Z)
  ∧ NoDup [0; 1; 4; 3]
  ∧ ∀ c, c ∈ [0; 1; 4; 3] → in_tree demo_tree c ∧ c ≠ 2 ∧ root_ demo_tree ≠ Some c.
Proof.
  assert (reachable demo_tree) as H by (exists demo_inserts; reflexivity).
  assert (in_tree demo_tree 2) as Hin by (exists 2; split; [reflexivity|constructor]).
  split; [exact H|]. split; [exact Hin|]. split; [reflexivity|].
  exact (X3_node_shape demo_tree 2 _ H Hin eq_refl).
Defined.

Lemma X4_min_occupancy_witness :
  reachable demo_tree
  ∧ in_tree demo_tree 2
  ∧ store demo_tree !! 2 = Some (BPlusInternalNode [10; 16; 20]%Z [0; 1; 4; 3])
  ∧ 1 ≤ length [10; 16; 20]%Z.
Proof.
  assert (reachable demo_tree) as H by (exists demo_inserts; reflexivity).
  assert (in_tree demo_tree 2) as Hin by (exists 2; split; [reflexivity|constructor]).
  split; [exact H|]. split; [exact Hin|]. split; [reflexivity|].
  exact (X4_min_occupancy demo_tree 2 _ H Hin eq_refl).
Defined.

Lemma X5_balanced_witness :
  reachable demo_tree
  ∧ root_ demo_tree = Some 2
  ∧ is_leaf (store demo_tree) 0 ∧ descends (store demo_tree) 1 2 0
  ∧ is_leaf (store demo_tree) 3 ∧ descends (store demo_tree) 1 2 3
  ∧ 1 = 1.
Proof.
  assert (reachable demo_tree) as H by (exists demo_inserts; reflexivity).
  assert (is_leaf (store demo_tree) 0) as Hl0 by (by eexists _, _, _).
  assert (is_leaf (store demo_tree) 3) as Hl3 by (by eexists _, _, _).
  assert (descends (store demo_tree) 1 2 0) as Hd0.
  { eapply descends_child; [reflexivity|apply list_elem_of_here|constructor]. }
  assert (descends (store demo_tree) 1 2 3) as Hd3.
  { eapply descends_child; [reflexivity| |constructor].
    do 3 apply list_elem_of_further. apply list_elem_of_here. }
  split; [exact H|]. split; [reflexivity|]. split; [exact Hl0|]. split; [exact Hd0|]. split; [exact Hl3|]. split; [exact Hd3|].
  exact (X5_balanced demo_tree 2 0 3 1 1 H eq_refl Hl0 Hd0 Hl3 Hd3).
Defined.

Lemma X6_grows_at_root_witness :
  reachable demo_tree
  ∧ (∃ t',
       insert 3 30 demo_tree = Completed t'
       ∧ ∃ d,
           (∀ n, levels demo_tree n ↔ n = d)
           ∧ ((root_ t' = Some 2 ∧ ∀ n, levels t' n ↔ n = d)
              ∨ (∃ r' up new,
                   root_ t' = Some r' ∧ length (store demo_tree) ≤ r'
                   ∧ store t' !! r' = Some (BPlusInternalNode [up] [2; new])
                   ∧ ∀ n, levels t' n ↔ n = S d)))
  ∧ reachable empty_tree
  ∧ ∃ t',
      insert 3 30 empty_tree = Completed t'
      ∧ ∃ r',
          root_ t' = Some r' ∧ length (store empty_tree) ≤ r'
          ∧ store t' !! r' = Some (BPlusLeafNode [3]%Z [30]%Z None)
          ∧ ∀ n, levels t' n ↔ n = 0.
Proof.
  assert (reachable demo_tree) as H by (exists demo_inserts; reflexivity).
  assert (reachable empty_tree) as H0 by (exists []; reflexivity).
  split; [exact H|]. split; [exact (X6_grows_at_root demo_tree 3 30 H)|].
  split; [exact H0|]. exact (X6_grows_at_root empty_tree 3 30 H0).
Defined.

Lemma X7_size_bounds_witness :
  reachable demo_tree
  ∧ walk demo_tree = Some [2; 5; 6; 10; 15; 16; 18; 20; 25]%Z
  ∧ levels demo_tree 1
  ∧ 2 ^ 1 ≤ length [2; 5; 6; 10; 15; 16; 18; 20; 25]%Z
  ∧ (0 < 1 → 2 ^ 2 ≤ length [2; 5; 6; 10; 15; 16; 18; 20; 25]%Z)
  ∧ length [2; 5; 6; 10; 15; 16; 18; 20; 25]%Z ≤ 3 * 4 ^ 1.
Proof.
  assert (reachable demo_tree) as H by (exists demo_inserts; reflexivity).
  split; [exact H|]. split; [reflexivity|]. split; [exact demo_levels|].
  exact (X7_size_bounds demo_tree _ 1 H eq_refl demo_levels).
Defined.

Lemma X8_findParent_none_witness :
  reachable demo_tree
  ∧ ∃ r,
      findParent demo_tree 2 = Some r
      ∧ (r = None ↔ ∀ p, ¬ holds_child demo_tree p 2)
      ∧ (r = None ↔ root_ demo_tree = Some 2 ∨ ¬ in_tree demo_tree 2).
Proof.
  assert (reachable demo_tree) as H by (exists demo_inserts; reflexivity).
  split; [exact H|]. exact (X8_findParent_none demo_tree 2 H).
Defined.

Lemma X9_insert_idempotent_witness :
  reachable demo_tree
  ∧ ∃ t', insert 3 30 demo_tree = Completed t' ∧ insert 3 30 t' = Completed t'.
Proof.
  assert (reachable demo_tree) as H by (exists demo_inserts; reflexivity).
  split; [exact H|]. eexists. split; [reflexivity|].
  apply (X9_insert_idempotent demo_tree _ 3 30 H). reflexivity.
Defined.

Lemma X10_inserts_commute_witness :
  reachable demo_tree
  ∧ 3%Z ≠ 30%Z
  ∧ ∃ t12 t21,
      insert_all [(3, 30); (30, 300)]%Z demo_tree = Some t12
      ∧ insert_all [(30, 300); (3, 30)]%Z demo_tree = Some t21
      ∧ walk t12 = walk t21
      ∧ ∀ k, ∃ r, search k t12 = Some (r, t12) ∧ search k t21 = Some (r, t21).
Proof.
  assert (reachable demo_tree) as H by (exists demo_inserts; reflexivity).
  assert (3%Z ≠ 30%Z) as Hne by discriminate.
  split; [exact H|]. split; [exact Hne|].
  exact (X10_inserts_commute demo_tree 3 30 30 300 H Hne).
Defined.

Lemma X11_insert_touches_path_witness :
  reachable demo_tree
  ∧ store demo_tree !! 0 = Some (BPlusLeafNode [2; 5; 6]%Z [20; 50; 60]%Z (Some 1))
  ∧ (∀ leaf, findLeaf demo_tree 30 = Some (Some leaf) → ¬ reaches (store demo_tree) 0 leaf)
  ∧ ∃ t',
      insert 30 300 demo_tree = Completed t'
      ∧ store t' !! 0 = Some (BPlusLeafNode [2; 5; 6]%Z [20; 50; 60]%Z (Some 1)).
Proof.
  assert (reachable demo_tree) as H by (exists demo_inserts; reflexivity).
  assert (∀ leaf, findLeaf demo_tree 30 = Some (Some leaf) →
                  ¬ reaches (store demo_tree) 0 leaf) as Hoff.
  { intros leaf Hfl Hr. vm_compute in Hfl. injection Hfl as <-.
    inversion Hr as [|? ks cs c ? Hn]. discriminate Hn. }
  split; [exact H|]. split; [reflexivity|]. split; [exact Hoff|].
  eexists. split; [reflexivity|].
  apply (X11_insert_touches_path demo_tree _ 30 300 0 _ H eq_refl eq_refl Hoff).
Defined.

Lemma X12_no_node_lost_witness :
  reachable demo_tree
  ∧ (∀ a, in_tree demo_tree a ↔ a < length (store demo_tree))
  ∧ ∀ key value t',
      insert key value demo_tree = Completed t' →
      length (store demo_tree) ≤ length (store t')
      ∧ ∀ a, in_tree demo_tree a → in_tree t' a.
Proof.
  assert (reachable demo_tree) as H by (exists demo_inserts; reflexivity).
  split; [exact H|]. exact (X12_no_node_lost demo_tree H).
Defined.

Lemma X13_allocation_bound_witness :
  reachable demo_tree
  ∧ levels demo_tree 1
  ∧ ∃ t', insert 3 30 demo_tree = Completed t'
          ∧ length (store t') ≤ length (store demo_tree) + 1 + 2.
Proof.
  assert (reachable demo_tree) as H by (exists demo_inserts; reflexivity).
  split; [exact H|]. split; [exact demo_levels|].
  eexists. split; [reflexivity|].
  apply (X13_allocation_bound demo_tree _ 3 30 1 H demo_levels). reflexivity.
Defined.

Lemma X14_separator_is_stored_witness :
  reachable demo_tree
  ∧ in_tree demo_tree 2
  ∧ store demo_tree !! 2 = Some (BPlusInternalNode [10; 16; 20]%Z [0; 1; 4; 3])
  ∧ [10; 16; 20]%Z !! 1 = Some 16%Z
  ∧ [0; 1; 4; 3] !! 2 = Some 4
  ∧ (∃ leaf lks lvs nx,
       reaches (store demo_tree) 4 leaf
       ∧ store demo_tree !! leaf = Some (BPlusLeafNode lks lvs nx)
       ∧ head lks = Some 16%Z)
  ∧ ∃ v, search 16 demo_tree = Some (Some v, demo_tree).
Proof.
  assert (reachable demo_tree) as H by (exists demo_inserts; reflexivity).
  assert (in_tree demo_tree 2) as Hin by (exists 2; split; [reflexivity|constructor]).
  split; [exact H|]. split; [exact Hin|]. split; [reflexivity|].
  split; [reflexivity|]. split; [reflexivity|].
  exact (X14_separator_is_stored demo_tree 2 4 _ _ 1 16 H Hin eq_refl eq_refl eq_refl).
Defined.

Lemma X15_insert_adds_one_key_witness :
  reachable demo_tree
  ∧ walk demo_tree = Some [2; 5; 6; 10; 15; 16; 18; 20; 25]%Z
  ∧ ∃ t' ks',
      insert 3 30 demo_tree = Completed t'
      ∧ walk t' = Some ks'
      ∧ StronglySorted Z.lt ks'
      ∧ (∀ k, k ∈ ks' ↔ k = 3%Z ∨ k ∈ [2; 5; 6; 10; 15; 16; 18; 20; 25]%Z)
      ∧ length ks' = if decide (3%Z ∈ [2; 5; 6; 10; 15; 16; 18; 20; 25]%Z)
                     then 9 else 10.
Proof.
  assert (reachable demo_tree) as H by (exists demo_inserts; reflexivity).
  split; [exact H|]. split; [reflexivity|].
  eexists.
  destruct (X15_insert_adds_one_key demo_tree _ 3 30 _ H eq_refl eq_refl)
    as (ks' & Hw & Hs & He & Hl).
  exists ks'. split; [reflexivity|]. split; [exact Hw|]. split; [exact Hs|].
  split; [exact He|exact Hl].
Defined.
